(** * Multi-method authentication of the Magic MCP HTTP server

    A shallow embedding of the authentication middleware of the server
    (src/middleware/auth.ts, api-key-auth.ts, basic-auth.ts, oidc-auth.ts,
    the auth part of utils/config.ts and of server/http-server.ts), and the
    properties of it that the specification states.

    Modelling conventions.
    - A string is a [string] of Stdlib: a sequence of 8-bit characters.  A
      header value is the sequence of its (latin-1) characters; any other
      JavaScript string stands for its UTF-8 encoding, so that hashing it
      and decoding it from a buffer act on the bytes as they are (the
      replacement of ill-formed UTF-8 by U+FFFD is outside the model).
    - [string | undefined] is [option string]; JavaScript truthiness of
      such a value is [truthy].
    - An async function is a computation in the monad [M]: it reads and
      updates the [World] (the request context [c], the logger, the state
      of the OIDCAuth object, the network) and returns or throws.  Within
      one request [await] is sequencing; the interleaving of several
      requests at an [await] is modelled separately (module [EventLoop]).
    - The runtime outside the repository (jose's [jwtVerify], [fetch],
      [new URL]) is a [Runtime] record of oracles; SHA-256 and base64 are
      given executably. *)

From stdpp Require Import gmap strings list fin_maps pretty.
From Stdlib Require Import Ascii NArith ZArith Lia.

Set Default Proof Using "Type".
Local Open Scope string_scope.
Local Open Scope list_scope.
Local Open Scope nat_scope.

(** ** JavaScript values *)

(** [!!v] for [v : string | undefined]. *)
Definition truthy (v : option string) : bool :=
  match v with
  | Some s => negb (String.eqb s "")
  | None => false
  end.

(** [a || b] on strings. *)
Definition or_else (a : option string) (b : string) : string :=
  match a with
  | Some s => if String.eqb s "" then b else s
  | None => b
  end.

(** [s.substring(start)] *)
Definition substring_from (start : nat) (s : string) : string :=
  String.substring start (String.length s - start) s.

(** [s.indexOf(ch)], [None] for -1. *)
Fixpoint indexOf (ch : ascii) (s : string) : option nat :=
  match s with
  | EmptyString => None
  | String a s' => if Ascii.eqb a ch then Some 0 else S <$> indexOf ch s'
  end.

(** [xs.join(sep)] *)
Fixpoint join (sep : string) (xs : list string) : string :=
  match xs with
  | [] => ""
  | [x] => x
  | x :: xs' => x +:+ sep +:+ join sep xs'
  end.

(** [xs.includes(x)] *)
Definition includes (x : string) (xs : list string) : bool :=
  bool_decide (x ∈ xs).

Definition is_upper (a : ascii) : bool :=
  Nat.leb 65 (nat_of_ascii a) && Nat.leb (nat_of_ascii a) 90.

Definition lower_ascii (a : ascii) : ascii :=
  if is_upper a then ascii_of_nat (nat_of_ascii a + 32) else a.

(** [s.toLowerCase()] on ASCII letters. *)
Fixpoint toLowerCase (s : string) : string :=
  match s with
  | EmptyString => EmptyString
  | String a s' => String (lower_ascii a) (toLowerCase s')
  end.

(** ** The runtime's codecs: SHA-256 and base64 *)

(** [createHash('sha256').update(s).digest('hex')] (FIPS 180-4), on 32-bit
    words held in [N]. *)
Module SHA256.
Local Open Scope N_scope.

Definition w32 (x : N) : N := N.land x 0xFFFFFFFF.
Definition add32 (x y : N) : N := w32 (x + y).
Definition rotr (n x : N) : N :=
  N.lor (N.shiftr x n) (w32 (N.shiftl x (32 - n))).
Definition not32 (x : N) : N := N.lxor x 0xFFFFFFFF.

Definition Ch (x y z : N) : N := N.lxor (N.land x y) (N.land (not32 x) z).
Definition Maj (x y z : N) : N :=
  N.lxor (N.lxor (N.land x y) (N.land x z)) (N.land y z).
Definition Sigma0 (x : N) : N := N.lxor (N.lxor (rotr 2 x) (rotr 13 x)) (rotr 22 x).
Definition Sigma1 (x : N) : N := N.lxor (N.lxor (rotr 6 x) (rotr 11 x)) (rotr 25 x).
Definition sigma0 (x : N) : N := N.lxor (N.lxor (rotr 7 x) (rotr 18 x)) (N.shiftr x 3).
Definition sigma1 (x : N) : N := N.lxor (N.lxor (rotr 17 x) (rotr 19 x)) (N.shiftr x 10).

(** The largest [x] in [lo .. hi] with [x ^ 3 <= n], by bisection. *)
Fixpoint cube_root (fuel : nat) (n lo hi : N) : N :=
  match fuel with
  | O => lo
  | S fuel' =>
      if lo <? hi then
        let mid := (lo + hi + 1) / 2 in
        if mid * mid * mid <=? n then cube_root fuel' n mid hi
        else cube_root fuel' n lo (mid - 1)
      else lo
  end.

Definition is_prime (n : nat) : bool :=
  forallb (λ d, negb (Nat.eqb (n `mod` d) 0)) (seq 2 (n - 2)).

(** The first 64 primes. *)
Definition primes : list N :=
  Eval vm_compute in map N.of_nat (filter is_prime (seq 2 310)).

(** The round constants: the first 32 bits of the fractional parts of the
    cube roots of the first 64 primes. *)
Definition K : list N :=
  Eval vm_compute in
    map (λ p, w32 (cube_root 64 (N.shiftl p 96) 0 (N.shiftl 1 36))) primes.

Record state : Type := mkState { ha : N; hb : N; hc : N; hd : N;
                                 he : N; hf : N; hg : N; hh : N }.

(** The initial hash value: the first 32 bits of the fractional parts of
    the square roots of the first 8 primes. *)
Definition root_bits (p : N) : N := w32 (N.sqrt (N.shiftl p 64)).

Definition H0 : state :=
  Eval vm_compute in
    mkState (root_bits 2) (root_bits 3) (root_bits 5) (root_bits 7)
            (root_bits 11) (root_bits 13) (root_bits 17) (root_bits 19).

(** The message with its padding: a 1 bit, zeros up to 56 modulo 64, and
    the length in bits as a 64-bit big-endian number. *)
Definition be_bytes (count : nat) (x : N) : list N :=
  rev (map (λ i, N.land (N.shiftr x (8 * N.of_nat i)) 0xFF) (seq 0 count)).

Definition pad (msg : list N) : list N :=
  let len := length msg in
  let zeros := ((119 - len `mod` 64) `mod` 64)%nat in
  msg ++ [0x80] ++ repeat 0 zeros ++ be_bytes 8 (8 * N.of_nat len).

Fixpoint words (count : nat) (bytes : list N) : list N :=
  match count, bytes with
  | S count', b0 :: b1 :: b2 :: b3 :: rest =>
      (N.shiftl b0 24 + N.shiftl b1 16 + N.shiftl b2 8 + b3) :: words count' rest
  | _, _ => []
  end.

(** The message schedule, newest word first: [rw] holds W[t-1], W[t-2], ... *)
Fixpoint schedule (count : nat) (rw : list N) : list N :=
  match count with
  | O => rw
  | S count' =>
      let w := add32 (add32 (sigma1 (nth 1 rw 0)) (nth 6 rw 0))
                     (add32 (sigma0 (nth 14 rw 0)) (nth 15 rw 0)) in
      schedule count' (w :: rw)
  end.

Definition round (s : state) (kw : N * N) : state :=
  let t1 := add32 (add32 (add32 (hh s) (Sigma1 (he s))) (Ch (he s) (hf s) (hg s)))
                  (add32 (fst kw) (snd kw)) in
  let t2 := add32 (Sigma0 (ha s)) (Maj (ha s) (hb s) (hc s)) in
  mkState (add32 t1 t2) (ha s) (hb s) (hc s) (add32 (hd s) t1) (he s) (hf s) (hg s).

Definition compress (h : state) (block : list N) : state :=
  let w := rev (schedule 48 (rev (words 16 block))) in
  let s := fold_left round (combine K w) h in
  mkState (add32 (ha h) (ha s)) (add32 (hb h) (hb s)) (add32 (hc h) (hc s))
          (add32 (hd h) (hd s)) (add32 (he h) (he s)) (add32 (hf h) (hf s))
          (add32 (hg h) (hg s)) (add32 (hh h) (hh s)).

Fixpoint blocks (count : nat) (bytes : list N) (h : state) : state :=
  match count with
  | O => h
  | S count' => blocks count' (drop 64 bytes) (compress h (take 64 bytes))
  end.

Definition digest (msg : list N) : state :=
  let padded := pad msg in
  blocks (length padded / 64) padded H0.

Definition hex_digit (x : N) : ascii :=
  if x <? 10 then ascii_of_N (48 + x) else ascii_of_N (87 + x).

Definition hex_word (x : N) (tail : string) : string :=
  String (hex_digit (N.land (N.shiftr x 28) 0xF))
 (String (hex_digit (N.land (N.shiftr x 24) 0xF))
 (String (hex_digit (N.land (N.shiftr x 20) 0xF))
 (String (hex_digit (N.land (N.shiftr x 16) 0xF))
 (String (hex_digit (N.land (N.shiftr x 12) 0xF))
 (String (hex_digit (N.land (N.shiftr x 8) 0xF))
 (String (hex_digit (N.land (N.shiftr x 4) 0xF))
 (String (hex_digit (N.land x 0xF)) tail))))))).

Definition hex (s : state) : string :=
  hex_word (ha s) (hex_word (hb s) (hex_word (hc s) (hex_word (hd s)
 (hex_word (he s) (hex_word (hf s) (hex_word (hg s) (hex_word (hh s) ""))))))).

Definition bytes_of (s : string) : list N :=
  map N_of_ascii (String.list_ascii_of_string s).

Definition sha256_hex (s : string) : string := hex (digest (bytes_of s)).
End SHA256.

(** [Buffer.from(text, 'base64')] and, for the client's side, the encoding
    of RFC 4648.  The decoder is the lenient one of the runtime: characters
    outside the alphabet are skipped, both alphabets are read, decoding
    stops at the first [=], and it never throws. *)
Module Base64.
Local Open Scope N_scope.

Definition char_of (v : N) : ascii :=
  if v <? 26 then ascii_of_N (65 + v)
  else if v <? 52 then ascii_of_N (71 + v)
  else if v <? 62 then ascii_of_N (v - 4)
  else if v =? 62 then "+"%char
  else "/"%char.

Definition value_of (a : ascii) : option N :=
  let v := N_of_ascii a in
  if (65 <=? v) && (v <=? 90) then Some (v - 65)
  else if (97 <=? v) && (v <=? 122) then Some (v - 71)
  else if (48 <=? v) && (v <=? 57) then Some (v + 4)
  else if (v =? 43) || (v =? 45) then Some 62
  else if (v =? 47) || (v =? 95) then Some 63
  else None.

Fixpoint encode (s : string) : string :=
  match s with
  | String a (String b (String c rest)) =>
      let a := N_of_ascii a in let b := N_of_ascii b in let c := N_of_ascii c in
      String (char_of (a / 4))
     (String (char_of (a mod 4 * 16 + b / 16))
     (String (char_of (b mod 16 * 4 + c / 64))
     (String (char_of (c mod 64)) (encode rest))))
  | String a (String b EmptyString) =>
      let a := N_of_ascii a in let b := N_of_ascii b in
      String (char_of (a / 4))
     (String (char_of (a mod 4 * 16 + b / 16))
     (String (char_of (b mod 16 * 4)) "="))
  | String a EmptyString =>
      let a := N_of_ascii a in
      String (char_of (a / 4)) (String (char_of (a mod 4 * 16)) "==")
  | EmptyString => EmptyString
  end.

(** The 6-bit values of the legal characters before the first [=]. *)
Fixpoint sextets (s : string) : list N :=
  match s with
  | EmptyString => []
  | String a s' =>
      if Ascii.eqb a "=" then []
      else match value_of a with
           | Some v => v :: sextets s'
           | None => sextets s'
           end
  end.

Fixpoint pack (vs : list N) : string :=
  match vs with
  | v0 :: v1 :: v2 :: v3 :: rest =>
      String (ascii_of_N ((v0 * 4 + v1 / 16) mod 256))
     (String (ascii_of_N ((v1 mod 16 * 16 + v2 / 4) mod 256))
     (String (ascii_of_N ((v2 mod 4 * 64 + v3) mod 256)) (pack rest)))
  | [v0; v1; v2] =>
      String (ascii_of_N ((v0 * 4 + v1 / 16) mod 256))
     (String (ascii_of_N ((v1 mod 16 * 16 + v2 / 4) mod 256)) EmptyString)
  | [v0; v1] =>
      String (ascii_of_N ((v0 * 4 + v1 / 16) mod 256)) EmptyString
  | _ => EmptyString
  end.

(** [Buffer.from(text, 'base64').toString('utf-8')] *)
Definition decode (text : string) : string := pack (sextets text).
End Base64.

(** ** Errors (utils/errors.ts) and what an async function does *)

(** What a [throw] carries.  [AuthenticationError] is the subclass of
    [AppError] the middleware throws; [Error] stands for every other
    instance of [Error] ([Error], [TypeError], ...); [NonError] is a thrown
    value that is not an instance of [Error]. *)
Inductive Thrown : Type :=
| AuthenticationError (message : string)
| Error (message : string)
| NonError (value : string).

Global Instance Thrown_eq_dec : EqDecision Thrown.
Proof. solve_decision. Defined.

Definition instanceof_Error (e : Thrown) : bool :=
  match e with NonError _ => false | _ => true end.

Definition instanceof_AuthenticationError (e : Thrown) : bool :=
  match e with AuthenticationError _ => true | _ => false end.

Definition error_message (e : Thrown) : string :=
  match e with
  | AuthenticationError m | Error m => m
  | NonError v => v
  end.

Inductive Outcome (A : Type) : Type :=
| Returned (a : A)
| Threw (e : Thrown).
Arguments Returned {A} a.
Arguments Threw {A} e.

(** ** Data model (types/index.ts) *)

Inductive AuthMethod : Type := api_key | oidc | basic.

Global Instance AuthMethod_eq_dec : EqDecision AuthMethod.
Proof. solve_decision. Defined.

(** The name of a method in [config.auth.methods]. *)
Definition method_name (m : AuthMethod) : string :=
  match m with
  | api_key => "api-key"
  | oidc => "oidc"
  | basic => "basic"
  end.

(** The claims of a verified token; only string-valued claims are read. *)
Abbreviation JWTPayload := (gmap string string).

Record AuthContext : Type := mkAuthContext {
  method : AuthMethod;
  user : option string;
  claims : option JWTPayload;
}.

Global Instance AuthContext_eq_dec : EqDecision AuthContext.
Proof. solve_decision. Defined.

Record OIDCConfig : Type := mkOIDCConfig {
  issuer : string;
  clientId : string;
  clientSecret : option string;
  audience : option string;
  jwksUri : option string;
}.

Record BasicAuthConfig : Type := mkBasicAuthConfig {
  users : gmap string string;
  realm : option string;
}.

Record ApiKeyAuthConfig : Type := mkApiKeyAuthConfig {
  apiKeys : list string;
  headerName : option string;
  queryParamName : option string;
}.

(** The part of a request the middleware reads ([c.req]).  Header names are
    matched case-insensitively: the map is keyed by lower-case names. *)
Record Request : Type := mkRequest {
  req_path : string;
  req_method : string;
  req_headers : gmap string string;
  req_queries : gmap string string;
}.

(** [c.req.header(name)] *)
Definition req_header (c : Request) (name : string) : option string :=
  req_headers c !! toLowerCase name.

(** [c.req.query(name)] *)
Definition req_query (c : Request) (name : string) : option string :=
  req_queries c !! name.

(** ** The logger (utils/logger.ts) *)

Inductive LogLevel : Type := debug | info | warn | error.

Inductive MetaValue : Type :=
| MStr (s : string)
| MList (l : list string)
| MNat (n : nat)
| MThrown (e : Thrown).

Record LogEntry : Type := mkLog {
  log_level : LogLevel;
  log_message : string;
  log_meta : list (string * MetaValue);
}.

Definition LOG_LEVELS (l : LogLevel) : nat :=
  match l with debug => 0 | info => 1 | warn => 2 | error => 3 end.

(** [Logger.shouldLog]: a call is printed when its level is at least the
    configured one. *)
Definition shouldLog (configured l : LogLevel) : bool :=
  Nat.leb (LOG_LEVELS configured) (LOG_LEVELS l).

(** ** The world an async function runs in *)

Record World : Type := mkWorld {
  (** [c.get('auth')] *)
  ctx_auth : option AuthContext;
  (** the response headers set with [c.header] *)
  ctx_headers : gmap string string;
  (** the calls made on [logger], oldest first *)
  logs : list LogEntry;
  (** [this.config.jwksUri] of the OIDCAuth object *)
  oidc_jwksUri : option string;
  (** [this.jwks] of the OIDCAuth object: the URL of its remote key set *)
  oidc_jwks : option string;
  (** the URLs requested with [fetch], oldest first *)
  outbound : list string;
  (** how many times the handlers after the middleware have been entered *)
  dispatched : nat;
}.

Definition M (A : Type) : Type := World → Outcome A * World.

Global Instance M_ret : MRet M := λ A a w, (Returned a, w).

Global Instance M_bind : MBind M := λ A B k m w,
  match m w with
  | (Returned a, w') => k a w'
  | (Threw e, w') => (Threw e, w')
  end.

Definition throw {A} (e : Thrown) : M A := λ w, (Threw e, w).

(** [try { body } catch (error) { handler }] *)
Definition try_catch {A} (body : M A) (handler : Thrown → M A) : M A :=
  λ w, match body w with
       | (Returned a, w') => (Returned a, w')
       | (Threw e, w') => handler e w'
       end.

Definition modify (f : World → World) : M unit := λ w, (Returned tt, f w).

Definition get {A} (f : World → A) : M A := λ w, (Returned (f w), w).

Definition set_auth (a : AuthContext) (w : World) : World :=
  mkWorld (Some a) (ctx_headers w) (logs w) (oidc_jwksUri w) (oidc_jwks w)
          (outbound w) (dispatched w).

Definition set_header (name value : string) (w : World) : World :=
  mkWorld (ctx_auth w) (<[name := value]> (ctx_headers w)) (logs w)
          (oidc_jwksUri w) (oidc_jwks w) (outbound w) (dispatched w).

Definition add_log (e : LogEntry) (w : World) : World :=
  mkWorld (ctx_auth w) (ctx_headers w) (logs w ++ [e]) (oidc_jwksUri w)
          (oidc_jwks w) (outbound w) (dispatched w).

Definition set_jwksUri (u : option string) (w : World) : World :=
  mkWorld (ctx_auth w) (ctx_headers w) (logs w) u (oidc_jwks w)
          (outbound w) (dispatched w).

Definition set_jwks (j : option string) (w : World) : World :=
  mkWorld (ctx_auth w) (ctx_headers w) (logs w) (oidc_jwksUri w) j
          (outbound w) (dispatched w).

Definition add_outbound (url : string) (w : World) : World :=
  mkWorld (ctx_auth w) (ctx_headers w) (logs w) (oidc_jwksUri w)
          (oidc_jwks w) (outbound w ++ [url]) (dispatched w).

Definition add_dispatch (w : World) : World :=
  mkWorld (ctx_auth w) (ctx_headers w) (logs w) (oidc_jwksUri w)
          (oidc_jwks w) (outbound w) (S (dispatched w)).

(** [c.set('auth', a)] *)
Definition c_set_auth (a : AuthContext) : M unit := modify (set_auth a).

(** [c.header(name, value)] *)
Definition c_header (name value : string) : M unit :=
  modify (set_header name value).

Definition logger (l : LogLevel) (msg : string)
    (meta : list (string * MetaValue)) : M unit :=
  modify (add_log (mkLog l msg meta)).

(** The [{ path: c.req.path, method: c.req.method }] of most log calls. *)
Definition req_meta (c : Request) : list (string * MetaValue) :=
  [("path", MStr (req_path c)); ("method", MStr (req_method c))].

(** A middleware: [(c, next) => Promise<void>]. *)
Definition AuthMiddleware : Type := Request → M unit → M unit.

(** [async () => {}] *)
Definition noop : M unit := mret tt.

(** ** API key authentication (middleware/api-key-auth.ts) *)

Definition API_KEY_HEADER : string := "x-api-key".
Definition API_KEY_QUERY : string := "api_key".

Definition api_key_principal (apiKey : string) : string :=
  "api-key-" +:+ String.substring 0 8 apiKey +:+ "...".

Definition createApiKeyAuth (config : ApiKeyAuthConfig) : AuthMiddleware :=
  let headerName := or_else (headerName config) API_KEY_HEADER in
  let queryParamName := or_else (queryParamName config) API_KEY_QUERY in
  λ c next,
    let apiKey := req_header c headerName in
    let apiKey :=
      if negb (truthy apiKey) then req_query c queryParamName else apiKey in
    if negb (truthy apiKey) then
      logger warn "API key authentication failed: No API key provided"
             (req_meta c) ;;
      throw (AuthenticationError
               "API key is required. Provide it via header or query parameter.")
    else
      let apiKey := default "" apiKey in
      let isValid := includes apiKey (apiKeys config) in
      if negb isValid then
        logger warn "API key authentication failed: Invalid API key"
               (req_meta c) ;;
        throw (AuthenticationError "Invalid API key")
      else
        let authContext :=
          mkAuthContext api_key (Some (api_key_principal apiKey)) None in
        c_set_auth authContext ;;
        logger debug "API key authentication successful"
               (req_meta c ++ [("user", MStr (api_key_principal apiKey))]) ;;
        next.

(** ** Basic authentication (middleware/basic-auth.ts) *)

Definition hashPassword (password : string) : string :=
  SHA256.sha256_hex password.

(** [\s] on the characters of a header value. *)
Definition is_space (a : ascii) : bool :=
  bool_decide (nat_of_ascii a ∈ [9; 10; 11; 12; 13; 32; 160]).

(** What [.] does not match. *)
Definition is_line_terminator (a : ascii) : bool :=
  bool_decide (nat_of_ascii a ∈ [10; 13]).

Fixpoint has_line_terminator (s : string) : bool :=
  match s with
  | EmptyString => false
  | String a s' => is_line_terminator a || has_line_terminator s'
  end.

(** [(.+)$]: the whole rest, when it is not empty and on one line. *)
Definition dot_plus_end (s : string) : option string :=
  match s with
  | EmptyString => None
  | _ => if has_line_terminator s then None else Some s
  end.

(** The rest of [\s+(.+)$] once one white-space character is consumed:
    [\s+] is greedy and gives characters back when [(.+)$] fails. *)
Fixpoint spaces_then_group (s : string) : option string :=
  match s with
  | EmptyString => None
  | String a s' =>
      if is_space a then
        match spaces_then_group s' with
        | Some g => Some g
        | None => dot_plus_end s
        end
      else dot_plus_end s
  end.

(** [authHeader.match(/^Basic\s+(.+)$/i)]: the group [match[1]]. *)
Definition match_basic (authHeader : string) : option string :=
  if String.eqb (toLowerCase (String.substring 0 5 authHeader)) "basic" then
    match substring_from 5 authHeader with
    | String a s' => if is_space a then spaces_then_group s' else None
    | EmptyString => None
    end
  else None.

(** [parseBasicAuth]; the decoding never throws, so the [catch] of the
    source is never entered. *)
Definition parseBasicAuth (authHeader : string) : option (string * string) :=
  match match_basic authHeader with
  | None => None
  | Some payload =>
      let decoded := Base64.decode payload in
      match indexOf ":" decoded with
      | None => None
      | Some colonIndex =>
          Some (String.substring 0 colonIndex decoded,
                substring_from (colonIndex + 1) decoded)
      end
  end.

Definition dquote : string := String (ascii_of_nat 34) EmptyString.

Definition basic_challenge (realm : string) : string :=
  "Basic realm=" +:+ dquote +:+ realm +:+ dquote.

(** [config.users] holds its own keys only. *)
Definition createBasicAuth (config : BasicAuthConfig) : AuthMiddleware :=
  let realm := or_else (realm config) "Magic MCP Server" in
  λ c next,
    let authHeader := req_header c "Authorization" in
    if negb (truthy authHeader) then
      logger warn "Basic auth failed: No Authorization header" (req_meta c) ;;
      c_header "WWW-Authenticate" (basic_challenge realm) ;;
      throw (AuthenticationError "Basic authentication required")
    else
      let credentials := parseBasicAuth (default "" authHeader) in
      match credentials with
      | None =>
          logger warn "Basic auth failed: Invalid Authorization header format"
                 (req_meta c) ;;
          c_header "WWW-Authenticate" (basic_challenge realm) ;;
          throw (AuthenticationError "Invalid Basic authentication format")
      | Some (username, password) =>
          let storedPasswordHash := users config !! username in
          if negb (truthy storedPasswordHash) then
            logger warn "Basic auth failed: Unknown user"
                   (req_meta c ++ [("username", MStr username)]) ;;
            c_header "WWW-Authenticate" (basic_challenge realm) ;;
            throw (AuthenticationError "Invalid username or password")
          else
            let passwordHash := hashPassword password in
            if negb (bool_decide (Some passwordHash = storedPasswordHash)) then
              logger warn "Basic auth failed: Invalid password"
                     (req_meta c ++ [("username", MStr username)]) ;;
              c_header "WWW-Authenticate" (basic_challenge realm) ;;
              throw (AuthenticationError "Invalid username or password")
            else
              let authContext := mkAuthContext basic (Some username) None in
              c_set_auth authContext ;;
              logger debug "Basic authentication successful"
                     (req_meta c ++ [("user", MStr username)]) ;;
              next
      end.

(** ** OIDC authentication (middleware/oidc-auth.ts) *)

(** What [response.json()] gives. *)
Inductive Body : Type :=
| Malformed                           (* not JSON: [json()] rejects *)
| JsonNull                            (* [null]: reading a property throws *)
| Json (jwks_uri : option string).    (* any other value, with its [jwks_uri] *)

(** How [fetch(url)] settles. *)
Inductive FetchResult : Type :=
| FetchRejected
| FetchResponse (ok : bool) (status : nat) (body : Body).

(** The libraries and the network under the OIDCAuth class. *)
Record Runtime : Type := mkRuntime {
  (** how [fetch(url)] settles *)
  fetch : string → FetchResult;
  (** whether [new URL(s)] returns *)
  url_parses : string → bool;
  (** [jwtVerify(token, jwks, { issuer, audience })]: the payload, or [None]
      when it rejects; [jwks] is the key set made by [createRemoteJWKSet] *)
  jwtVerify : string → string → string → option string → option JWTPayload;
}.

Definition BEARER_PREFIX : string := "Bearer ".

(** [new OIDCAuth(config)] *)
Definition OIDCAuth_new (rt : Runtime) (config : OIDCConfig) : M unit :=
  modify (set_jwksUri (jwksUri config)) ;;
  modify (set_jwks None) ;;
  if truthy (jwksUri config) then
    let uri := default "" (jwksUri config) in
    if url_parses rt uri then modify (set_jwks (Some uri))
    else throw (Error "Invalid URL")
  else mret tt.

Definition wellKnownUrl (config : OIDCConfig) : string :=
  issuer config +:+ "/.well-known/openid-configuration".

(** [discoverConfig] up to its [await fetch(wellKnownUrl)]: the request is
    sent; the result is the URL awaited. *)
Definition discoverConfig_start (config : OIDCConfig) : M string :=
  logger debug "Discovering OIDC configuration"
         [("wellKnownUrl", MStr (wellKnownUrl config))] ;;
  modify (add_outbound (wellKnownUrl config)) ;;
  mret (wellKnownUrl config).

(** The rest of the [try] block of [discoverConfig], once the fetch has
    settled. *)
Definition discoverConfig_settled (rt : Runtime) (r : FetchResult) : M unit :=
  match r with
  | FetchRejected => throw (Error "fetch failed")
  | FetchResponse ok status body =>
      if negb ok then
        throw (Error ("Failed to fetch OIDC configuration: " +:+ pretty status))
      else
        match body with
        | Malformed => throw (Error "Unexpected token in JSON")
        | JsonNull => throw (Error "Cannot read properties of null")
        | Json jwks_uri =>
            configured ← get oidc_jwksUri;
            if truthy jwks_uri && negb (truthy configured) then
              let uri := default "" jwks_uri in
              modify (set_jwksUri (Some uri)) ;;
              (if url_parses rt uri then modify (set_jwks (Some uri))
               else throw (Error "Invalid URL")) ;;
              logger info "OIDC JWKS URI discovered" [("jwksUri", MStr uri)]
            else mret tt
        end
  end.

(** The [catch] of [discoverConfig]. *)
Definition discoverConfig_catch (e : Thrown) : M unit :=
  logger error "Failed to discover OIDC configuration" [("error", MThrown e)] ;;
  throw (Error "Failed to initialize OIDC authentication").

(** [discoverConfig] from the moment its fetch has settled. *)
Definition discoverConfig_resume (rt : Runtime) (r : FetchResult) : M unit :=
  try_catch (discoverConfig_settled rt r) discoverConfig_catch.

Definition discoverConfig (rt : Runtime) (config : OIDCConfig) : M unit :=
  try_catch (url ← discoverConfig_start config;
             discoverConfig_settled rt (fetch rt url))
            discoverConfig_catch.

Definition extractBearerToken (authHeader : option string) : option string :=
  if negb (truthy authHeader)
     || negb (String.prefix BEARER_PREFIX (default "" authHeader))
  then None
  else Some (substring_from (String.length BEARER_PREFIX)
                            (default "" authHeader)).

(** The [try] block of [verifyToken], with the key set at hand. *)
Definition verifyToken_verify (rt : Runtime) (config : OIDCConfig)
    (token jwks : string) : M JWTPayload :=
  match jwtVerify rt token jwks (issuer config) (audience config) with
  | Some payload => mret payload
  | None =>
      logger warn "JWT verification failed" [] ;;
      throw (AuthenticationError "Invalid or expired token")
  end.

(** [verifyToken] from the return of [discoverConfig] on. *)
Definition verifyToken_discovered (rt : Runtime) (config : OIDCConfig)
    (token : string) : M JWTPayload :=
  jwks ← get oidc_jwks;
  match jwks with
  | Some jwks => verifyToken_verify rt config token jwks
  | None => throw (Error "JWKS not configured")
  end.

Definition verifyToken (rt : Runtime) (config : OIDCConfig) (token : string)
    : M JWTPayload :=
  jwks ← get oidc_jwks;
  match jwks with
  | Some jwks => verifyToken_verify rt config token jwks
  | None =>
      discoverConfig rt config ;;
      verifyToken_discovered rt config token
  end.

(** [payload.sub || payload.email || payload.preferred_username || 'unknown'] *)
Definition token_user (payload : JWTPayload) : string :=
  or_else (payload !! "sub")
    (or_else (payload !! "email")
       (or_else (payload !! "preferred_username") "unknown")).

Definition OIDCAuth_middleware (rt : Runtime) (config : OIDCConfig)
    : AuthMiddleware :=
  λ c next,
    let authHeader := req_header c "Authorization" in
    let token := extractBearerToken authHeader in
    if negb (truthy token) then
      logger warn "OIDC auth failed: No bearer token provided" (req_meta c) ;;
      throw (AuthenticationError "Bearer token required")
    else
      try_catch
        (payload ← verifyToken rt config (default "" token);
         let user := token_user payload in
         let authContext := mkAuthContext oidc (Some user) (Some payload) in
         c_set_auth authContext ;;
         logger debug "OIDC authentication successful"
                (req_meta c ++ [("user", MStr user);
                                ("issuer", MStr (default "" (payload !! "iss")))]) ;;
         next)
        (λ e,
           if instanceof_AuthenticationError e then throw e
           else
             logger error "OIDC authentication error" [("error", MThrown e)] ;;
             throw (AuthenticationError "Authentication failed")).

(** [createOIDCAuth]: the object is made, its middleware returned. *)
Definition createOIDCAuth (rt : Runtime) (config : OIDCConfig)
    : M AuthMiddleware :=
  OIDCAuth_new rt config ;;
  mret (OIDCAuth_middleware rt config).

(** ** Configuration (types/index.ts, utils/config.ts) *)

Record AuthConfig : Type := mkAuthConfig {
  enabled : bool;
  (** the names listed in AUTH_METHODS, as they are given *)
  methods : list string;
  auth_apiKeys : option (list string);
  auth_oidc : option OIDCConfig;
  auth_basicAuth : option BasicAuthConfig;
}.

Record UiProviderConfig : Type := mkUiProviderConfig {
  ui_type : string;
  (** the API key of each provider, when it is configured *)
  ui_magic : option string;
  ui_v0 : option string;
}.

Record Config : Type := mkConfig {
  (** [None] is NaN, which [parseInt] gives on a port that is no number *)
  port : option Z;
  uiProvider : UiProviderConfig;
  auth : AuthConfig;
}.

Definition newline : string := String (ascii_of_nat 10) EmptyString.

Definition push_if (cond : bool) (msg : string) (errors : list string)
    : list string :=
  if cond then errors ++ [msg] else errors.

Definition nonempty_keys (keys : option (list string)) : bool :=
  match keys with
  | Some ks => Nat.ltb 0 (length ks)
  | None => false
  end.

(** The [errors] array of [validateConfig] when its checks are done. *)
Definition validation_errors (config : Config) : list string :=
  let errors := [] in
  let errors :=
    push_if (match port config with
             | Some p => (p <? 1)%Z || (65535 <? p)%Z
             | None => false
             end)
            "Port must be between 1 and 65535" errors in
  let errors :=
    push_if (String.eqb (ui_type (uiProvider config)) "magic"
             && negb (bool_decide (is_Some (ui_magic (uiProvider config)))))
            "Magic UI provider selected but not configured (missing API key)"
            errors in
  let errors :=
    push_if (String.eqb (ui_type (uiProvider config)) "v0"
             && negb (bool_decide (is_Some (ui_v0 (uiProvider config)))))
            "v0 provider selected but not configured (missing V0_API_KEY)"
            errors in
  if enabled (auth config) then
    let errors :=
      push_if (Nat.eqb (length (methods (auth config))) 0)
              "At least one authentication method must be enabled" errors in
    let errors :=
      push_if (includes "api-key" (methods (auth config))
               && negb (nonempty_keys (auth_apiKeys (auth config))))
              "API key authentication enabled but no API keys configured"
              errors in
    let errors :=
      push_if (includes "oidc" (methods (auth config))
               && negb (bool_decide (is_Some (auth_oidc (auth config)))))
              "OIDC authentication enabled but not configured" errors in
    let errors :=
      push_if (includes "basic" (methods (auth config))
               && negb (bool_decide (is_Some (auth_basicAuth (auth config)))))
              "Basic authentication enabled but not configured" errors in
    errors
  else errors.

Definition validateConfig (config : Config) : Outcome unit :=
  let errors := validation_errors config in
  if Nat.ltb 0 (length errors) then
    Threw (Error ("Configuration validation failed:" +:+ newline
                  +:+ join newline errors))
  else Returned tt.

(** ** The orchestrator (middleware/auth.ts) *)

(** The [for] loop of the composed middleware and what follows it;
    [errors] is the array of the errors collected so far. *)
Fixpoint compose_loop (config : Config) (middlewares : list AuthMiddleware)
    (errors : list Thrown) (c : Request) (next : M unit) : M unit :=
  match middlewares with
  | middleware :: rest =>
      try_catch
        (middleware c noop ;;
         next)
        (λ e,
           let errors :=
             if instanceof_Error e then (errors ++ [e])%list else errors in
           compose_loop config rest errors c next)
  | [] =>
      logger warn "All authentication methods failed"
             (req_meta c ++
              [("attemptedMethods", MList (methods (auth config)));
               ("errors", MList (map error_message errors))]) ;;
      throw (AuthenticationError
               ("Authentication failed. Supported methods: "
                +:+ join ", " (methods (auth config))))
  end.

Definition composeAuthMiddleware (config : Config)
    (middlewares : list AuthMiddleware) : AuthMiddleware :=
  λ c next, compose_loop config middlewares [] c next.

(** The [middlewares] array of [createAuthMiddleware] once the three
    methods have been looked at. *)
Definition auth_middlewares (rt : Runtime) (config : Config)
    : M (list AuthMiddleware) :=
  let a := auth config in
  let middlewares : list AuthMiddleware := [] in
  middlewares ←
    match auth_apiKeys a with
    | Some keys =>
        if includes "api-key" (methods a) && Nat.ltb 0 (length keys) then
          logger info "API key authentication enabled"
                 [("keyCount", MNat (length keys))] ;;
          mret (middlewares
                ++ [createApiKeyAuth (mkApiKeyAuthConfig keys None None)])%list
        else mret middlewares
    | None => mret middlewares
    end;
  middlewares ←
    match auth_oidc a with
    | Some o =>
        if includes "oidc" (methods a) then
          logger info "OIDC authentication enabled"
                 [("issuer", MStr (issuer o)); ("clientId", MStr (clientId o))] ;;
          m ← createOIDCAuth rt o;
          mret (middlewares ++ [m])%list
        else mret middlewares
    | None => mret middlewares
    end;
  match auth_basicAuth a with
  | Some b =>
      if includes "basic" (methods a) then
        logger info "Basic authentication enabled"
               [("userCount", MNat (size (users b)))] ;;
        mret (middlewares
              ++ [createBasicAuth (mkBasicAuthConfig (users b) None)])%list
      else mret middlewares
  | None => mret middlewares
  end.

Definition createAuthMiddleware (rt : Runtime) (config : Config)
    : M (option AuthMiddleware) :=
  if negb (enabled (auth config)) then
    logger info "Authentication disabled" [] ;;
    mret None
  else
    middlewares ← auth_middlewares rt config;
    if Nat.eqb (length middlewares) 0 then
      logger warn "Authentication enabled but no methods configured" [] ;;
      mret None
    else
      logger info "Authentication configured"
             [("methods", MList (methods (auth config)))] ;;
      mret (Some (composeAuthMiddleware config middlewares)).

(** [getAuthContext] *)
Definition getAuthContext : M (option AuthContext) := get ctx_auth.

(** ** The application (server/http-server.ts) *)

(** The middleware [createApp] puts on ['/api/*'], if any. *)
Record App : Type := mkApp { api_auth : option AuthMiddleware }.

Definition createApp (rt : Runtime) (config : Config) : M App :=
  authMiddleware ← createAuthMiddleware rt config;
  mret (mkApp authMiddleware).

(** The paths ['/api/*'] covers. *)
Definition under_api (path : string) : bool :=
  String.eqb path "/api" || String.prefix "/api/" path.

(** A request on its way to the handler of its route. *)
Definition app_dispatch (app : App) (c : Request) (handler : M unit) : M unit :=
  match api_auth app with
  | Some authMiddleware =>
      if under_api (req_path c) then authMiddleware c handler else handler
  | None => handler
  end.

(** Modelled from the spec: utils/errors.ts is not among the sources; of its
    [AppError] classes the middleware throws [AuthenticationError], which
    the surrounding layer renders as HTTP 401. *)
Definition statusCode (e : Thrown) : option nat :=
  match e with
  | AuthenticationError _ => Some 401
  | _ => None
  end.

(** [app.onError]: the status and the [error] field of the response. *)
Definition onError (e : Thrown) : nat * string :=
  match statusCode e with
  | Some code => (code, error_message e)
  | None => (500, "Internal server error")
  end.

(** ** Several requests at once *)

(** JavaScript runs a request until it awaits the network, and then turns
    to another.  The calls of [verifyToken] of the requests in flight are
    cut at [await fetch(wellKnownUrl)]: an arriving call runs up to there,
    and runs on when its own fetch has settled. *)
Module EventLoop.

(** A call of [verifyToken(token)] waiting for the fetch of [url]. *)
Record Waiting : Type := mkWaiting { w_token : string; w_url : string }.

Record Loop : Type := mkLoop {
  world : World;
  waiting : list Waiting;
  (** the calls that have settled, oldest first *)
  settled : list (string * Outcome JWTPayload);
}.

(** [verifyToken] up to its first await of the network: the key set when
    [this.jwks] is there, else the URL whose fetch it awaits. *)
Definition verifyToken_begin (config : OIDCConfig) : M (string + string) :=
  jwks ← get oidc_jwks;
  match jwks with
  | Some jwks => mret (inl jwks)
  | None => url ← discoverConfig_start config; mret (inr url)
  end.

(** [verifyToken] from the moment the fetch has settled. *)
Definition verifyToken_resume (rt : Runtime) (config : OIDCConfig)
    (token : string) (r : FetchResult) : M JWTPayload :=
  discoverConfig_resume rt r ;;
  verifyToken_discovered rt config token.

Inductive Event : Type :=
| Arrive (token : string)     (* a request calls [verifyToken(token)] *)
| Settle (i : nat).           (* the fetch of the i-th waiting call settles *)

Definition step (rt : Runtime) (config : OIDCConfig) (l : Loop) (e : Event)
    : Loop :=
  match e with
  | Arrive token =>
      match verifyToken_begin config (world l) with
      | (Returned (inl jwks), w) =>
          let (r, w') := verifyToken_verify rt config token jwks w in
          mkLoop w' (waiting l) (settled l ++ [(token, r)])
      | (Returned (inr url), w) =>
          mkLoop w (waiting l ++ [mkWaiting token url]) (settled l)
      | (Threw e, w) =>
          mkLoop w (waiting l) (settled l ++ [(token, Threw e)])
      end
  | Settle i =>
      match waiting l !! i with
      | Some call =>
          let (r, w') :=
            verifyToken_resume rt config (w_token call)
                               (fetch rt (w_url call)) (world l) in
          mkLoop w' (delete i (waiting l)) (settled l ++ [(w_token call, r)])
      | None => l
      end
  end.

Definition run (rt : Runtime) (config : OIDCConfig) (events : list Event)
    (l : Loop) : Loop :=
  fold_left (step rt config) events l.

(** How many times the discovery document has been fetched. *)
Definition discovery_fetches (config : OIDCConfig) (l : Loop) : nat :=
  length (filter (λ url, url = wellKnownUrl config) (outbound (world l))).

End EventLoop.

(** ** Notions the statements below are phrased in *)

(** The verifier [createAuthMiddleware] pushes for a method, if it pushes
    one. *)
Definition verifier (rt : Runtime) (config : Config) (m : AuthMethod)
    : option AuthMiddleware :=
  let a := auth config in
  match m with
  | api_key =>
      keys ← auth_apiKeys a;
      if includes "api-key" (methods a) && Nat.ltb 0 (length keys)
      then Some (createApiKeyAuth (mkApiKeyAuthConfig keys None None))
      else None
  | oidc =>
      o ← auth_oidc a;
      if includes "oidc" (methods a) then Some (OIDCAuth_middleware rt o) else None
  | basic =>
      b ← auth_basicAuth a;
      if includes "basic" (methods a)
      then Some (createBasicAuth (mkBasicAuthConfig (users b) None))
      else None
  end.

(** The methods in the order in which [createAuthMiddleware] looks at
    them. *)
Definition verifier_order : list AuthMethod := [api_key; oidc; basic].

(** The verifiers of a configuration, each with its method, in the order
    of the [middlewares] array. *)
Definition enabled_verifiers (rt : Runtime) (config : Config)
    : list (AuthMethod * AuthMiddleware) :=
  omap (λ m, (λ v, (m, v)) <$> verifier rt config m) verifier_order.

(** A configuration with another list of method names. *)
Definition with_methods (names : list string) (config : Config) : Config :=
  let a := auth config in
  mkConfig (port config) (uiProvider config)
           (mkAuthConfig (enabled a) names (auth_apiKeys a) (auth_oidc a)
                         (auth_basicAuth a)).

(** The verifiers [ms] tried in turn on [c], each of them throwing: the
    errors the orchestrator has collected after them, and the world then. *)
Fixpoint rejections (ms : list AuthMiddleware) (c : Request) (w : World)
    : option (list Thrown * World) :=
  match ms with
  | [] => Some ([], w)
  | m :: rest =>
      match m c noop w with
      | (Threw e, w') =>
          match rejections rest c w' with
          | Some (es, w'') =>
              Some (if instanceof_Error e then e :: es else es, w'')
          | None => None
          end
      | (Returned _, _) => None
      end
  end.

(** What a verifier says when the request has no credential of its kind. *)
Definition missing_credential_message (m : AuthMethod) : string :=
  match m with
  | api_key => "API key is required. Provide it via header or query parameter."
  | oidc => "Bearer token required"
  | basic => "Basic authentication required"
  end.

(** The request has no credential of the kind the verifier of [m] looks
    for: no API key in the header or in the query, no Bearer token, no
    Authorization header. *)
Definition lacks_credential (m : AuthMethod) (c : Request) : Prop :=
  match m with
  | api_key =>
      truthy (req_header c API_KEY_HEADER) = false ∧
      truthy (req_query c API_KEY_QUERY) = false
  | oidc => truthy (extractBearerToken (req_header c "Authorization")) = false
  | basic => truthy (req_header c "Authorization") = false
  end.

(** The log entry the orchestrator writes before its aggregated failure. *)
Definition all_failed_entry (config : Config) (c : Request)
    (messages : list string) : LogEntry :=
  mkLog warn "All authentication methods failed"
        (req_meta c ++ [("attemptedMethods", MList (methods (auth config)));
                        ("errors", MList messages)]).

Definition all_failed_error (config : Config) : Thrown :=
  AuthenticationError ("Authentication failed. Supported methods: "
                       +:+ join ", " (methods (auth config))).

(** Discovery fails: the fetch is rejected, or answered with a status that
    is not ok, or with a body that is no JSON, is [null], or has no
    [jwks_uri] that is a URL. *)
Definition discovery_fails (rt : Runtime) (config : OIDCConfig) : bool :=
  match fetch rt (wellKnownUrl config) with
  | FetchRejected => true
  | FetchResponse ok _ body =>
      negb ok ||
      match body with
      | Malformed | JsonNull => true
      | Json jwks_uri =>
          negb (truthy jwks_uri) || negb (url_parses rt (default "" jwks_uri))
      end
  end.

(** The world after the API key middleware has accepted the key [k]. *)
Definition api_key_success (c : Request) (k : string) (w : World) : World :=
  add_log (mkLog debug "API key authentication successful"
                 (req_meta c ++ [("user", MStr (api_key_principal k))]))
          (set_auth (mkAuthContext api_key (Some (api_key_principal k)) None) w).

(** The world after the Basic middleware has refused the credentials of
    [username], for the [reason] it logs. *)
Definition basic_rejected (config : BasicAuthConfig) (c : Request)
    (reason : string) (username : string) (w : World) : World :=
  set_header "WWW-Authenticate"
             (basic_challenge (or_else (realm config) "Magic MCP Server"))
             (add_log (mkLog warn reason
                             (req_meta c ++ [("username", MStr username)])) w).

(** The names [createAuthMiddleware] looks for in [config.auth.methods]. *)
Definition known_method (name : string) : bool :=
  includes name ["api-key"; "oidc"; "basic"].

(** The principal of [k] belongs to no other key: [k] can be read off it. *)
Definition principal_determines (k : string) : Prop :=
  ∀ k', api_key_principal k' = api_key_principal k → k' = k.

(** ** Scenarios *)

Module Scenario.

Definition world0 : World := mkWorld None ∅ [] None None [] 0.

Definition payload_alice : JWTPayload :=
  <["sub" := "alice"]> (<["iss" := "https://idp.example"]> ∅).

Definition discovery_url : string :=
  "https://idp.example/.well-known/openid-configuration".

(** An identity provider that answers, and accepts the token good.jwt. *)
Definition rt : Runtime :=
  mkRuntime
    (λ url, if String.eqb url discovery_url
            then FetchResponse true 200 (Json (Some "https://idp.example/jwks"))
            else FetchRejected)
    (λ s, String.prefix "https://" s)
    (λ token jwks iss aud,
       if String.eqb token "good.jwt"
          && String.eqb jwks "https://idp.example/jwks"
          && String.eqb iss "https://idp.example"
       then Some payload_alice else None).

(** The same, unreachable. *)
Definition rt_down : Runtime :=
  mkRuntime (λ _, FetchRejected) (url_parses rt) (jwtVerify rt).

Definition oidc_config : OIDCConfig :=
  mkOIDCConfig "https://idp.example" "client" None None None.

Definition ui : UiProviderConfig :=
  mkUiProviderConfig "magic" (Some "magic-key") None.

Definition basic_store (name password : string) : BasicAuthConfig :=
  mkBasicAuthConfig (<[name := hashPassword password]> ∅) None.

(** AUTH_METHODS = [names], one API key k1, the provider above, and the
    user admin with the password secret. *)
Definition config (names : list string) : Config :=
  mkConfig (Some 3000%Z) ui
    (mkAuthConfig true names (Some ["k1"]) (Some oidc_config)
                  (Some (basic_store "admin" "secret"))).

Definition request (headers queries : list (string * string)) : Request :=
  mkRequest "/api/create-ui" "POST" (list_to_map headers) (list_to_map queries).

(** A route handler that answers, and one that throws. *)
Definition handler_ok : M unit := modify add_dispatch.
Definition handler_throws : M unit :=
  modify add_dispatch ;; throw (Error "handler failed").

(** The server is set up with [config] and then receives [c]. *)
Definition serve (rt : Runtime) (config : Config) (c : Request)
    (handler : M unit) : M unit :=
  app ← createApp rt config;
  app_dispatch app c handler.

Definition recorded_method (r : Outcome unit * World) : option AuthMethod :=
  method <$> ctx_auth r.2.

End Scenario.
(** ** Notions for the further properties *)

Definition is_lower_hex (a : ascii) : bool :=
  bool_decide (a ∈ String.list_ascii_of_string "0123456789abcdef").

(** The shape of what [hashPassword] returns. *)
Definition is_digest (s : string) : bool :=
  Nat.eqb (String.length s) 64
  && forallb is_lower_hex (String.list_ascii_of_string s).

(** The OIDC object has taken a jwks_uri from the discovery document and has
    no key set for it. *)
Definition uri_without_key_set (w : World) : Prop :=
  oidc_jwks w = None ∧ truthy (oidc_jwksUri w) = true.

(** The fetch of the discovery document gave nothing to use: it was
    rejected, answered with an error status, or its body is no JSON, is
    [null], or names no jwks_uri. *)
Definition nothing_discovered (r : FetchResult) : bool :=
  match r with
  | FetchRejected => true
  | FetchResponse ok _ body =>
      negb ok ||
      match body with
      | Malformed | JsonNull => true
      | Json jwks_uri => negb (truthy jwks_uri)
      end
  end.

(** The worlds after a series of requests to the OIDC middleware, each
    with the runtime of its moment. *)
Definition oidc_serve (config : OIDCConfig) (w : World)
    (request : Runtime * Request) : World :=
  (OIDCAuth_middleware request.1 config request.2 noop w).2.


(** The method is configured: what [validateConfig] asks of a method that
    is named. *)
Definition method_configured (config : Config) (m : AuthMethod) : bool :=
  match m with
  | api_key => nonempty_keys (auth_apiKeys (auth config))
  | oidc => bool_decide (is_Some (auth_oidc (auth config)))
  | basic => bool_decide (is_Some (auth_basicAuth (auth config)))
  end.

(** A verifier that, when it refuses, leaves the authentication context and
    the handler alone. *)
Definition refuses_cleanly (v : AuthMiddleware) : Prop :=
  ∀ c w e w', v c noop w = (Threw e, w') →
              ctx_auth w' = ctx_auth w ∧ dispatched w' = dispatched w.

(** ** Loading the configuration (utils/config.ts) *)

(** The strings of the environment and of the command line are given by
    their code units, as header values are, and the code units are taken to
    be below 256: a text with other characters is outside the model.  The
    white space that [trim] and [parseInt] skip is then that of [\s],
    [is_space]. *)

(** [s.trimStart()] *)
Fixpoint trimStart (s : string) : string :=
  match s with
  | String a s' => if is_space a then trimStart s' else s
  | EmptyString => EmptyString
  end.

(** [s.trimEnd()] *)
Fixpoint trimEnd (s : string) : string :=
  match s with
  | String a s' =>
      match trimEnd s' with
      | EmptyString => if is_space a then EmptyString else String a EmptyString
      | t => String a t
      end
  | EmptyString => EmptyString
  end.

(** [s.trim()] *)
Definition trim (s : string) : string := trimEnd (trimStart s).

(** [s.split(sep)] for a separator of one character. *)
Fixpoint split (sep : ascii) (s : string) : list string :=
  match s with
  | String a s' =>
      if Ascii.eqb a sep then EmptyString :: split sep s'
      else match split sep s' with
           | piece :: pieces => String a piece :: pieces
           | [] => [String a EmptyString]
           end
  | EmptyString => [EmptyString]
  end.

(** [s.replaceAll(ch, '')] *)
Fixpoint remove_all (ch : ascii) (s : string) : string :=
  match s with
  | String a s' =>
      if Ascii.eqb a ch then remove_all ch s' else String a (remove_all ch s')
  | EmptyString => EmptyString
  end.

(** [a || b] where [b] may be undefined. *)
Definition or_undefined (a b : option string) : option string :=
  if truthy a then a else b.

Definition is_digit (a : ascii) : bool :=
  Nat.leb 48 (nat_of_ascii a) && Nat.leb (nat_of_ascii a) 57.

(** The digits at the start of [s], read in base 10 after [acc]; [None]
    when there is none. *)
Fixpoint digits (s : string) (acc : option Z) : option Z :=
  match s with
  | String a s' =>
      if is_digit a then
        digits s' (Some (10 * default 0%Z acc + Z.of_nat (nat_of_ascii a - 48))%Z)
      else acc
  | EmptyString => acc
  end.

(** [parseInt(s, 10)]: white space is skipped, a sign is read, then the
    digits as far as they go; [None] is NaN.  The integer is given as it is
    written: as a JavaScript number it is rounded to a double, which does
    not change how it compares with 1 and 65535. *)
Definition parseInt (s : string) : option Z :=
  match trimStart s with
  | String "-" s' => Z.opp <$> digits s' None
  | String "+" s' => digits s' None
  | s' => digits s' None
  end.

(** [parseList] *)
Definition parseList (value : option string) : list string :=
  if negb (truthy value) then []
  else List.filter (λ s, truthy (Some s))
                   (map trim (split "," (default "" value))).

(** The process the configuration is read from. *)
Record Process : Type := mkProcess {
  argv : list string;
  (** [process.env.NAME] *)
  env : string → option string;
  (** [JSON.parse(text)] when the text is an object of strings, as
      BASIC_AUTH_USERS is meant to be; [None] when it throws *)
  json_parse : string → option (gmap string string);
}.

(** [parseJSON(value, fallback)] *)
Definition parseJSON (p : Process) (value : option string)
    (fallback : gmap string string) : gmap string string :=
  if negb (truthy value) then fallback
  else match json_parse p (default "" value) with
       | Some parsed => parsed
       | None => fallback
       end.

Definition is_key_char (a : ascii) : bool :=
  is_upper a || Ascii.eqb a "_".

(** [([A-Z_]+)] read greedily at the start of [s]: the run and the rest. *)
Fixpoint key_run (s : string) : string * string :=
  match s with
  | String a s' =>
      if is_key_char a then
        let (key, rest) := key_run s' in (String a key, rest)
      else (EmptyString, s)
  | EmptyString => (EmptyString, EmptyString)
  end.

(** [arg.match(/^prefix([A-Z_]+)[seps](.+)$/)]: the groups [key] and
    [value].  No separator is in [A-Z_], so the greedy run is the only
    candidate for the key. *)
Definition match_key_value (prefix : string) (seps : list ascii)
    (arg : string) : option (string * string) :=
  if String.prefix prefix arg then
    match key_run (substring_from (String.length prefix) arg) with
    | (String k key, String a value) =>
        if bool_decide (a ∈ seps) then
          (λ v, (String k key, v)) <$> dot_plus_end value
        else None
    | _ => None
    end
  else None.

Definition keyValuePatterns : list (string → option (string * string)) :=
  [ match_key_value "" ["="%char];           (* API_KEY=value *)
    match_key_value "--" ["="%char];         (* --API_KEY=value *)
    match_key_value "/" [":"%char];          (* /API_KEY:value *)
    match_key_value "-" [" "%char; "="%char] (* -API_KEY value, -API_KEY=value *)
  ].

Definition unquote (value : string) : string :=
  remove_all "'" (remove_all (ascii_of_nat 34) value).

(** The [for] loop over the patterns for one argument; [apiKey] is
    [config.apiKey] so far. *)
Fixpoint try_patterns (patterns : list (string → option (string * string)))
    (arg : string) (apiKey : option string) : option string :=
  match patterns with
  | pattern :: rest =>
      match pattern arg with
      | Some (key, value) =>
          if String.eqb key "API_KEY" then Some (unquote value)
          else try_patterns rest arg apiKey
      | None => try_patterns rest arg apiKey
      end
  | [] => apiKey
  end.

(** [parseArguments().apiKey] *)
Definition parseArguments (p : Process) : option string :=
  fold_left (λ apiKey arg, try_patterns keyValuePatterns arg apiKey)
            (argv p) None.

(** [loadConfig], the fields of it that [validateConfig] and the
    middleware read. *)
Definition loadConfig (p : Process) : Config :=
  let cliArgs := parseArguments p in
  let providerType := or_else (env p "UI_PROVIDER") "magic" in
  let magicApiKey :=
    or_undefined (or_undefined cliArgs (env p "TWENTY_FIRST_API_KEY"))
                 (env p "API_KEY") in
  let v0ApiKey := env p "V0_API_KEY" in
  mkConfig
    (parseInt (or_else (env p "PORT") "3000"))
    (mkUiProviderConfig providerType
       (if truthy magicApiKey then magicApiKey else None)
       (if truthy v0ApiKey then v0ApiKey else None))
    (mkAuthConfig
       (negb (bool_decide (env p "AUTH_ENABLED" = Some "false")))
       (parseList (Some (or_else (env p "AUTH_METHODS") "api-key")))
       (Some (parseList (env p "AUTH_API_KEYS")))
       (if truthy (env p "OIDC_ISSUER") then
          Some (mkOIDCConfig (default "" (env p "OIDC_ISSUER"))
                             (or_else (env p "OIDC_CLIENT_ID") "")
                             (env p "OIDC_CLIENT_SECRET")
                             (env p "OIDC_AUDIENCE")
                             (env p "OIDC_JWKS_URI"))
        else None)
       (if truthy (env p "BASIC_AUTH_USERS") then
          Some (mkBasicAuthConfig
                  (parseJSON p (env p "BASIC_AUTH_USERS") ∅) None)
        else None)).

(** ** The outcome a call of verifyToken is due *)

(** What [verifyToken(token)] gives with the key set [jwks] at hand. *)
Definition verified (rt : Runtime) (config : OIDCConfig) (jwks token : string)
    : Outcome JWTPayload :=
  match jwtVerify rt token jwks (issuer config) (audience config) with
  | Some payload => Returned payload
  | None => Threw (AuthenticationError "Invalid or expired token")
  end.

(** ** The spellings of the API key on the command line *)

(** The arguments that give [value] as the API key. *)
Definition api_key_spellings (value : string) : list string :=
  [ "API_KEY=" +:+ value; "--API_KEY=" +:+ value; "/API_KEY:" +:+ value;
    "-API_KEY " +:+ value; "-API_KEY=" +:+ value ].

(** The OIDC object is as it was made, or has the key set of the discovered
    [uri]; the calls that wait, wait for the discovery document. *)
Definition discovering (config : OIDCConfig) (uri : string)
    (l : EventLoop.Loop) : Prop :=
  ((oidc_jwks (EventLoop.world l) = None ∧
    truthy (oidc_jwksUri (EventLoop.world l)) = false) ∨
   (oidc_jwks (EventLoop.world l) = Some uri ∧
    truthy (oidc_jwksUri (EventLoop.world l)) = true)) ∧
  Forall (λ call, EventLoop.w_url call = wellKnownUrl config)
         (EventLoop.waiting l).

(** * Properties *)

Ltac Zify.zify_post_hook ::= Z.to_euclidean_division_equations.

(** Unfolding the monad. *)
Ltac run :=
  unfold mbind, M_bind, mret, M_ret, throw, logger, c_header, c_set_auth,
    modify, get, try_catch, noop in *; simpl in *.

Ltac step :=
  cbv [mbind M_bind mret M_ret throw logger modify get try_catch noop].

Ltac world :=
  cbn [oidc_jwks oidc_jwksUri ctx_auth ctx_headers dispatched outbound logs
       add_outbound add_log set_jwksUri set_jwks set_auth set_header
       add_dispatch].

Ltac step_oidc :=
  cbv [mbind M_bind mret M_ret throw logger modify get try_catch noop
       discoverConfig discoverConfig_start discoverConfig_settled
       discoverConfig_catch discoverConfig_resume verifyToken
       verifyToken_discovered].

Ltac case_if :=
  match goal with |- context [if ?b then _ else _] => destruct b end.

(** ** Strings *)

Lemma eqb_empty_false (s : string) : s ≠ "" → String.eqb s "" = false.
Proof. intros H. apply String.eqb_neq. exact H. Qed.

Lemma truthy_Some (s : string) : s ≠ "" → truthy (Some s) = true.
Proof.
  intros H. unfold truthy. rewrite eqb_empty_false; [reflexivity | exact H].
Qed.

Lemma truthy_false (v : option string) :
  truthy v = false ↔ v = None ∨ v = Some "".
Proof.
  destruct v as [s|]; simpl.
  - rewrite negb_false_iff, String.eqb_eq. split.
    + intros ->. by right.
    + intros [H|H]; [discriminate | by injection H].
  - split; [by left | done].
Qed.

Lemma substring_all (s : string) : String.substring 0 (String.length s) s = s.
Proof. induction s as [|a s IH]; simpl; [done | by rewrite IH]. Qed.

Lemma substring_prefix (u v : string) :
  String.substring 0 (String.length u) (u +:+ v) = u.
Proof.
  induction u as [|a u IH]; simpl.
  - by destruct v.
  - by rewrite IH.
Qed.

Lemma length_append (u v : string) :
  String.length (u +:+ v) = String.length u + String.length v.
Proof. induction u as [|a u IH]; simpl; [done | by rewrite IH]. Qed.

Lemma substring_skip (u v : string) (n : nat) :
  String.substring (String.length u) n (u +:+ v) = String.substring 0 n v.
Proof. induction u as [|a u IH]; simpl; [done | by rewrite IH]. Qed.

Lemma substring_from_suffix (u p : string) (ch : ascii) :
  substring_from (String.length u + 1) (u +:+ String ch p) = p.
Proof.
  unfold substring_from. rewrite length_append. simpl.
  replace (String.length u + S (String.length p) - (String.length u + 1))
    with (String.length p) by lia.
  induction u as [|a u IH]; simpl; [apply substring_all | apply IH].
Qed.

Lemma indexOf_first (ch : ascii) (u p : string) :
  indexOf ch u = None →
  indexOf ch (u +:+ String ch p) = Some (String.length u).
Proof.
  induction u as [|a u IH]; simpl.
  - intros _. by rewrite Ascii.eqb_refl.
  - destruct (Ascii.eqb a ch); [done |].
    destruct (indexOf ch u); [done |]. intros _. by rewrite IH.
Qed.

(** ** The codecs *)

Lemma below_64 (P : N → bool) :
  forallb P (map N.of_nat (seq 0 64)) = true → ∀ v, (v < 64)%N → P v = true.
Proof.
  intros H v Hv. rewrite forallb_forall in H. apply H.
  apply in_map_iff. exists (N.to_nat v). split; [lia |].
  apply in_seq. lia.
Qed.

Lemma N_of_ascii_below (a : ascii) : (N_of_ascii a < 256)%N.
Proof. apply N_ascii_bounded. Qed.

Module Base64Facts.
Import Base64.
Local Open Scope N_scope.

Lemma value_of_char_of v : v < 64 → value_of (char_of v) = Some v.
Proof.
  intros Hv.
  assert (bool_decide (value_of (char_of v) = Some v) = true) as H.
  { revert v Hv. apply below_64. vm_compute. reflexivity. }
  by apply bool_decide_eq_true in H.
Qed.

Lemma char_of_not_pad v : v < 64 → Ascii.eqb (char_of v) "=" = false.
Proof.
  intros Hv. apply negb_true_iff. revert v Hv.
  apply (below_64 (λ v, negb (Ascii.eqb (char_of v) "="))).
  vm_compute. reflexivity.
Qed.

(** The characters of the alphabet are no white space and end no line. *)
Lemma char_of_plain v :
  v < 64 → is_space (char_of v) = false ∧ is_line_terminator (char_of v) = false.
Proof.
  intros Hv. apply orb_false_iff, negb_true_iff. revert v Hv.
  apply (below_64 (λ v, negb (is_space (char_of v)
                               || is_line_terminator (char_of v)))).
  vm_compute. reflexivity.
Qed.

Lemma sextets_char v s :
  v < 64 → sextets (String (char_of v) s) = v :: sextets s.
Proof.
  intros Hv. simpl. by rewrite char_of_not_pad, value_of_char_of.
Qed.

Lemma byte_back (a : ascii) (n : N) : n = N_of_ascii a → ascii_of_N n = a.
Proof. intros ->. apply ascii_N_embedding. Qed.

(** Decoding what was encoded gives the bytes back. *)
Lemma decode_encode (s : string) : decode (encode s) = s.
Proof.
  unfold decode.
  assert (∀ n s, (String.length s ≤ n)%nat → pack (sextets (encode s)) = s) as H;
    [| by apply (H (String.length s))].
  clear s. induction n as [|n IH]; intros s Hn.
  { destruct s; [done | simpl in Hn; lia]. }
  destruct s as [|a [|b [|c rest]]]; [done | | |].
  - pose proof (N_of_ascii_below a).
    cbn [encode]. rewrite !sextets_char by lia. cbn [sextets Ascii.eqb Bool.eqb pack].
    f_equal. apply byte_back. lia.
  - pose proof (N_of_ascii_below a). pose proof (N_of_ascii_below b).
    cbn [encode]. rewrite !sextets_char by lia. cbn [sextets Ascii.eqb Bool.eqb pack].
    f_equal; [apply byte_back; lia |]. f_equal. apply byte_back. lia.
  - pose proof (N_of_ascii_below a). pose proof (N_of_ascii_below b).
    pose proof (N_of_ascii_below c).
    cbn [encode]. rewrite !sextets_char by lia. cbn [pack].
    rewrite IH by (simpl in Hn; lia).
    f_equal; [apply byte_back; lia |].
    f_equal; [apply byte_back; lia |].
    f_equal. apply byte_back. lia.
Qed.

(** An encoding is one line of characters that are no white space. *)
Lemma encode_plain (s : string) :
  has_line_terminator (encode s) = false ∧
  match encode s with
  | String a _ => is_space a = false
  | EmptyString => s = EmptyString
  end.
Proof.
  assert (∀ n s, (String.length s ≤ n)%nat →
            has_line_terminator (encode s) = false ∧
            match encode s with
            | String a _ => is_space a = false
            | EmptyString => s = EmptyString
            end) as H; [| by apply (H (String.length s))].
  clear s. induction n as [|n IH]; intros s Hn.
  { destruct s; [done | simpl in Hn; lia]. }
  destruct s as [|a [|b [|c rest]]]; [done | | |].
  - pose proof (N_of_ascii_below a).
    cbn [encode has_line_terminator].
    destruct (char_of_plain (N_of_ascii a / 4)) as [-> ->]; [lia |].
    destruct (char_of_plain (N_of_ascii a mod 4 * 16)) as [_ ->]; [lia |].
    done.
  - pose proof (N_of_ascii_below a). pose proof (N_of_ascii_below b).
    cbn [encode has_line_terminator].
    destruct (char_of_plain (N_of_ascii a / 4)) as [-> ->]; [lia |].
    destruct (char_of_plain (N_of_ascii a mod 4 * 16 + N_of_ascii b / 16))
      as [_ ->]; [lia |].
    destruct (char_of_plain (N_of_ascii b mod 16 * 4)) as [_ ->]; [lia |].
    done.
  - pose proof (N_of_ascii_below a). pose proof (N_of_ascii_below b).
    pose proof (N_of_ascii_below c).
    cbn [encode has_line_terminator].
    destruct (char_of_plain (N_of_ascii a / 4)) as [-> ->]; [lia |].
    destruct (char_of_plain (N_of_ascii a mod 4 * 16 + N_of_ascii b / 16))
      as [_ ->]; [lia |].
    destruct (char_of_plain (N_of_ascii b mod 16 * 4 + N_of_ascii c / 64))
      as [_ ->]; [lia |].
    destruct (char_of_plain (N_of_ascii c mod 64)) as [_ ->]; [lia |].
    destruct (IH rest) as [-> _]; [simpl in Hn; lia |]. done.
Qed.
End Base64Facts.

(** The codecs on known values: the digests that FIPS 180-4 and Node give,
    the second over two blocks, and the encodings of RFC 4648. *)
Example sha256_of_nothing :
  SHA256.sha256_hex ""
  = "e3b0c44298fc1c149afbf4c8996fb92427ae41e4649b934ca495991b7852b855".
Proof. vm_compute. reflexivity. Qed.

Example sha256_of_abc :
  SHA256.sha256_hex "abc"
  = "ba7816bf8f01cfea414140de5dae2223b00361a396177a9cb410ff61f20015ad".
Proof. vm_compute. reflexivity. Qed.

Example sha256_of_two_blocks :
  SHA256.sha256_hex (String.concat "" (repeat "a" 119))
  = "31eba51c313a5c08226adf18d4a359cfdfd8d2e816b13f4af952f7ea6584dcfb".
Proof. vm_compute. reflexivity. Qed.

Example hashPassword_of_secret :
  hashPassword "secret"
  = "2bb80d537b1da3e38bd30361aa855686bde0eacd7162fef6a25fe97bf527a25b".
Proof. vm_compute. reflexivity. Qed.

Example base64_of_credentials :
  Base64.encode "admin:secret" = "YWRtaW46c2VjcmV0" ∧
  Base64.encode "admin:wrong" = "YWRtaW46d3Jvbmc=" ∧
  Base64.encode "nobody:secret" = "bm9ib2R5OnNlY3JldA==".
Proof. vm_compute. repeat split. Qed.

Example base64_decoder_is_lenient :
  Base64.decode "YWRt aW46d3J$vbmc=zzz" = "admin:wrong".
Proof. vm_compute. reflexivity. Qed.

(** ** More on strings *)

Lemma substring_short (n : nat) (s : string) :
  (String.length s ≤ n)%nat → String.substring 0 n s = s.
Proof.
  revert s. induction n as [|n IH]; intros [|a s]; simpl; try done; try lia.
  intros H. rewrite IH; [done | lia].
Qed.

Lemma substring_cut (n : nat) (s : string) :
  (String.length (String.substring 0 n s) < n)%nat → String.substring 0 n s = s.
Proof.
  revert s. induction n as [|n IH]; intros [|a s]; simpl; try done; try lia.
  intros H. rewrite IH; [done | lia].
Qed.

Lemma substring_long (n : nat) (s t : string) :
  (n ≤ String.length s)%nat →
  String.substring 0 n (s +:+ t) = String.substring 0 n s.
Proof.
  revert s. induction n as [|n IH]; intros [|a s]; simpl; try done; try lia.
  - intros _. by destruct t.
  - intros H. rewrite IH; [done | lia].
Qed.

Lemma append_cancel_r (a b s : string) : a +:+ s = b +:+ s → a = b.
Proof.
  revert b. induction a as [|x a IH]; intros [|y b] H.
  - done.
  - change (s = String y (b +:+ s)) in H.
    apply (f_equal String.length) in H. simpl in H.
    rewrite (length_append b s) in H. exfalso. lia.
  - change (String x (a +:+ s) = s) in H.
    apply (f_equal String.length) in H. simpl in H.
    rewrite (length_append a s) in H. exfalso. lia.
  - change (String x (a +:+ s) = String y (b +:+ s)) in H.
    injection H as -> H. by rewrite (IH b H).
Qed.

Lemma principal_inj (k k' : string) :
  api_key_principal k' = api_key_principal k →
  String.substring 0 8 k' = String.substring 0 8 k.
Proof.
  unfold api_key_principal. intros H.
  injection H as H. exact (append_cancel_r _ _ "..." H).
Qed.

Lemma short_key_determined (k : string) :
  (String.length k < 8)%nat → principal_determines k.
Proof.
  intros Hk k' H. apply principal_inj in H.
  rewrite (substring_short 8 k) in H by lia.
  rewrite <- H. symmetry. apply substring_cut. rewrite H. done.
Qed.

Lemma long_key_shared (k : string) :
  (8 ≤ String.length k)%nat →
  k +:+ "x" ≠ k ∧ api_key_principal (k +:+ "x") = api_key_principal k.
Proof.
  intros Hk. split.
  - intros H. apply (f_equal String.length) in H.
    rewrite (length_append k "x") in H. simpl in H. lia.
  - unfold api_key_principal. by rewrite substring_long.
Qed.

(** ** API keys *)

Section api_key.
Variables (kc : ApiKeyAuthConfig) (c : Request).

Let h := req_header c (or_else (headerName kc) API_KEY_HEADER).
Let q := req_query c (or_else (queryParamName kc) API_KEY_QUERY).

(** The key the middleware goes by: the header, else the query. *)
Let candidate : option string := if negb (truthy h) then q else h.

Lemma api_key_accepts (k : string) (next : M unit) (w : World) :
  candidate = Some k → k ≠ "" → k ∈ apiKeys kc →
  createApiKeyAuth kc c next w = next (api_key_success c k w).
Proof.
  intros Hc Hk Hin. unfold createApiKeyAuth. fold h q.
  change (if negb (truthy h) then q else h) with candidate. rewrite Hc.
  rewrite truthy_Some by done. cbn [negb from_option id].
  unfold includes. rewrite bool_decide_eq_true_2 by done. by run.
Qed.

Lemma api_key_invalid (k : string) (next : M unit) (w : World) :
  candidate = Some k → k ≠ "" → k ∉ apiKeys kc →
  createApiKeyAuth kc c next w =
    (Threw (AuthenticationError "Invalid API key"),
     add_log (mkLog warn "API key authentication failed: Invalid API key"
                    (req_meta c)) w).
Proof.
  intros Hc Hk Hin. unfold createApiKeyAuth. fold h q.
  change (if negb (truthy h) then q else h) with candidate. rewrite Hc.
  rewrite truthy_Some by done. cbn [negb from_option id].
  unfold includes. rewrite bool_decide_eq_false_2 by done. by run.
Qed.

Lemma api_key_missing (next : M unit) (w : World) :
  truthy candidate = false →
  createApiKeyAuth kc c next w =
    (Threw (AuthenticationError (missing_credential_message api_key)),
     add_log (mkLog warn "API key authentication failed: No API key provided"
                    (req_meta c)) w).
Proof.
  intros Hc. unfold createApiKeyAuth. fold h q.
  change (if negb (truthy h) then q else h) with candidate.
  rewrite Hc. reflexivity.
Qed.

Lemma api_key_cases (w : World) :
  (∃ k, candidate = Some k ∧ k ≠ "" ∧ k ∈ apiKeys kc ∧
        createApiKeyAuth kc c noop w = (Returned tt, api_key_success c k w)) ∨
  (∃ e w', createApiKeyAuth kc c noop w = (Threw e, w') ∧
           ¬ (∃ k, candidate = Some k ∧ k ≠ "" ∧ k ∈ apiKeys kc)).
Proof.
  destruct candidate as [k|] eqn:Hc.
  - destruct (decide (k = "")) as [->|Hk].
    + right. rewrite api_key_missing by (by rewrite Hc).
      eexists _, _. split; [done |]. intros (k & [= <-] & Hk & _). done.
    + destruct (decide (k ∈ apiKeys kc)) as [Hin|Hin].
      * left. exists k. by rewrite (api_key_accepts k).
      * right. rewrite (api_key_invalid k) by done.
        eexists _, _. split; [done |]. intros (k' & [= <-] & _ & ?). done.
  - right. rewrite api_key_missing by (by rewrite Hc).
    eexists _, _. split; [done |]. intros (k & [=] & _).
Qed.
Lemma api_key_returns (w : World) :
  (createApiKeyAuth kc c noop w).1 = Returned tt →
  ∃ k, (h = Some k ∨ (truthy h = false ∧ q = Some k)) ∧ k ≠ "" ∧
       k ∈ apiKeys kc ∧
       createApiKeyAuth kc c noop w = (Returned tt, api_key_success c k w).
Proof.
  intros Hr.
  destruct (api_key_cases w) as [(k & Hc & Hk & Hin & Heq)|(e & w' & Heq & _)];
    rewrite Heq in Hr; [| done].
  exists k. split; [| done]. unfold candidate in Hc.
  destruct (truthy h) eqn:Hh; [by left | by right].
Qed.
End api_key.

(** C7, as the code has it.  The key the API key middleware goes by is the
    value of the configured header when that is not empty, and otherwise
    (header absent or empty) the configured query parameter: a non-empty
    header decides alone, whatever the query holds; the query decides when
    the header is absent or empty; with neither, the key is required.  The
    middleware succeeds exactly when the key it goes by is a member of the
    configured keys, and then records the principal of that key. *)
Theorem api_key_header_then_query (kc : ApiKeyAuthConfig) (c : Request)
    (w : World) :
  let h := req_header c (or_else (headerName kc) API_KEY_HEADER) in
  let q := req_query c (or_else (queryParamName kc) API_KEY_QUERY) in
  let r := createApiKeyAuth kc c noop w in
  (∀ k, h = Some k → k ≠ "" → (r.1 = Returned tt ↔ k ∈ apiKeys kc)) ∧
  (truthy h = false →
   ∀ k, q = Some k → k ≠ "" → (r.1 = Returned tt ↔ k ∈ apiKeys kc)) ∧
  (truthy h = false → truthy q = false →
   r.1 = Threw (AuthenticationError
                  "API key is required. Provide it via header or query parameter.")) ∧
  (r.1 = Returned tt →
   ∃ k, (h = Some k ∨ (truthy h = false ∧ q = Some k)) ∧ k ∈ apiKeys kc ∧
        ctx_auth r.2 = Some (mkAuthContext api_key (Some (api_key_principal k)) None)).
Proof.
  intros h q r.
  pose proof (api_key_cases kc c w) as Hcases. fold h q r in Hcases.
  assert (∀ k, (if negb (truthy h) then q else h) = Some k → k ≠ "" →
               (r.1 = Returned tt ↔ k ∈ apiKeys kc)) as Hiff.
  { intros k Hc Hk. destruct Hcases as [(k' & Hc' & _ & Hin & ->)
                                        |(e & w' & -> & Hno)]; simpl.
    - rewrite Hc in Hc'. injection Hc' as <-. done.
    - split; [done |]. intros Hin. destruct Hno. by exists k. }
  split; [| split; [| split]].
  - intros k Hh Hk. apply Hiff; [| done]. by rewrite Hh, truthy_Some.
  - intros Hh k Hq Hk. apply Hiff; [| done]. by rewrite Hh.
  - intros Hh Hq. subst r. rewrite api_key_missing; [done |].
    fold h q. by rewrite Hh.
  - intros Hr. destruct (api_key_returns kc c w Hr) as (k & Hk & _ & Hin & Heq).
    exists k. unfold r. by rewrite Heq.
Qed.

Lemma api_key_header_then_query_witness :
  let kc := mkApiKeyAuthConfig ["k1"] None None in
  let by_query := Scenario.request [] [("api_key", "k1")] in
  let both := Scenario.request [("x-api-key", "wrong")] [("api_key", "k1")] in
  ((createApiKeyAuth kc by_query noop Scenario.world0).1 = Returned tt ↔
   "k1" ∈ apiKeys kc) ∧
  ((createApiKeyAuth kc both noop Scenario.world0).1 = Returned tt ↔
   "wrong" ∈ apiKeys kc).
Proof.
  intros kc by_query both. split.
  - destruct (api_key_header_then_query kc by_query Scenario.world0)
      as (_ & Hquery & _).
    apply (Hquery eq_refl "k1"); [reflexivity | discriminate].
  - destruct (api_key_header_then_query kc both Scenario.world0)
      as (Hheader & _).
    apply (Hheader "wrong"); [reflexivity | discriminate].
Defined.

(** C7 as the specification states it fails: a header that is present but
    empty does not keep the query parameter from being consulted, and the
    key presented in the query is accepted. *)
Lemma query_consulted_with_header_present :
  let c := Scenario.request [("x-api-key", "")] [("api_key", "k1")] in
  let r := createApiKeyAuth (mkApiKeyAuthConfig ["k1"] None None) c noop
                            Scenario.world0 in
  is_Some (req_header c "x-api-key") ∧
  r.1 = Returned tt ∧
  ctx_auth r.2 = Some (mkAuthContext api_key (Some "api-key-k1...") None).
Proof. vm_compute. repeat split. by eexists. Qed.

(** C8, as the code has it.  After a successful API key authentication
    with the key [k], the principal is "api-key-", the first 8 characters
    of [k], and "...".  A key of more than 8 characters shares its
    principal with other keys, so it cannot be told from the principal; a
    key of at most 8 characters stands in its principal in full, and one
    of fewer than 8 is the only key with that principal. *)
Theorem api_key_principal_shows_prefix (kc : ApiKeyAuthConfig) (c : Request)
    (w : World) :
  let h := req_header c (or_else (headerName kc) API_KEY_HEADER) in
  let q := req_query c (or_else (queryParamName kc) API_KEY_QUERY) in
  let r := createApiKeyAuth kc c noop w in
  r.1 = Returned tt →
  ∃ k, (h = Some k ∨ (truthy h = false ∧ q = Some k)) ∧ k ∈ apiKeys kc ∧
       ctx_auth r.2 ≫= user
         = Some ("api-key-" +:+ String.substring 0 8 k +:+ "...") ∧
       ((8 < String.length k)%nat → ¬ principal_determines k) ∧
       ((String.length k ≤ 8)%nat →
        api_key_principal k = "api-key-" +:+ k +:+ "...") ∧
       ((String.length k < 8)%nat → principal_determines k).
Proof.
  intros h q r Hr.
  destruct (api_key_returns kc c w Hr) as (k & Hk & _ & Hin & Heq).
  exists k. unfold r. rewrite Heq.
  split; [done |]. split; [done |]. split; [done |].
  split; [| split].
  - intros Hlen Hdet. destruct (long_key_shared k) as [Hne Hsame]; [lia |].
    by apply Hdet in Hsame.
  - intros Hlen. unfold api_key_principal. by rewrite substring_short.
  - apply short_key_determined.
Qed.

Lemma api_key_principal_shows_prefix_witness :
  let c := Scenario.request [("x-api-key", "0123456789abcdef")] [] in
  let kc := mkApiKeyAuthConfig ["0123456789abcdef"] None None in
  let r := createApiKeyAuth kc c noop Scenario.world0 in
  r.1 = Returned tt ∧
  ∃ k, k ∈ apiKeys kc ∧
       ctx_auth r.2 ≫= user = Some ("api-key-" +:+ String.substring 0 8 k +:+ "...") ∧
       ((8 < String.length k)%nat → ¬ principal_determines k).
Proof.
  intros c kc r.
  assert (r.1 = Returned tt) as Hr by (vm_compute; reflexivity).
  split; [exact Hr |].
  destruct (api_key_principal_shows_prefix kc c Scenario.world0 Hr)
    as (k & _ & Hin & Huser & Hlong & _).
  exists k. repeat split; assumption.
Defined.

(** C8 as the specification states it fails: the key k1 of the
    specification's own scenario is accepted, stands in full in its
    principal, and is the only key with that principal. *)
Lemma short_key_in_principal :
  let c := Scenario.request [("x-api-key", "k1")] [] in
  let r := createApiKeyAuth (mkApiKeyAuthConfig ["k1"] None None) c noop
                            Scenario.world0 in
  r.1 = Returned tt ∧
  ctx_auth r.2 ≫= user = Some ("api-key-" +:+ "k1" +:+ "...") ∧
  principal_determines "k1".
Proof.
  split; [vm_compute; reflexivity |].
  split; [vm_compute; reflexivity |].
  apply short_key_determined. simpl. lia.
Qed.

(** ** Basic credentials *)

Lemma hashPassword_nonempty (password : string) : hashPassword password ≠ "".
Proof.
  unfold hashPassword, SHA256.sha256_hex, SHA256.hex.
  unfold SHA256.hex_word at 1. discriminate.
Qed.

Lemma spaces_then_group_plain (e : string) :
  has_line_terminator e = false →
  match e with String a _ => is_space a = false | EmptyString => False end →
  spaces_then_group e = Some e.
Proof.
  destruct e as [|a e]; [done |]. intros Hline Hspace.
  cbn [spaces_then_group]. rewrite Hspace.
  unfold dot_plus_end. by rewrite Hline.
Qed.

(** The header a client sends for the user [u] and the password [p]. *)
Lemma match_basic_encoded (s : string) :
  s ≠ "" → match_basic ("Basic " +:+ Base64.encode s) = Some (Base64.encode s).
Proof.
  intros Hs. unfold match_basic, substring_from.
  change (String.substring 0 5 ("Basic " +:+ Base64.encode s)) with "Basic".
  change (toLowerCase "Basic") with "basic".
  change (String.eqb "basic" "basic") with true. cbv iota.
  change (String.length ("Basic " +:+ Base64.encode s) - 5)
    with (S (String.length (Base64.encode s))).
  change (String.substring 5 (S (String.length (Base64.encode s)))
                           ("Basic " +:+ Base64.encode s))
    with (String " " (String.substring 0 (String.length (Base64.encode s))
                                       (Base64.encode s))).
  rewrite substring_all.
  change (is_space " ") with true. cbv iota.
  destruct (Base64Facts.encode_plain s) as [Hline Hfirst].
  apply spaces_then_group_plain; [done |].
  destruct (Base64.encode s); [done | done].
Qed.

Lemma parseBasicAuth_encoded (u p : string) :
  indexOf ":" u = None →
  parseBasicAuth ("Basic " +:+ Base64.encode (u +:+ ":" +:+ p)) = Some (u, p).
Proof.
  intros Hu. unfold parseBasicAuth.
  rewrite match_basic_encoded by (by destruct u).
  rewrite Base64Facts.decode_encode.
  change (u +:+ ":" +:+ p) with (u +:+ String ":" p).
  rewrite indexOf_first by done.
  by rewrite substring_prefix, substring_from_suffix.
Qed.

Section basic_auth.
Variables (config : BasicAuthConfig) (c : Request) (header : string).
Hypothesis Hheader : req_header c "Authorization" = Some header.
Hypothesis Hnonempty : header ≠ "".

Lemma basic_unknown_user (u p : string) (next : M unit) (w : World) :
  parseBasicAuth header = Some (u, p) →
  truthy (users config !! u) = false →
  createBasicAuth config c next w =
    (Threw (AuthenticationError "Invalid username or password"),
     basic_rejected config c "Basic auth failed: Unknown user" u w).
Proof using Hheader Hnonempty.
  intros Hparse Hstored. unfold createBasicAuth.
  rewrite Hheader, truthy_Some by done. cbn [negb from_option id].
  rewrite Hparse, Hstored. by run.
Qed.

Lemma basic_wrong_password (u p stored : string) (next : M unit) (w : World) :
  parseBasicAuth header = Some (u, p) →
  users config !! u = Some stored → stored ≠ "" →
  hashPassword p ≠ stored →
  createBasicAuth config c next w =
    (Threw (AuthenticationError "Invalid username or password"),
     basic_rejected config c "Basic auth failed: Invalid password" u w).
Proof using Hheader Hnonempty.
  intros Hparse Hstored Hne Hhash. unfold createBasicAuth.
  rewrite Hheader, truthy_Some by done. cbn [negb from_option id].
  rewrite Hparse, Hstored, truthy_Some by done.
  rewrite bool_decide_eq_false_2 by congruence. by run.
Qed.

Lemma basic_accepts (u p : string) (next : M unit) (w : World) :
  parseBasicAuth header = Some (u, p) →
  users config !! u = Some (hashPassword p) →
  createBasicAuth config c next w =
    next (add_log (mkLog debug "Basic authentication successful"
                         (req_meta c ++ [("user", MStr u)]))
                  (set_auth (mkAuthContext basic (Some u) None) w)).
Proof using Hheader Hnonempty.
  intros Hparse Hstored. unfold createBasicAuth.
  rewrite Hheader, truthy_Some by done. cbn [negb from_option id].
  rewrite Hparse, Hstored.
  rewrite truthy_Some by apply hashPassword_nonempty.
  rewrite bool_decide_eq_true_2 by done. by run.
Qed.
End basic_auth.

(** C5.  A Basic request whose user name is not in the credential store and
    a Basic request whose user name is there but whose password has another
    hash get the same error, an [AuthenticationError] with the message
    "Invalid username or password", and leave the same response headers
    and the same (absent) authentication context behind: the caller cannot
    tell an unknown user from a wrong password. *)
Theorem unknown_user_like_wrong_password (config : BasicAuthConfig)
    (c1 c2 : Request) (h1 h2 u1 p1 u2 p2 stored : string)
    (next : M unit) (w : World) :
  req_header c1 "Authorization" = Some h1 → h1 ≠ "" →
  parseBasicAuth h1 = Some (u1, p1) →
  users config !! u1 = None →
  req_header c2 "Authorization" = Some h2 → h2 ≠ "" →
  parseBasicAuth h2 = Some (u2, p2) →
  users config !! u2 = Some stored →
  hashPassword p2 ≠ stored →
  let r1 := createBasicAuth config c1 next w in
  let r2 := createBasicAuth config c2 next w in
  r1.1 = Threw (AuthenticationError "Invalid username or password") ∧
  r2.1 = r1.1 ∧
  ctx_headers r2.2 = ctx_headers r1.2 ∧
  ctx_auth r2.2 = ctx_auth r1.2 ∧
  dispatched r2.2 = dispatched r1.2.
Proof.
  intros Hh1 Hn1 Hp1 Hs1 Hh2 Hn2 Hp2 Hs2 Hhash r1 r2. subst r1 r2.
  rewrite (basic_unknown_user config c1 h1 Hh1 Hn1 u1 p1) by (by rewrite ?Hs1).
  destruct (decide (stored = "")) as [->|Hne].
  - rewrite (basic_unknown_user config c2 h2 Hh2 Hn2 u2 p2) by (by rewrite ?Hs2).
    done.
  - by rewrite (basic_wrong_password config c2 h2 Hh2 Hn2 u2 p2 stored).
Qed.

Lemma unknown_user_like_wrong_password_witness :
  let config := Scenario.basic_store "admin" "secret" in
  let h1 := "Basic bm9ib2R5OnNlY3JldA==" in
  let h2 := "Basic YWRtaW46d3Jvbmc=" in
  let c1 := Scenario.request [("authorization", h1)] [] in
  let c2 := Scenario.request [("authorization", h2)] [] in
  let r1 := createBasicAuth config c1 noop Scenario.world0 in
  let r2 := createBasicAuth config c2 noop Scenario.world0 in
  (parseBasicAuth h1 = Some ("nobody", "secret") ∧
   users config !! "nobody" = None ∧
   parseBasicAuth h2 = Some ("admin", "wrong") ∧
   users config !! "admin" = Some (hashPassword "secret") ∧
   hashPassword "wrong" ≠ hashPassword "secret") ∧
  r1.1 = Threw (AuthenticationError "Invalid username or password") ∧
  r2.1 = r1.1 ∧
  ctx_headers r2.2 = ctx_headers r1.2 ∧
  ctx_auth r2.2 = ctx_auth r1.2 ∧
  dispatched r2.2 = dispatched r1.2.
Proof.
  intros config h1 h2 c1 c2 r1 r2.
  assert (req_header c1 "Authorization" = Some h1) as Hh1
    by (vm_compute; reflexivity).
  assert (req_header c2 "Authorization" = Some h2) as Hh2
    by (vm_compute; reflexivity).
  assert (parseBasicAuth h1 = Some ("nobody", "secret")) as Hp1
    by (vm_compute; reflexivity).
  assert (parseBasicAuth h2 = Some ("admin", "wrong")) as Hp2
    by (vm_compute; reflexivity).
  assert (users config !! "nobody" = None) as Hs1
    by (vm_compute; reflexivity).
  assert (users config !! "admin" = Some (hashPassword "secret")) as Hs2
    by (vm_compute; reflexivity).
  assert (hashPassword "wrong" ≠ hashPassword "secret") as Hhash
    by (vm_compute; discriminate).
  assert (h1 ≠ "") as Hn1 by discriminate.
  assert (h2 ≠ "") as Hn2 by discriminate.
  split; [exact (conj Hp1 (conj Hs1 (conj Hp2 (conj Hs2 Hhash)))) |].
  exact (unknown_user_like_wrong_password config c1 c2 h1 h2
           "nobody" "secret" "admin" "wrong" (hashPassword "secret")
           noop Scenario.world0 Hh1 Hn1 Hp1 Hs1 Hh2 Hn2 Hp2 Hs2 Hhash).
Defined.

(** C6, as the code has it.  When the user name [u] holds no ':' and the
    credential store maps [u] to the SHA-256 hex digest of the password
    [p], a request with the header Authorization: Basic base64(u ":" p) is
    authenticated: the context {method: basic, user: u} is recorded and the
    next handler runs.  The decoded text is cut at its first ':', so the
    password is kept as it is, colons included. *)
Theorem basic_accepts_stored_credentials (config : BasicAuthConfig)
    (c : Request) (u p : string) (next : M unit) (w : World) :
  indexOf ":" u = None →
  users config !! u = Some (hashPassword p) →
  req_header c "Authorization"
    = Some ("Basic " +:+ Base64.encode (u +:+ ":" +:+ p)) →
  parseBasicAuth ("Basic " +:+ Base64.encode (u +:+ ":" +:+ p)) = Some (u, p) ∧
  createBasicAuth config c next w =
    next (add_log (mkLog debug "Basic authentication successful"
                         (req_meta c ++ [("user", MStr u)]))
                  (set_auth (mkAuthContext basic (Some u) None) w)).
Proof.
  intros Hu Hstored Hheader.
  pose proof (parseBasicAuth_encoded u p Hu) as Hparse.
  split; [done |].
  by apply (basic_accepts config c _ Hheader ltac:(discriminate) u p).
Qed.

Lemma basic_accepts_stored_credentials_witness :
  let config := Scenario.basic_store "admin" "se:cr:et" in
  let c := Scenario.request
             [("authorization",
               "Basic " +:+ Base64.encode ("admin" +:+ ":" +:+ "se:cr:et"))] [] in
  (indexOf ":" "admin" = None ∧
   users config !! "admin" = Some (hashPassword "se:cr:et")) ∧
  parseBasicAuth ("Basic " +:+ Base64.encode ("admin" +:+ ":" +:+ "se:cr:et"))
    = Some ("admin", "se:cr:et") ∧
  (createBasicAuth config c Scenario.handler_ok Scenario.world0).1 = Returned tt ∧
  ctx_auth (createBasicAuth config c Scenario.handler_ok Scenario.world0).2
    = Some (mkAuthContext basic (Some "admin") None).
Proof.
  intros config c.
  assert (indexOf ":" "admin" = None) as Hu by reflexivity.
  assert (users config !! "admin" = Some (hashPassword "se:cr:et")) as Hs
    by apply lookup_insert_eq.
  assert (req_header c "Authorization"
          = Some ("Basic " +:+ Base64.encode ("admin" +:+ ":" +:+ "se:cr:et"))) as Hh
    by (vm_compute; reflexivity).
  destruct (basic_accepts_stored_credentials config c "admin" "se:cr:et"
              Scenario.handler_ok Scenario.world0 Hu Hs Hh) as [Hparse Hrun].
  split; [exact (conj Hu Hs) |]. split; [exact Hparse |].
  rewrite Hrun. split; reflexivity.
Defined.

(** C6 as the specification states it fails: the store maps the user name
    a:b to the digest of the password c, and the request that carries
    base64("a:b" ":" "c") is refused, for its user name is read as a. *)
Lemma colon_in_username_refused :
  let config := Scenario.basic_store "a:b" "c" in
  let header := "Basic " +:+ Base64.encode ("a:b" +:+ ":" +:+ "c") in
  let c := Scenario.request [("authorization", header)] [] in
  users config !! "a:b" = Some (hashPassword "c") ∧
  header = "Basic YTpiOmM=" ∧
  parseBasicAuth header = Some ("a", "b:c") ∧
  (createBasicAuth config c noop Scenario.world0).1
    = Threw (AuthenticationError "Invalid username or password").
Proof.
  intros config header c.
  split; [vm_compute; reflexivity |].
  split; [vm_compute; reflexivity |].
  split; vm_compute; reflexivity.
Qed.

(** ** The orchestrator's loop *)

Lemma compose_loop_exhausted (config : Config) (errors : list Thrown)
    (c : Request) (next : M unit) (w : World) :
  compose_loop config [] errors c next w =
    (Threw (all_failed_error config),
     add_log (all_failed_entry config c (map error_message errors)) w).
Proof. reflexivity. Qed.

Lemma compose_loop_accepts (config : Config) (v : AuthMiddleware)
    (rest : list AuthMiddleware) (errors : list Thrown) (c : Request)
    (next : M unit) (w w1 : World) :
  v c noop w = (Returned tt, w1) →
  compose_loop config (v :: rest) errors c next w =
    match next w1 with
    | (Returned a, w2) => (Returned a, w2)
    | (Threw e, w2) =>
        compose_loop config rest
          (if instanceof_Error e then errors ++ [e] else errors) c next w2
    end.
Proof. intros Hv. cbn [compose_loop]. run. by rewrite Hv. Qed.

Lemma compose_loop_rejects (config : Config) (v : AuthMiddleware)
    (rest : list AuthMiddleware) (errors : list Thrown) (c : Request)
    (next : M unit) (e : Thrown) (w w1 : World) :
  v c noop w = (Threw e, w1) →
  compose_loop config (v :: rest) errors c next w =
    compose_loop config rest
      (if instanceof_Error e then errors ++ [e] else errors) c next w1.
Proof. intros Hv. cbn [compose_loop]. run. by rewrite Hv. Qed.

Lemma compose_loop_rejections (config : Config)
    (pre rest : list AuthMiddleware) (errors es : list Thrown) (c : Request)
    (next : M unit) (w w1 : World) :
  rejections pre c w = Some (es, w1) →
  compose_loop config (pre ++ rest) errors c next w =
    compose_loop config rest (errors ++ es) c next w1.
Proof.
  revert errors es w. induction pre as [|v pre IH]; intros errors es w Hrej.
  - injection Hrej as <- <-. by rewrite app_nil_r.
  - cbn [rejections] in Hrej.
    destruct (v c noop w) as [[[]|e] w'] eqn:Hv; [done |].
    destruct (rejections pre c w') as [[es' w'']|] eqn:Hrest; [| done].
    injection Hrej as <- <-.
    change ((v :: pre) ++ rest) with (v :: (pre ++ rest)).
    rewrite (compose_loop_rejects _ _ _ _ _ _ e w w') by done.
    rewrite (IH _ es' w') by done.
    destruct (instanceof_Error e); by rewrite <- ?app_assoc.
Qed.

(** When the handler after the middleware returns, a request meets one of
    two ends.  Either some verifier accepts it after those before it have
    refused: then the handler runs, once, in the world that verifier left,
    and the verifiers after it are not called.  Or every verifier refuses:
    then the handler does not run and the aggregated error is thrown. *)
Lemma compose_loop_outcome (config : Config) (ms : list AuthMiddleware)
    (errors : list Thrown) (c : Request) (handler : M unit) (w : World) :
  (∀ w1, ∃ w2, handler w1 = (Returned tt, w2)) →
  (∃ pre v post es w1 w2,
     ms = pre ++ v :: post ∧ rejections pre c w = Some (es, w1) ∧
     v c noop w1 = (Returned tt, w2) ∧
     compose_loop config ms errors c handler w = handler w2) ∨
  (∃ es w1,
     rejections ms c w = Some (es, w1) ∧
     compose_loop config ms errors c handler w =
       (Threw (all_failed_error config),
        add_log (all_failed_entry config c (map error_message (errors ++ es))) w1)).
Proof.
  intros Hhandler. revert errors w.
  induction ms as [|v ms IH]; intros errors w.
  - right. exists [], w. by rewrite app_nil_r.
  - destruct (v c noop w) as [[[]|e] w'] eqn:Hv.
    + left. exists [], v, ms, [], w, w'. repeat split; try done.
      rewrite (compose_loop_accepts _ _ _ _ _ _ w w') by done.
      destruct (Hhandler w') as [w2 ->]. done.
    + rewrite (compose_loop_rejects _ _ _ _ _ _ e w w') by done.
      destruct (IH (if instanceof_Error e then errors ++ [e] else errors) w')
        as [(pre & v' & post & es & w1 & w2 & -> & Hrej & Hv' & Hrun)
           |(es & w1 & Hrej & Hrun)].
      * left.
        exists (v :: pre), v', post,
               (if instanceof_Error e then e :: es else es), w1, w2.
        repeat split; try done.
        cbn [rejections]. by rewrite Hv, Hrej.
      * right. exists (if instanceof_Error e then e :: es else es), w1.
        split; [cbn [rejections]; by rewrite Hv, Hrej |].
        rewrite Hrun. destruct (instanceof_Error e); by rewrite <- ?app_assoc.
Qed.

(** ** The verifiers of a configuration *)

Lemma includes_perm (x : string) (names names' : list string) :
  names ≡ₚ names' → includes x names = includes x names'.
Proof.
  intros Hperm. unfold includes. apply bool_decide_ext. by rewrite Hperm.
Qed.

Lemma verifier_with_methods (rt : Runtime) (config : Config)
    (names : list string) (m : AuthMethod) :
  names ≡ₚ methods (auth config) →
  verifier rt (with_methods names config) m = verifier rt config m.
Proof.
  intros Hperm. destruct m; unfold verifier, with_methods; cbn;
    by rewrite (includes_perm _ _ _ Hperm).
Qed.

Lemma enabled_verifiers_in (rt : Runtime) (config : Config)
    (m : AuthMethod) (v : AuthMiddleware) :
  (m, v) ∈ enabled_verifiers rt config → verifier rt config m = Some v.
Proof.
  unfold enabled_verifiers. rewrite list_elem_of_omap.
  intros (m' & _ & H). destruct (verifier rt config m') eqn:Hv; [| done].
  by injection H as -> ->.
Qed.

Lemma enabled_verifiers_order (rt : Runtime) (config : Config) :
  map fst (enabled_verifiers rt config) `sublist_of` verifier_order.
Proof.
  unfold enabled_verifiers, verifier_order. cbn [omap list_omap].
  destruct (verifier rt config api_key), (verifier rt config oidc),
    (verifier rt config basic); cbn;
    repeat first [apply sublist_nil | apply sublist_skip | apply sublist_cons].
Qed.
Lemma auth_middlewares_enabled (rt : Runtime) (config : Config)
    (w0 w1 : World) (ms : list AuthMiddleware) :
  auth_middlewares rt config w0 = (Returned ms, w1) →
  ms = map snd (enabled_verifiers rt config).
Proof.
  unfold auth_middlewares, enabled_verifiers, verifier_order, verifier,
    createOIDCAuth, OIDCAuth_new.
  cbn [omap list_omap].
  destruct (auth_apiKeys (auth config)) as [keys|];
    destruct (auth_oidc (auth config)) as [o|];
    destruct (auth_basicAuth (auth config)) as [b|];
    cbn [mbind option_bind];
    repeat match goal with
           | |- context [includes ?x ?l && ?y] => destruct (includes x l && y)
           | |- context [includes ?x ?l] => destruct (includes x l)
           end;
    cbn [fmap option_fmap option_map map snd app];
    try destruct (truthy (jwksUri o));
    try destruct (url_parses rt _);
    step; intros H; try discriminate H; by injection H as <- _.
Qed.

Lemma createAuthMiddleware_composes (rt : Runtime) (config : Config)
    (w0 ws : World) (mw : AuthMiddleware) :
  createAuthMiddleware rt config w0 = (Returned (Some mw), ws) →
  mw = composeAuthMiddleware config (map snd (enabled_verifiers rt config)) ∧
  enabled_verifiers rt config ≠ [].
Proof.
  unfold createAuthMiddleware.
  destruct (enabled (auth config)); cbn [negb]; [| step; discriminate].
  destruct (auth_middlewares rt config w0) as [[ms|e] w1] eqn:Hms;
    step; rewrite Hms; [| discriminate].
  apply auth_middlewares_enabled in Hms as ->.
  destruct (enabled_verifiers rt config) as [|v vs]; cbn [map length Nat.eqb].
  - discriminate.
  - intros H. by injection H as <- _.
Qed.

(** ** What each verifier does *)

Lemma oidc_missing_token (rt : Runtime) (config : OIDCConfig) (c : Request)
    (next : M unit) (w : World) :
  truthy (extractBearerToken (req_header c "Authorization")) = false →
  OIDCAuth_middleware rt config c next w =
    (Threw (AuthenticationError (missing_credential_message oidc)),
     add_log (mkLog warn "OIDC auth failed: No bearer token provided"
                    (req_meta c)) w).
Proof.
  intros H. unfold OIDCAuth_middleware. by rewrite H.
Qed.

Lemma basic_missing_header (config : BasicAuthConfig) (c : Request)
    (next : M unit) (w : World) :
  truthy (req_header c "Authorization") = false →
  createBasicAuth config c next w =
    (Threw (AuthenticationError (missing_credential_message basic)),
     set_header "WWW-Authenticate"
       (basic_challenge (or_else (realm config) "Magic MCP Server"))
       (add_log (mkLog warn "Basic auth failed: No Authorization header"
                       (req_meta c)) w)).
Proof.
  intros H. unfold createBasicAuth. by rewrite H.
Qed.

Lemma no_header_no_token (c : Request) :
  truthy (req_header c "Authorization") = false →
  truthy (extractBearerToken (req_header c "Authorization")) = false.
Proof. intros H. apply truthy_false in H as [-> | ->]; reflexivity. Qed.

Lemma basic_returns (config : BasicAuthConfig) (c : Request) (w w' : World) :
  createBasicAuth config c noop w = (Returned tt, w') →
  method <$> ctx_auth w' = Some basic.
Proof.
  unfold createBasicAuth.
  destruct (truthy (req_header c "Authorization")); cbn [negb];
    [| discriminate].
  destruct (parseBasicAuth _) as [[u p]|]; [| discriminate].
  destruct (truthy (users config !! u)); cbn [negb]; [| discriminate].
  destruct (bool_decide (Some (hashPassword p) = users config !! u));
    cbn [negb]; [| discriminate].
  step. intros H. by injection H as <-.
Qed.

Lemma oidc_returns (rt : Runtime) (config : OIDCConfig) (c : Request)
    (w w' : World) :
  OIDCAuth_middleware rt config c noop w = (Returned tt, w') →
  method <$> ctx_auth w' = Some oidc.
Proof.
  unfold OIDCAuth_middleware.
  destruct (truthy (extractBearerToken _)); cbn [negb]; [| discriminate].
  step. destruct (verifyToken rt config _ w) as [[payload|e] w1].
  - cbv [c_set_auth modify]. intros H. by injection H as <-.
  - destruct (instanceof_AuthenticationError e); discriminate.
Qed.

Lemma verifier_records_method (rt : Runtime) (config : Config)
    (m : AuthMethod) (v : AuthMiddleware) (c : Request) (w w' : World) :
  verifier rt config m = Some v →
  v c noop w = (Returned tt, w') →
  method <$> ctx_auth w' = Some m.
Proof.
  destruct m; unfold verifier; cbn [mbind option_bind].
  - destruct (auth_apiKeys (auth config)) as [keys|]; cbn [mbind option_bind];
      [| discriminate].
    case_if; [| discriminate]. intros [= <-] Hv.
    destruct (api_key_cases (mkApiKeyAuthConfig keys None None) c w)
      as [(k & _ & _ & _ & Hrun)|(e & w1 & Hrun & _)];
      rewrite Hrun in Hv; [| discriminate].
    by injection Hv as <-.
  - destruct (auth_oidc (auth config)) as [o|]; cbn [mbind option_bind];
      [| discriminate].
    case_if; [| discriminate]. intros [= <-].
    apply oidc_returns.
  - destruct (auth_basicAuth (auth config)) as [b|]; cbn [mbind option_bind];
      [| discriminate].
    case_if; [| discriminate]. intros [= <-].
    apply basic_returns.
Qed.

Lemma verifier_missing_credential (rt : Runtime) (config : Config)
    (m : AuthMethod) (v : AuthMiddleware) (c : Request) (w : World) :
  verifier rt config m = Some v →
  lacks_credential m c →
  ∃ w', v c noop w
          = (Threw (AuthenticationError (missing_credential_message m)), w') ∧
        ctx_auth w' = ctx_auth w ∧ dispatched w' = dispatched w.
Proof.
  destruct m; unfold verifier, lacks_credential; cbn [mbind option_bind].
  - destruct (auth_apiKeys (auth config)) as [keys|]; cbn [mbind option_bind];
      [| discriminate].
    case_if; [| discriminate]. intros [= <-] [Hh Hq].
    rewrite api_key_missing; [by eexists |].
    cbn [headerName queryParamName or_else]. rewrite Hh. cbn [negb]. exact Hq.
  - destruct (auth_oidc (auth config)) as [o|]; cbn [mbind option_bind];
      [| discriminate].
    case_if; [| discriminate]. intros [= <-] Ht.
    rewrite oidc_missing_token by done. by eexists.
  - destruct (auth_basicAuth (auth config)) as [b|]; cbn [mbind option_bind];
      [| discriminate].
    case_if; [| discriminate]. intros [= <-] Ha.
    rewrite basic_missing_header by done. by eexists.
Qed.

(** C2, as the code has it.  A verifier that finds no credential of its
    kind in the request throws an [AuthenticationError] (that the API key
    is required, that a Bearer token is required, that Basic authentication
    is required), as it does for a credential that does not verify.  The
    orchestrator records it: it goes on to the next verifier with the error
    added to the errors it has collected, and when that verifier was the
    last, the message is logged among the errors of the aggregated
    failure. *)
Theorem missing_credential_is_recorded (rt : Runtime) (config : Config)
    (m : AuthMethod) (v : AuthMiddleware) (c : Request)
    (rest : list AuthMiddleware) (errors : list Thrown) (next : M unit)
    (w : World) :
  verifier rt config m = Some v →
  lacks_credential m c →
  let e := AuthenticationError (missing_credential_message m) in
  ∃ w', v c noop w = (Threw e, w') ∧
        ctx_auth w' = ctx_auth w ∧ dispatched w' = dispatched w ∧
        compose_loop config (v :: rest) errors c next w
          = compose_loop config rest (errors ++ [e]) c next w' ∧
        ∃ w'', compose_loop config [v] errors c next w
                 = (Threw (all_failed_error config), w'') ∧
               last (logs w'')
                 = Some (all_failed_entry config c
                           (map error_message errors
                            ++ [missing_credential_message m])).
Proof.
  intros Hv Hlacks e.
  destruct (verifier_missing_credential rt config m v c w Hv Hlacks)
    as (w' & Hrun & Hauth & Hdisp).
  exists w'. split; [done |]. split; [done |]. split; [done |].
  split; [by rewrite (compose_loop_rejects _ _ _ _ _ _ _ _ _ Hrun) |].
  rewrite (compose_loop_rejects _ _ _ _ _ _ _ _ _ Hrun).
  rewrite compose_loop_exhausted. eexists. split; [done |].
  cbn [logs add_log instanceof_Error e]. rewrite last_snoc.
  by rewrite map_app.
Qed.

Lemma missing_credential_is_recorded_witness :
  let config := Scenario.config ["api-key"; "basic"] in
  let c := Scenario.request [("authorization", "Basic YWRtaW46d3Jvbmc=")] [] in
  let v := createApiKeyAuth (mkApiKeyAuthConfig ["k1"] None None) in
  let e := AuthenticationError
             "API key is required. Provide it via header or query parameter." in
  (verifier Scenario.rt config api_key = Some v ∧ lacks_credential api_key c) ∧
  ∃ w', v c noop Scenario.world0 = (Threw e, w') ∧
        compose_loop config [v; createBasicAuth (Scenario.basic_store "admin" "secret")]
                     [] c Scenario.handler_ok Scenario.world0
          = compose_loop config [createBasicAuth (Scenario.basic_store "admin" "secret")]
                         [e] c Scenario.handler_ok w'.
Proof.
  intros config c v e.
  assert (verifier Scenario.rt config api_key = Some v) as Hv by reflexivity.
  assert (lacks_credential api_key c) as Hlacks by (split; reflexivity).
  split; [exact (conj Hv Hlacks) |].
  destruct (missing_credential_is_recorded Scenario.rt config api_key v c
              [createBasicAuth (Scenario.basic_store "admin" "secret")] []
              Scenario.handler_ok Scenario.world0 Hv Hlacks)
    as (w' & Hrun & _ & _ & Hloop & _).
  exists w'. exact (conj Hrun Hloop).
Defined.

(** A request with no credential at all: every verifier of the
    configuration is tried and its error logged, and nothing else
    happens. *)
Lemma no_credentials_all_recorded (rt : Runtime) (config : Config)
    (w0 ws : World) (mw : AuthMiddleware) (c : Request) (next : M unit)
    (w : World) :
  createAuthMiddleware rt config w0 = (Returned (Some mw), ws) →
  (∀ m, lacks_credential m c) →
  let tried := map fst (enabled_verifiers rt config) in
  tried ≠ [] ∧
  ∃ w', mw c next w = (Threw (all_failed_error config), w') ∧
        last (logs w')
          = Some (all_failed_entry config c
                    (map missing_credential_message tried)) ∧
        ctx_auth w' = ctx_auth w ∧ dispatched w' = dispatched w.
Proof.
  intros Hstart Hlacks tried.
  apply createAuthMiddleware_composes in Hstart as [-> Hne].
  split; [subst tried; by destruct (enabled_verifiers rt config) |].
  assert (∀ vs w,
            (∀ m v, (m, v) ∈ vs → verifier rt config m = Some v) →
            ∃ w', rejections (map snd vs) c w
                    = Some (map (λ m, AuthenticationError
                                        (missing_credential_message m))
                                (map fst vs), w') ∧
                  ctx_auth w' = ctx_auth w ∧ dispatched w' = dispatched w)
    as Hall.
  { induction vs as [|[m v] vs IH]; intros w1 Hvs.
    - by exists w1.
    - destruct (verifier_missing_credential rt config m v c w1)
        as (w2 & Hv & Hauth2 & Hdisp2); [apply Hvs; left | apply Hlacks |].
      destruct (IH w2) as (w3 & Hrest & Hauth3 & Hdisp3).
      { intros m' v' Hin. apply Hvs. by right. }
      exists w3. cbn [map fst snd rejections]. rewrite Hv, Hrest.
      cbn [instanceof_Error]. split; [done |]. split; congruence. }
  destruct (Hall (enabled_verifiers rt config) w)
    as (w1 & Hrej & Hauth & Hdisp); [apply enabled_verifiers_in |].
  unfold composeAuthMiddleware.
  rewrite <- (app_nil_r (map snd (enabled_verifiers rt config))).
  rewrite (compose_loop_rejections _ _ _ _ _ _ _ _ _ Hrej).
  rewrite compose_loop_exhausted. eexists. split; [done |].
  cbn [app logs add_log]. rewrite last_snoc.
  split; [| done]. do 2 f_equal. subst tried.
  rewrite !map_map. by apply map_ext.
Qed.

(** C2 as the specification states it fails: the request has no API key,
    in the header or in the query, and the orchestrator records the error
    of the API key verifier all the same, and logs it with its aggregated
    failure. *)
Lemma absent_key_recorded_as_error :
  let config := Scenario.config ["api-key"] in
  let c := Scenario.request [] [] in
  let r := Scenario.serve Scenario.rt config c Scenario.handler_ok
                          Scenario.world0 in
  req_header c "x-api-key" = None ∧ req_query c "api_key" = None ∧
  r.1 = Threw (AuthenticationError
                 "Authentication failed. Supported methods: api-key") ∧
  last (logs r.2)
    = Some (mkLog warn "All authentication methods failed"
              (req_meta c ++
               [("attemptedMethods", MList ["api-key"]);
                ("errors",
                 MList ["API key is required. Provide it via header or query parameter."])])).
Proof.
  intros config c r.
  split; [vm_compute; reflexivity |].
  split; [vm_compute; reflexivity |].
  split; vm_compute; reflexivity.
Qed.

(** C1, as the code has it.  The orchestrator tries the verifiers in the
    order api-key, oidc, basic, whatever the order of the names in
    [config.auth.methods]: permuting the names changes neither the
    verifiers nor their order.  When the verifiers before [v] refuse a
    request and [v], the verifier of the method [m], accepts it, the
    context then recorded has the method [m]; and when the handler after
    the middleware returns, the orchestrator returns with what the handler
    did, without calling the verifiers after [v]. *)
Theorem first_match_in_fixed_order (rt : Runtime) (config : Config)
    (w0 ws : World) (mw : AuthMiddleware)
    (pre post : list (AuthMethod * AuthMiddleware))
    (m : AuthMethod) (v : AuthMiddleware) (c : Request) (handler : M unit)
    (es : list Thrown) (w w1 w2 w3 : World) :
  createAuthMiddleware rt config w0 = (Returned (Some mw), ws) →
  enabled_verifiers rt config = pre ++ (m, v) :: post →
  rejections (map snd pre) c w = Some (es, w1) →
  v c noop w1 = (Returned tt, w2) →
  handler w2 = (Returned tt, w3) →
  mw c handler w = (Returned tt, w3) ∧
  method <$> ctx_auth w2 = Some m ∧
  map fst (enabled_verifiers rt config) `sublist_of` [api_key; oidc; basic] ∧
  ∀ names, names ≡ₚ methods (auth config) →
           enabled_verifiers rt (with_methods names config)
             = enabled_verifiers rt config.
Proof.
  intros Hstart Hvs Hrej Hv Hhandler.
  apply createAuthMiddleware_composes in Hstart as [-> _].
  split; [| split; [| split]].
  - unfold composeAuthMiddleware. rewrite Hvs, map_app. cbn [map snd].
    rewrite (compose_loop_rejections _ _ _ _ _ _ _ _ _ Hrej).
    rewrite (compose_loop_accepts _ _ _ _ _ _ _ _ Hv). by rewrite Hhandler.
  - apply (verifier_records_method rt config m v c w1 w2); [| done].
    apply enabled_verifiers_in. rewrite Hvs. apply elem_of_app. right. by left.
  - apply enabled_verifiers_order.
  - intros names Hperm. unfold enabled_verifiers.
    apply list_omap_ext, Forall2_same_length_lookup_2; [done |].
    intros i x y Hx Hy. rewrite Hx in Hy. injection Hy as <-.
    by rewrite verifier_with_methods.
Qed.

Lemma first_match_in_fixed_order_witness :
  let config := Scenario.config ["oidc"; "api-key"] in
  let c := Scenario.request [("x-api-key", "k1");
                             ("authorization", "Bearer good.jwt")] [] in
  let v := createApiKeyAuth (mkApiKeyAuthConfig ["k1"] None None) in
  let post := [(oidc, OIDCAuth_middleware Scenario.rt Scenario.oidc_config)] in
  ∃ mw ws w2 w3,
    (createAuthMiddleware Scenario.rt config Scenario.world0
       = (Returned (Some mw), ws) ∧
     enabled_verifiers Scenario.rt config = [] ++ (api_key, v) :: post ∧
     rejections [] c ws = Some ([], ws) ∧
     v c noop ws = (Returned tt, w2) ∧
     Scenario.handler_ok w2 = (Returned tt, w3)) ∧
    mw c Scenario.handler_ok ws = (Returned tt, w3) ∧
    method <$> ctx_auth w2 = Some api_key.
Proof.
  intros config c v post.
  set (start := createAuthMiddleware Scenario.rt config Scenario.world0).
  set (mw := composeAuthMiddleware config (v :: map snd post)).
  set (ws := start.2).
  set (w2 := api_key_success c "k1" ws).
  set (w3 := add_dispatch w2).
  assert (start = (Returned (Some mw), ws)) as Hstart by reflexivity.
  assert (enabled_verifiers Scenario.rt config = [] ++ (api_key, v) :: post)
    as Hvs by reflexivity.
  assert (rejections [] c ws = Some ([], ws)) as Hrej by reflexivity.
  assert (v c noop ws = (Returned tt, w2)) as Hv by reflexivity.
  assert (Scenario.handler_ok w2 = (Returned tt, w3)) as Hhandler
    by reflexivity.
  exists mw, ws, w2, w3.
  split; [exact (conj Hstart (conj Hvs (conj Hrej (conj Hv Hhandler)))) |].
  destruct (first_match_in_fixed_order Scenario.rt config Scenario.world0
              ws mw [] post api_key v c Scenario.handler_ok [] ws ws w2 w3
              Hstart Hvs Hrej Hv Hhandler) as (Hrun & Hmethod & _).
  exact (conj Hrun Hmethod).
Defined.

(** C1 as the specification states it fails.  The request carries a valid
    API key and a valid Bearer token, each of which is accepted when its
    method is the only one configured; with the methods configured in the
    order oidc, api-key, the method recorded is api-key. *)
Lemma configured_order_not_honoured :
  let c := Scenario.request [("x-api-key", "k1");
                             ("authorization", "Bearer good.jwt")] [] in
  let run names :=
    Scenario.serve Scenario.rt (Scenario.config names) c Scenario.handler_ok
                   Scenario.world0 in
  (run ["oidc"]).1 = Returned tt ∧
  Scenario.recorded_method (run ["oidc"]) = Some oidc ∧
  (run ["api-key"]).1 = Returned tt ∧
  Scenario.recorded_method (run ["api-key"]) = Some api_key ∧
  (run ["oidc"; "api-key"]).1 = Returned tt ∧
  Scenario.recorded_method (run ["oidc"; "api-key"]) = Some api_key.
Proof.
  intros c run.
  split; [vm_compute; reflexivity |]. split; [vm_compute; reflexivity |].
  split; [vm_compute; reflexivity |]. split; [vm_compute; reflexivity |].
  split; vm_compute; reflexivity.
Qed.




(** ** OIDC discovery *)

Lemma verifyToken_discovery_fails (rt : Runtime) (config : OIDCConfig)
    (token : string) (w : World) :
  oidc_jwks w = None →
  discovery_fails rt config = true →
  ∃ e w', verifyToken rt config token w = (Threw e, w') ∧
          instanceof_AuthenticationError e = false ∧
          ctx_auth w' = ctx_auth w ∧ dispatched w' = dispatched w ∧
          outbound w' = outbound w ++ [wellKnownUrl config].
Proof.
  intros Hjwks Hfails. unfold discovery_fails in Hfails.
  step_oidc. rewrite Hjwks.
  destruct (fetch rt (wellKnownUrl config)) as [|ok status body].
  { by eexists _, _. }
  destruct ok; cbn [negb orb] in *; [| by eexists _, _].
  destruct body as [| |jwks_uri]; try (by eexists _, _).
  destruct (truthy jwks_uri); cbn [negb andb orb] in *.
  - world. destruct (truthy (oidc_jwksUri w)); cbn [negb].
    { world. rewrite Hjwks. by eexists _, _. }
    destruct (url_parses rt _); [done |]. by eexists _, _.
  - world. rewrite Hjwks. by eexists _, _.
Qed.

(** C4, as the code has it.  When a request carries a Bearer token, the
    OIDCAuth object has no key set yet, and discovery fails (the fetch is
    rejected or answered with an error status, the document is no JSON, or
    it has no usable jwks_uri), the OIDC middleware throws an
    [AuthenticationError] "Authentication failed": a 401 for the error
    handler of the application, and for the orchestrator a refusal like
    any other, which it records before it goes on to the next verifier.
    Nothing escalates past the orchestrator. *)
Theorem discovery_failure_is_a_refusal (rt : Runtime) (config : OIDCConfig)
    (cfg : Config) (rest : list AuthMiddleware) (errors : list Thrown)
    (c : Request) (token : string) (next : M unit) (w : World) :
  extractBearerToken (req_header c "Authorization") = Some token →
  token ≠ "" →
  oidc_jwks w = None →
  discovery_fails rt config = true →
  ∃ w', OIDCAuth_middleware rt config c next w
          = (Threw (AuthenticationError "Authentication failed"), w') ∧
        onError (AuthenticationError "Authentication failed")
          = (401, "Authentication failed") ∧
        ctx_auth w' = ctx_auth w ∧ dispatched w' = dispatched w ∧
        compose_loop cfg (OIDCAuth_middleware rt config :: rest) errors c next w
          = compose_loop cfg rest
              (errors ++ [AuthenticationError "Authentication failed"]) c next w'.
Proof.
  intros Htoken Hne Hjwks Hfails.
  destruct (verifyToken_discovery_fails rt config token w Hjwks Hfails)
    as (e & w1 & Hverify & He & Hauth & Hdisp & _).
  assert (∀ next', OIDCAuth_middleware rt config c next' w
            = (Threw (AuthenticationError "Authentication failed"),
               add_log (mkLog error "OIDC authentication error"
                              [("error", MThrown e)]) w1)) as Hrun.
  { intros next'. unfold OIDCAuth_middleware.
    rewrite Htoken, truthy_Some by done. cbn [negb from_option id].
    cbv [mbind M_bind try_catch]. rewrite Hverify, He. reflexivity. }
  eexists. split; [apply Hrun |]. split; [reflexivity |].
  split; [done |]. split; [done |].
  by rewrite (compose_loop_rejects _ _ _ _ _ _ _ _ _ (Hrun noop)).
Qed.

Lemma discovery_failure_is_a_refusal_witness :
  let cfg := Scenario.config ["oidc"; "basic"] in
  let c := Scenario.request [("authorization", "Bearer good.jwt")] [] in
  (extractBearerToken (req_header c "Authorization") = Some "good.jwt" ∧
   oidc_jwks Scenario.world0 = None ∧
   discovery_fails Scenario.rt_down Scenario.oidc_config = true) ∧
  ∃ w', OIDCAuth_middleware Scenario.rt_down Scenario.oidc_config c noop
                            Scenario.world0
          = (Threw (AuthenticationError "Authentication failed"), w') ∧
        onError (AuthenticationError "Authentication failed")
          = (401, "Authentication failed").
Proof.
  intros cfg c.
  assert (extractBearerToken (req_header c "Authorization") = Some "good.jwt")
    as Htoken by reflexivity.
  assert (discovery_fails Scenario.rt_down Scenario.oidc_config = true)
    as Hfails by reflexivity.
  split; [exact (conj Htoken (conj eq_refl Hfails)) |].
  destruct (discovery_failure_is_a_refusal Scenario.rt_down
              Scenario.oidc_config cfg [] [] c "good.jwt" noop Scenario.world0
              Htoken ltac:(discriminate) eq_refl Hfails)
    as (w' & Hrun & Hstatus & _).
  exists w'. exact (conj Hrun Hstatus).
Defined.

(** C4 as the specification states it fails.  The token good.jwt is
    accepted when the identity provider answers.  When the provider cannot
    be reached, the same request ends in the aggregated authentication
    failure of the orchestrator, which the error handler of the
    application answers with the status 401, not with a 5xx. *)
Lemma unreachable_provider_gives_401 :
  let config := Scenario.config ["oidc"] in
  let c := Scenario.request [("authorization", "Bearer good.jwt")] [] in
  let up := Scenario.serve Scenario.rt config c Scenario.handler_ok
                           Scenario.world0 in
  let down := Scenario.serve Scenario.rt_down config c Scenario.handler_ok
                             Scenario.world0 in
  up.1 = Returned tt ∧
  down.1 = Threw (AuthenticationError
                    "Authentication failed. Supported methods: oidc") ∧
  fst (onError (AuthenticationError
                  "Authentication failed. Supported methods: oidc")) = 401 ∧
  last (logs down.2)
    = Some (all_failed_entry config c ["Authentication failed"]).
Proof.
  intros config c up down.
  split; [vm_compute; reflexivity |]. split; [vm_compute; reflexivity |].
  split; vm_compute; reflexivity.
Qed.

(** ** Requests in flight together *)

Module EventLoopFacts.
Import EventLoop.

(** One request alone: [verifyToken] is its first half, followed at once by
    the half that runs when the fetch has settled. *)
Lemma verifyToken_halves (rt : Runtime) (config : OIDCConfig)
    (token : string) (w : World) :
  verifyToken rt config token w =
    match verifyToken_begin config w with
    | (Returned (inl jwks), w1) => verifyToken_verify rt config token jwks w1
    | (Returned (inr url), w1) =>
        verifyToken_resume rt config token (fetch rt url) w1
    | (Threw e, w1) => (Threw e, w1)
    end.
Proof.
  unfold verifyToken, verifyToken_begin, verifyToken_resume, discoverConfig,
    discoverConfig_resume, discoverConfig_start.
  cbv [mbind M_bind mret M_ret get modify logger try_catch].
  destruct (oidc_jwks w) as [jwks|]; [reflexivity |].
  match goal with
  | |- context [discoverConfig_settled ?r ?f ?w0] =>
      destruct (discoverConfig_settled r f w0) as [[[]|e] w1]
  end; reflexivity.
Qed.

Lemma arrive_without_key_set (rt : Runtime) (config : OIDCConfig)
    (token : string) (l : Loop) :
  oidc_jwks (world l) = None →
  step rt config l (Arrive token) =
    mkLoop (add_outbound (wellKnownUrl config)
              (add_log (mkLog debug "Discovering OIDC configuration"
                              [("wellKnownUrl", MStr (wellKnownUrl config))])
                       (world l)))
           (waiting l ++ [mkWaiting token (wellKnownUrl config)])
           (settled l).
Proof.
  intros Hjwks. unfold step, verifyToken_begin. step_oidc.
  by rewrite Hjwks.
Qed.

Lemma discovery_fetches_arrive (config : OIDCConfig) (w : World)
    (ws : list Waiting) (ss : list (string * Outcome JWTPayload))
    (e : LogEntry) :
  discovery_fetches config
    (mkLoop (add_outbound (wellKnownUrl config) (add_log e w)) ws ss)
  = S (length (filter (λ url, url = wellKnownUrl config) (outbound w))).
Proof.
  unfold discovery_fetches. cbn [world]. world.
  rewrite filter_app, length_app. cbn [filter list_filter].
  rewrite decide_True by done. cbn [length]. lia.
Qed.
End EventLoopFacts.

(** C9, as the code has it.  The OIDCAuth object does not share a
    discovery in flight.  When the calls of [verifyToken] of N requests
    arrive while the object has no key set, each of them sends its own
    fetch of the discovery document and waits for it: N requests, N
    fetches, and not one of the calls has settled. *)
Theorem every_request_fetches (rt : Runtime) (config : OIDCConfig)
    (tokens : list string) (l : EventLoop.Loop) :
  oidc_jwks (EventLoop.world l) = None →
  let l' := EventLoop.run rt config (map EventLoop.Arrive tokens) l in
  EventLoop.discovery_fetches config l'
    = EventLoop.discovery_fetches config l + length tokens ∧
  EventLoop.waiting l'
    = EventLoop.waiting l
      ++ map (λ t, EventLoop.mkWaiting t (wellKnownUrl config)) tokens ∧
  EventLoop.settled l' = EventLoop.settled l ∧
  oidc_jwks (EventLoop.world l') = None.
Proof.
  revert l. induction tokens as [|token tokens IH]; intros l Hjwks.
  - cbn. rewrite app_nil_r. repeat split; [lia | done].
  - cbn [map EventLoop.run fold_left].
    rewrite (EventLoopFacts.arrive_without_key_set rt config token l Hjwks).
    set (l1 := EventLoop.mkLoop _ _ _).
    destruct (IH l1) as (Hn & Hw & Hs & Hj); [subst l1; cbn; by world |].
    unfold EventLoop.run in *. cbv zeta in *.
    rewrite Hn, Hw, Hs, Hj. subst l1.
    rewrite EventLoopFacts.discovery_fetches_arrive.
    cbn [EventLoop.waiting EventLoop.settled length map].
    rewrite <- app_assoc. unfold EventLoop.discovery_fetches.
    repeat split; try done. lia.
Qed.

Lemma every_request_fetches_witness :
  let l0 := EventLoop.mkLoop Scenario.world0 [] [] in
  let tokens := ["good.jwt"; "good.jwt"; "other.jwt"] in
  let l := EventLoop.run Scenario.rt Scenario.oidc_config
                         (map EventLoop.Arrive tokens) l0 in
  oidc_jwks (EventLoop.world l0) = None ∧
  EventLoop.discovery_fetches Scenario.oidc_config l = 0 + 3 ∧
  length (EventLoop.waiting l) = 3.
Proof.
  intros l0 tokens l.
  destruct (every_request_fetches Scenario.rt Scenario.oidc_config tokens l0
              eq_refl) as (Hn & Hw & _).
  split; [reflexivity |]. split; [exact Hn |].
  unfold l. rewrite Hw. reflexivity.
Defined.

(** C9 as the specification states it fails: two requests arrive before
    any discovery has settled, and the discovery document is fetched
    twice; both calls then settle with the payload of the token. *)
Lemma two_requests_two_fetches :
  let l0 := EventLoop.mkLoop Scenario.world0 [] [] in
  let arrived := EventLoop.run Scenario.rt Scenario.oidc_config
                   [EventLoop.Arrive "good.jwt"; EventLoop.Arrive "good.jwt"]
                   l0 in
  let done := EventLoop.run Scenario.rt Scenario.oidc_config
                [EventLoop.Settle 0; EventLoop.Settle 0] arrived in
  outbound (EventLoop.world arrived)
    = [Scenario.discovery_url; Scenario.discovery_url] ∧
  EventLoop.discovery_fetches Scenario.oidc_config arrived = 2 ∧
  EventLoop.settled arrived = [] ∧
  EventLoop.settled done
    = [("good.jwt", Returned Scenario.payload_alice);
       ("good.jwt", Returned Scenario.payload_alice)] ∧
  EventLoop.discovery_fetches Scenario.oidc_config done = 2.
Proof.
  intros l0 arrived done.
  split; [vm_compute; reflexivity |]. split; [vm_compute; reflexivity |].
  split; [vm_compute; reflexivity |]. split; vm_compute; reflexivity.
Qed.

(** ** A configuration without verifiers *)

Lemma includes_unknown (m : AuthMethod) (names : list string) :
  Forall (λ name, known_method name = false) names →
  includes (method_name m) names = false.
Proof.
  intros Hnames. unfold includes. apply bool_decide_eq_false_2. intros Hin.
  rewrite Forall_forall in Hnames. specialize (Hnames _ Hin).
  by destruct m.
Qed.

(** Method names that are none of api-key, oidc and basic give no
    verifier, and [validateConfig] accepts them when the port and the UI
    provider are in order. *)
Lemma unknown_methods_accepted (rt : Runtime) (config : Config) (w0 : World) :
  enabled (auth config) = true →
  methods (auth config) ≠ [] →
  Forall (λ name, known_method name = false) (methods (auth config)) →
  match port config with
  | Some p => (1 ≤ p ≤ 65535)%Z
  | None => True
  end →
  (ui_type (uiProvider config) = "magic" → is_Some (ui_magic (uiProvider config))) →
  (ui_type (uiProvider config) = "v0" → is_Some (ui_v0 (uiProvider config))) →
  validateConfig config = Returned tt ∧
  auth_middlewares rt config w0 = (Returned [], w0).
Proof.
  intros Hen Hne Hnames Hport Hmagic Hv0.
  pose proof (includes_unknown api_key _ Hnames) as Hk.
  pose proof (includes_unknown oidc _ Hnames) as Ho.
  pose proof (includes_unknown basic _ Hnames) as Hb.
  cbn [method_name] in Hk, Ho, Hb. split.
  - unfold validateConfig, validation_errors.
    rewrite Hen, Hk, Ho, Hb. cbn [andb].
    assert (match port config with
            | Some p => (p <? 1)%Z || (65535 <? p)%Z
            | None => false
            end = false) as ->.
    { destruct (port config) as [p|]; [| done].
      apply orb_false_iff. split; apply Z.ltb_ge; lia. }
    assert (String.eqb (ui_type (uiProvider config)) "magic"
            && negb (bool_decide (is_Some (ui_magic (uiProvider config))))
            = false) as ->.
    { destruct (String.eqb_spec (ui_type (uiProvider config)) "magic") as [H|];
        [| done].
      cbn [andb]. by rewrite bool_decide_eq_true_2 by auto. }
    assert (String.eqb (ui_type (uiProvider config)) "v0"
            && negb (bool_decide (is_Some (ui_v0 (uiProvider config))))
            = false) as ->.
    { destruct (String.eqb_spec (ui_type (uiProvider config)) "v0") as [H|];
        [| done].
      cbn [andb]. by rewrite bool_decide_eq_true_2 by auto. }
    destruct (methods (auth config)) as [|name names]; [done |].
    reflexivity.
  - unfold auth_middlewares. rewrite Hk, Ho, Hb. cbn [andb].
    destruct (auth_apiKeys (auth config)), (auth_oidc (auth config)),
      (auth_basicAuth (auth config)); reflexivity.
Qed.

(** C10.  When authentication is enabled and [createAuthMiddleware] has no
    verifier to compose, it warns and returns null; [createApp] then puts
    no middleware on the routes under /api, and a request goes to its
    handler as it came, with no authentication context recorded for it. *)
Theorem no_verifier_no_authentication (rt : Runtime) (config : Config)
    (w0 w1 : World) :
  enabled (auth config) = true →
  auth_middlewares rt config w0 = (Returned [], w1) →
  let warned :=
    add_log (mkLog warn "Authentication enabled but no methods configured" [])
            w1 in
  createAuthMiddleware rt config w0 = (Returned None, warned) ∧
  createApp rt config w0 = (Returned (mkApp None), warned) ∧
  ∀ (c : Request) (handler : M unit) (w : World),
    app_dispatch (mkApp None) c handler w = handler w.
Proof.
  intros Hen Hms warned.
  assert (createAuthMiddleware rt config w0 = (Returned None, warned)) as H.
  { unfold createAuthMiddleware. rewrite Hen. cbn [negb].
    cbv [mbind M_bind]. rewrite Hms. reflexivity. }
  split; [exact H |]. split; [| reflexivity].
  unfold createApp. cbv [mbind M_bind]. rewrite H. reflexivity.
Qed.

Lemma no_verifier_no_authentication_witness :
  let config := Scenario.config ["jwt"; "saml"] in
  let c := Scenario.request [] [] in
  let r := Scenario.serve Scenario.rt config c Scenario.handler_ok
                          Scenario.world0 in
  (enabled (auth config) = true ∧
   auth_middlewares Scenario.rt config Scenario.world0
     = (Returned [], Scenario.world0) ∧
   validateConfig config = Returned tt) ∧
  (createApp Scenario.rt config Scenario.world0).1 = Returned (mkApp None) ∧
  r.1 = Returned tt ∧ ctx_auth r.2 = None ∧ dispatched r.2 = 1.
Proof.
  intros config c r.
  assert (Forall (λ name, known_method name = false) (methods (auth config)))
    as Hnames by (repeat constructor).
  assert (ui_type (uiProvider config) = "magic" →
          is_Some (ui_magic (uiProvider config))) as Hmagic
    by (intros _; by eexists).
  assert (ui_type (uiProvider config) = "v0" →
          is_Some (ui_v0 (uiProvider config))) as Hv0 by discriminate.
  destruct (unknown_methods_accepted Scenario.rt config Scenario.world0
              eq_refl ltac:(discriminate) Hnames
              ltac:(cbn; lia) Hmagic Hv0) as [Hvalid Hms].
  destruct (no_verifier_no_authentication Scenario.rt config Scenario.world0
              Scenario.world0 eq_refl Hms) as (_ & Happ & Hpass).
  split; [exact (conj eq_refl (conj Hms Hvalid)) |].
  split; [by rewrite Happ |].
  unfold r, Scenario.serve. cbv [mbind M_bind]. rewrite Happ, Hpass.
  repeat split.
Defined.

(** ** More on Basic credentials *)

Lemma indexOf_split (ch : ascii) (s : string) (i : nat) :
  indexOf ch s = Some i →
  indexOf ch (String.substring 0 i s) = None ∧
  s = String.substring 0 i s +:+ String ch (substring_from (i + 1) s).
Proof.
  revert i. induction s as [|a s IH]; intros i; simpl; [done |].
  destruct (Ascii.eqb a ch) eqn:Ha.
  - intros [= <-]. apply Ascii.eqb_eq in Ha as ->. split; [done |].
    unfold substring_from. simpl. by rewrite Nat.sub_0_r, substring_all.
  - destruct (indexOf ch s) as [j|]; [| done]. intros [= <-].
    destruct (IH j eq_refl) as [Hnone Hs]. simpl. rewrite Ha, Hnone.
    split; [done |]. unfold substring_from in *. simpl.
    change (String a s = String a (String.substring 0 j s +:+
              String ch (String.substring (j + 1) (String.length s - (j + 1)) s))).
    by rewrite <- Hs.
Qed.

Lemma toLowerCase_length (s : string) :
  String.length (toLowerCase s) = String.length s.
Proof. induction s as [|a s IH]; simpl; by rewrite ?IH. Qed.

Lemma substring_from_append (u v : string) :
  substring_from (String.length u) (u +:+ v) = v.
Proof.
  unfold substring_from. rewrite (length_append u v), substring_skip.
  replace (String.length u + String.length v - String.length u)
    with (String.length v) by lia.
  apply substring_all.
Qed.

(** X1.  What parseBasicAuth returns: the user name is the decoded text up to
    its first colon, so it holds no colon, and the password is all that
    follows that colon. *)
Theorem parseBasicAuth_splits_at_first_colon (authHeader u p : string) :
  parseBasicAuth authHeader = Some (u, p) →
  indexOf ":" u = None ∧
  ∃ payload, match_basic authHeader = Some payload ∧
             Base64.decode payload = u +:+ ":" +:+ p.
Proof.
  unfold parseBasicAuth. destruct (match_basic authHeader) as [payload|]; [| done].
  cbv zeta. destruct (indexOf ":" (Base64.decode payload)) as [i|] eqn:Hi; [| done].
  intros [= <- <-]. destruct (indexOf_split _ _ _ Hi) as [Hnone Hs].
  split; [done |]. exists payload. split; [done |]. exact Hs.
Qed.

Lemma parseBasicAuth_splits_at_first_colon_witness :
  indexOf ":" "a" = None ∧
  ∃ payload, match_basic "Basic YTpiOmM=" = Some payload ∧
             Base64.decode payload = "a" +:+ ":" +:+ "b:c".
Proof.
  apply (parseBasicAuth_splits_at_first_colon "Basic YTpiOmM=" "a" "b:c").
  vm_compute. reflexivity.
Defined.

(** X2.  The scheme word is matched whatever its case: a header whose first
    five characters are a case variant of Basic is parsed as if they were
    Basic. *)
Theorem basic_scheme_any_case (scheme rest : string) :
  toLowerCase scheme = "basic" →
  parseBasicAuth (scheme +:+ rest) = parseBasicAuth ("Basic" +:+ rest).
Proof.
  intros H. unfold parseBasicAuth, match_basic.
  assert (String.length scheme = 5) as Hlen.
  { by rewrite <- toLowerCase_length, H. }
  replace (String.substring 0 5 (scheme +:+ rest)) with scheme
    by (by rewrite <- Hlen, substring_prefix).
  replace (substring_from 5 (scheme +:+ rest)) with rest
    by (by rewrite <- Hlen, substring_from_append).
  rewrite H.
  replace (String.substring 0 5 ("Basic" +:+ rest)) with "Basic"
    by (symmetry; apply (substring_prefix "Basic" rest)).
  replace (substring_from 5 ("Basic" +:+ rest)) with rest
    by (symmetry; apply (substring_from_append "Basic" rest)).
  reflexivity.
Qed.

Lemma basic_scheme_any_case_witness :
  parseBasicAuth ("bAsIC" +:+ " YTpi") = parseBasicAuth ("Basic" +:+ " YTpi").
Proof.
  apply (basic_scheme_any_case "bAsIC" " YTpi"). vm_compute. reflexivity.
Defined.

(** What the Basic verifier does, in two cases. *)
Lemma basic_outcome (config : BasicAuthConfig) (c : Request)
    (next : M unit) (w : World) :
  (∃ h u p entry,
      req_header c "Authorization" = Some h ∧
      parseBasicAuth h = Some (u, p) ∧
      users config !! u = Some (hashPassword p) ∧
      createBasicAuth config c next w =
        next (add_log entry (set_auth (mkAuthContext basic (Some u) None) w))) ∨
  (∃ msg entry,
      createBasicAuth config c next w =
        (Threw (AuthenticationError msg),
         set_header "WWW-Authenticate"
           (basic_challenge (or_else (realm config) "Magic MCP Server"))
           (add_log entry w))).
Proof.
  unfold createBasicAuth.
  destruct (req_header c "Authorization") as [h|] eqn:Hh;
    [| right; by do 2 eexists].
  destruct (truthy (Some h)); cbn [negb from_option id];
    [| right; by do 2 eexists].
  destruct (parseBasicAuth h) as [[u p]|] eqn:Hp; [| right; by do 2 eexists].
  destruct (truthy (users config !! u)); cbn [negb];
    [| right; by do 2 eexists].
  destruct (bool_decide (Some (hashPassword p) = users config !! u)) eqn:Hs;
    cbn [negb]; [| right; by do 2 eexists].
  apply bool_decide_eq_true in Hs. left. exists h, u, p. eexists.
  split; [done |]. split; [done |]. split; [done |]. by step.
Qed.

(** X3.  The Basic verifier either lets the request through, and then the
    Authorization header decodes to a user whose stored digest is the SHA-256
    of the presented password, or it refuses with an AuthenticationError and
    has set the WWW-Authenticate challenge for its realm, leaving the
    authentication context as it was and the handler not run. *)
Theorem basic_accepts_or_challenges (config : BasicAuthConfig) (c : Request)
    (next : M unit) (w : World) :
  (∃ h u p entry,
      req_header c "Authorization" = Some h ∧
      parseBasicAuth h = Some (u, p) ∧
      users config !! u = Some (hashPassword p) ∧
      createBasicAuth config c next w =
        next (add_log entry (set_auth (mkAuthContext basic (Some u) None) w))) ∨
  (∃ msg entry,
      createBasicAuth config c next w =
        (Threw (AuthenticationError msg),
         set_header "WWW-Authenticate"
           (basic_challenge (or_else (realm config) "Magic MCP Server"))
           (add_log entry w))).
Proof. apply basic_outcome. Qed.

(** ** The shape of a stored digest *)

Lemma hex_digit_lower (x : N) : is_lower_hex (SHA256.hex_digit (N.land x 0xF)) = true.
Proof.
  assert (N.land x 0xF < 16)%N as Hlt.
  { change 0xF%N with (N.ones 4). rewrite N.land_ones. by apply N.mod_lt. }
  generalize dependent (N.land x 0xF). intros v Hv.
  assert ((16 <=? v)%N || is_lower_hex (SHA256.hex_digit v) = true) as H.
  { apply (below_64 (λ v, (16 <=? v)%N || is_lower_hex (SHA256.hex_digit v)));
      [vm_compute; reflexivity | lia]. }
  destruct (N.leb_spec 16 v); [lia | done].
Qed.

Lemma sha256_hex_is_digest (s : string) : is_digest (SHA256.sha256_hex s) = true.
Proof.
  unfold SHA256.sha256_hex. generalize (SHA256.digest (SHA256.bytes_of s)).
  intros [a b c d e f g h]. unfold is_digest, SHA256.hex, SHA256.hex_word.
  cbn [SHA256.ha SHA256.hb SHA256.hc SHA256.hd SHA256.he SHA256.hf SHA256.hg
       SHA256.hh String.length Nat.eqb String.list_ascii_of_string forallb andb].
  by rewrite !hex_digit_lower.
Qed.

(** X4.  hashPassword always gives 64 lower-case hexadecimal digits. *)
Theorem hashPassword_is_digest (password : string) :
  is_digest (hashPassword password) = true.
Proof. apply sha256_hex_is_digest. Qed.

(** X5.  A user whose stored value is not 64 lower-case hexadecimal digits (a
    plain password, or a digest written in upper case) is refused whatever
    password the request carries. *)
Theorem stored_value_must_be_lower_hex_digest (config : BasicAuthConfig)
    (c : Request) (h u p stored : string) (next : M unit) (w : World) :
  req_header c "Authorization" = Some h →
  parseBasicAuth h = Some (u, p) →
  users config !! u = Some stored →
  is_digest stored = false →
  ∃ w', createBasicAuth config c next w =
          (Threw (AuthenticationError "Invalid username or password"), w').
Proof.
  intros Hh Hp Hs Hd.
  assert (h ≠ "") as Hne by (by intros ->).
  assert (hashPassword p ≠ stored) as Hhash.
  { intros <-. unfold hashPassword in Hd.
    by rewrite sha256_hex_is_digest in Hd. }
  destruct (decide (stored = "")) as [->|Hstored].
  - rewrite (basic_unknown_user config c h Hh Hne u p) by (by rewrite ?Hs).
    by eexists.
  - rewrite (basic_wrong_password config c h Hh Hne u p stored) by done.
    by eexists.
Qed.

Lemma stored_value_must_be_lower_hex_digest_witness :
  let stored := "2BB80D537B1DA3E38BD30361AA855686BDE0EACD7162FEF6A25FE97BF527A25B" in
  let config := mkBasicAuthConfig {["admin" := stored]} None in
  let c := Scenario.request [("authorization", "Basic YWRtaW46c2VjcmV0")] [] in
  toLowerCase stored = hashPassword "secret" ∧
  ∃ w', createBasicAuth config c noop Scenario.world0 =
          (Threw (AuthenticationError "Invalid username or password"), w').
Proof.
  intros stored config c.
  assert (toLowerCase stored = hashPassword "secret") as H0
    by (vm_compute; reflexivity).
  assert (req_header c "Authorization" = Some "Basic YWRtaW46c2VjcmV0") as H1
    by (vm_compute; reflexivity).
  assert (parseBasicAuth "Basic YWRtaW46c2VjcmV0" = Some ("admin", "secret"))
    as H2 by (vm_compute; reflexivity).
  assert (users config !! "admin" = Some stored) as H3
    by (vm_compute; reflexivity).
  assert (is_digest stored = false) as H4 by (vm_compute; reflexivity).
  split; [exact H0 |].
  exact (stored_value_must_be_lower_hex_digest config c _ _ _ _ noop
           Scenario.world0 H1 H2 H3 H4).
Defined.

(** ** More on the OIDC verifier *)

Lemma substring_parts (n : nat) (s : string) :
  s = String.substring 0 n s +:+ substring_from n s.
Proof.
  unfold substring_from. revert s.
  induction n as [|n IH]; intros [|a s]; simpl; try done.
  - by rewrite substring_all.
  - change (String a s = String a (String.substring 0 n s +:+
              String.substring n (String.length s - n) s)).
    by rewrite <- IH.
Qed.

Lemma bearer_prefix (h : string) :
  String.prefix BEARER_PREFIX h = true →
  h = BEARER_PREFIX +:+ substring_from (String.length BEARER_PREFIX) h.
Proof.
  intros H. apply String.prefix_correct in H.
  pose proof (substring_parts (String.length BEARER_PREFIX) h) as Hs.
  by rewrite H in Hs.
Qed.

Lemma bearer_prefix_append (t : string) :
  String.prefix BEARER_PREFIX (BEARER_PREFIX +:+ t) = true.
Proof. apply String.prefix_correct. apply substring_prefix. Qed.

(** X6.  extractBearerToken gives a token exactly for the headers that are
    the seven characters of "Bearer " followed by that token: the scheme is
    matched with its case and its single space, and nothing is trimmed. *)
Theorem bearer_token_is_the_rest (authHeader : option string) (t : string) :
  extractBearerToken authHeader = Some t ↔
  authHeader = Some (BEARER_PREFIX +:+ t).
Proof.
  unfold extractBearerToken. split.
  - destruct authHeader as [h|]; [| done]. cbn [from_option id].
    destruct (truthy (Some h)); [| done].
    destruct (String.prefix BEARER_PREFIX h) eqn:Hp; [| done].
    cbn [negb orb]. intros [= <-]. f_equal. by apply bearer_prefix.
  - intros ->. cbn [from_option id]. rewrite bearer_prefix_append.
    by rewrite substring_from_append.
Qed.

(** X7.  No Authorization header is both a Bearer token and Basic
    credentials. *)
Theorem bearer_header_is_not_basic (h t : string) :
  extractBearerToken (Some h) = Some t → parseBasicAuth h = None.
Proof.
  unfold extractBearerToken. cbn [from_option id].
  destruct (truthy (Some h)); [| done].
  destruct (String.prefix BEARER_PREFIX h) eqn:Hp; [| done].
  intros _. apply bearer_prefix in Hp. rewrite Hp.
  generalize (substring_from (String.length BEARER_PREFIX) h). intros rest.
  vm_compute. reflexivity.
Qed.

Lemma bearer_header_is_not_basic_witness :
  parseBasicAuth "Bearer YTpi" = None.
Proof.
  apply (bearer_header_is_not_basic "Bearer YTpi" "YTpi").
  vm_compute. reflexivity.
Defined.


Lemma verifyToken_frame (rt : Runtime) (config : OIDCConfig) (token : string)
    (w w' : World) (r : Outcome JWTPayload) :
  verifyToken rt config token w = (r, w') →
  ctx_auth w' = ctx_auth w ∧ ctx_headers w' = ctx_headers w ∧
  dispatched w' = dispatched w.
Proof.
  step_oidc. unfold verifyToken_verify.
  destruct (oidc_jwks w) as [j|] eqn:Hj.
  { destruct (jwtVerify rt token j _ _); step; by intros [= <- <-]. }
  destruct (fetch rt (wellKnownUrl config)) as [|ok status body].
  { by intros [= <- <-]. }
  destruct ok; cbn [negb]; [| by intros [= <- <-]].
  destruct body as [| |jwks_uri]; try (by intros [= <- <-]).
  world. destruct (truthy jwks_uri && negb (truthy (oidc_jwksUri w))).
  - world. destruct (url_parses rt _); world; [| by intros [= <- <-]].
    destruct (jwtVerify rt token _ _ _); step; by intros [= <- <-].
  - world. rewrite Hj. by intros [= <- <-].
Qed.

(** Whatever is thrown inside the OIDC middleware leaves it as an
    AuthenticationError. *)
Lemma oidc_throws_auth (rt : Runtime)
    (config : OIDCConfig) (c : Request) (next : M unit) (w w' : World)
    (e : Thrown) :
  OIDCAuth_middleware rt config c next w = (Threw e, w') →
  instanceof_AuthenticationError e = true.
Proof.
  unfold OIDCAuth_middleware.
  destruct (truthy (extractBearerToken _)); cbn [negb];
    [| step; by intros [= <- _]].
  cbv [try_catch]. match goal with |- context [(?m ≫= ?k) w] =>
    destruct ((m ≫= k) w) as [[[]|e1] w1] end; [done |].
  destruct (instanceof_AuthenticationError e1) eqn:He1.
  - step. by intros [= <- _].
  - step. by intros [= <- _].
Qed.

(** X9.  The OIDC middleware throws nothing but AuthenticationError, whatever
    the token verification or the handler behind it throws: an error of the
    handler reaches the caller as "Authentication failed", unless it is
    itself an AuthenticationError. *)
Theorem oidc_throws_only_authentication_errors (rt : Runtime)
    (config : OIDCConfig) (c : Request) (next : M unit) (w w' : World)
    (e : Thrown) :
  OIDCAuth_middleware rt config c next w = (Threw e, w') →
  instanceof_AuthenticationError e = true.
Proof. apply oidc_throws_auth. Qed.

Lemma oidc_throws_only_authentication_errors_witness :
  let c := Scenario.request [("authorization", "Bearer good.jwt")] [] in
  OIDCAuth_middleware Scenario.rt Scenario.oidc_config c
    Scenario.handler_throws Scenario.world0
  = (Threw (AuthenticationError "Authentication failed"),
     (OIDCAuth_middleware Scenario.rt Scenario.oidc_config c
        Scenario.handler_throws Scenario.world0).2) ∧
  instanceof_AuthenticationError (AuthenticationError "Authentication failed")
  = true.
Proof.
  intros c.
  assert (OIDCAuth_middleware Scenario.rt Scenario.oidc_config c
            Scenario.handler_throws Scenario.world0
          = (Threw (AuthenticationError "Authentication failed"),
             (OIDCAuth_middleware Scenario.rt Scenario.oidc_config c
                Scenario.handler_throws Scenario.world0).2)) as H
    by (vm_compute; reflexivity).
  split; [exact H |].
  exact (oidc_throws_only_authentication_errors _ _ _ _ _ _ _ H).
Defined.

(** ** The key set of the OIDC verifier *)

(** With a key set at hand the middleware is a function of the token and of
    jwtVerify alone. *)
Lemma oidc_steady (rt : Runtime) (config : OIDCConfig) (c : Request)
    (w : World) (j : string) :
  oidc_jwks w = Some j →
  let token := extractBearerToken (req_header c "Authorization") in
  let r := OIDCAuth_middleware rt config c noop w in
  outbound r.2 = outbound w ∧ oidc_jwks r.2 = Some j ∧
  oidc_jwksUri r.2 = oidc_jwksUri w ∧
  (r.1 = Returned tt ↔
   ∃ t payload, token = Some t ∧ t ≠ "" ∧
     jwtVerify rt t j (issuer config) (audience config) = Some payload ∧
     ctx_auth r.2 = Some (mkAuthContext oidc (Some (token_user payload))
                                        (Some payload))).
Proof.
  intros Hj token r. subst token r. unfold OIDCAuth_middleware.
  destruct (extractBearerToken _) as [t|] eqn:Ht; cbn [truthy negb];
    [destruct (String.eqb_spec t "") as [->|Hne]; cbn [negb] |].
  - step. world. repeat split; try done. by intros (? & ? & [= <-] & ? & _).
  - cbn [from_option id]. step_oidc. unfold verifyToken_verify. rewrite Hj.
    destruct (jwtVerify rt t j _ _) as [payload|] eqn:Hv; step;
      cbv [c_set_auth modify]; world; cbn [fst snd instanceof_AuthenticationError].
    + repeat split; try done. intros _. by exists t, payload.
    + repeat split; try done. intros (? & ? & [= <-] & _ & Hv' & _).
      by rewrite Hv in Hv'.
  - step. world. repeat split; try done. by intros (? & ? & [=] & _).
Qed.

(** X10.  Once the OIDC object has its key set, a request causes no discovery:
    nothing is fetched, the key set and the configured URI stay as they are,
    and the request is let through exactly when it carries a non-empty
    Bearer token that jwtVerify accepts for that key set, the issuer and the
    audience; the context then names the token's principal and carries its
    claims. *)
Theorem oidc_no_discovery_with_key_set (rt : Runtime) (config : OIDCConfig)
    (c : Request) (w : World) (j : string) :
  oidc_jwks w = Some j →
  let token := extractBearerToken (req_header c "Authorization") in
  let r := OIDCAuth_middleware rt config c noop w in
  outbound r.2 = outbound w ∧ oidc_jwks r.2 = Some j ∧
  oidc_jwksUri r.2 = oidc_jwksUri w ∧
  (r.1 = Returned tt ↔
   ∃ t payload, token = Some t ∧ t ≠ "" ∧
     jwtVerify rt t j (issuer config) (audience config) = Some payload ∧
     ctx_auth r.2 = Some (mkAuthContext oidc (Some (token_user payload))
                                        (Some payload))).
Proof. apply oidc_steady. Qed.

Lemma oidc_no_discovery_with_key_set_witness :
  let w := set_jwks (Some "https://idp.example/jwks") Scenario.world0 in
  let c := Scenario.request [("authorization", "Bearer good.jwt")] [] in
  let r := OIDCAuth_middleware Scenario.rt_down Scenario.oidc_config c noop w in
  outbound r.2 = [] ∧ r.1 = Returned tt.
Proof.
  intros w c r.
  destruct (oidc_no_discovery_with_key_set Scenario.rt_down
              Scenario.oidc_config c w "https://idp.example/jwks" eq_refl)
    as (Hout & _ & _ & Hret).
  split; [exact Hout |]. apply Hret.
  exists "good.jwt", Scenario.payload_alice.
  split; [vm_compute; reflexivity |]. split; [discriminate |].
  split; vm_compute; reflexivity.
Defined.

(** The first verification of a fresh object, when the provider answers
    with a jwks_uri that is a URL. *)
Lemma oidc_discovers (rt : Runtime) (config : OIDCConfig) (c : Request)
    (t uri : string) (status : nat) (w : World) :
  extractBearerToken (req_header c "Authorization") = Some t → t ≠ "" →
  oidc_jwks w = None → truthy (oidc_jwksUri w) = false →
  fetch rt (wellKnownUrl config) = FetchResponse true status (Json (Some uri)) →
  uri ≠ "" → url_parses rt uri = true →
  let r := OIDCAuth_middleware rt config c noop w in
  oidc_jwks r.2 = Some uri ∧ oidc_jwksUri r.2 = Some uri ∧
  outbound r.2 = outbound w ++ [wellKnownUrl config].
Proof.
  intros Ht Hne Hj Hu Hf Huri Hparse r. subst r. unfold OIDCAuth_middleware.
  rewrite Ht, truthy_Some by done. cbn [negb from_option id].
  step_oidc. unfold verifyToken_verify. rewrite Hj, Hf. cbn [negb].
  world. rewrite Hu, truthy_Some by done. cbn [negb andb from_option id].
  rewrite Hparse. world.
  destruct (jwtVerify rt t uri _ _); step; cbv [c_set_auth modify]; world;
    cbn [snd instanceof_AuthenticationError]; by world.
Qed.

(** X11.  Discovery is done once.  When the first Bearer request finds no key
    set and the provider answers with a jwks_uri that is a URL, that one
    fetch leaves the key set in place, whether or not the token is good, and
    no later request fetches again. *)
Theorem discovery_happens_once (rt : Runtime) (config : OIDCConfig)
    (c : Request) (t uri : string) (status : nat) (w : World)
    (later : list Request) :
  extractBearerToken (req_header c "Authorization") = Some t → t ≠ "" →
  oidc_jwks w = None → truthy (oidc_jwksUri w) = false →
  fetch rt (wellKnownUrl config) = FetchResponse true status (Json (Some uri)) →
  uri ≠ "" → url_parses rt uri = true →
  let serve := λ w c, (OIDCAuth_middleware rt config c noop w).2 in
  let w1 := serve w c in
  outbound w1 = outbound w ++ [wellKnownUrl config] ∧
  oidc_jwks w1 = Some uri ∧
  outbound (foldl serve w1 later) = outbound w1 ∧
  oidc_jwks (foldl serve w1 later) = Some uri.
Proof.
  intros Ht Hne Hj Hu Hf Huri Hparse serve w1.
  destruct (oidc_discovers rt config c t uri status w Ht Hne Hj Hu Hf Huri Hparse)
    as (Hj1 & _ & Hout).
  fold (serve w c) in Hj1, Hout. fold w1 in Hj1, Hout.
  split; [done |]. split; [done |].
  clearbody w1. clear Hout. revert w1 Hj1.
  induction later as [|c' later IH]; intros w1 Hj1; [done |].
  cbn [foldl].
  destruct (oidc_steady rt config c' w1 uri Hj1) as (Hout' & Hj' & _).
  fold (serve w1 c') in Hout', Hj'.
  destruct (IH (serve w1 c') Hj') as [IH1 IH2]. by rewrite IH1, IH2.
Qed.

Lemma discovery_happens_once_witness :
  let serve := λ w c,
    (OIDCAuth_middleware Scenario.rt Scenario.oidc_config c noop w).2 in
  let c := Scenario.request [("authorization", "Bearer bad.jwt")] [] in
  let c' := Scenario.request [("authorization", "Bearer good.jwt")] [] in
  length (outbound (foldl serve (serve Scenario.world0 c) [c'; c; c'])) = 1.
Proof.
  intros serve c c'.
  assert (extractBearerToken (req_header c "Authorization") = Some "bad.jwt")
    as H1 by (vm_compute; reflexivity).
  assert (fetch Scenario.rt (wellKnownUrl Scenario.oidc_config)
          = FetchResponse true 200 (Json (Some "https://idp.example/jwks")))
    as H2 by (vm_compute; reflexivity).
  assert (url_parses Scenario.rt "https://idp.example/jwks" = true) as H3
    by (vm_compute; reflexivity).
  pose proof (discovery_happens_once Scenario.rt Scenario.oidc_config c
                "bad.jwt" "https://idp.example/jwks" 200 Scenario.world0
                [c'; c; c'] H1 ltac:(discriminate) eq_refl eq_refl H2
                ltac:(discriminate) H3) as H.
  subst serve. cbv beta zeta in *. destruct H as (Hout & _ & Hlater & _).
  rewrite Hlater, Hout. reflexivity.
Defined.

Lemma oidc_stays_without_key_set (rt : Runtime) (config : OIDCConfig)
    (c : Request) (next : M unit) (w : World) :
  uri_without_key_set w →
  ∃ msg w', OIDCAuth_middleware rt config c next w
              = (Threw (AuthenticationError msg), w') ∧
            (truthy (extractBearerToken (req_header c "Authorization")) = true →
             msg = "Authentication failed") ∧
            uri_without_key_set w'.
Proof.
  intros [Hj Hu]. unfold OIDCAuth_middleware, uri_without_key_set.
  destruct (truthy (extractBearerToken _)); cbn [negb].
  { step_oidc. rewrite Hj.
    destruct (fetch rt (wellKnownUrl config)) as [|ok status body].
    { by eexists _, _. }
    destruct ok; cbn [negb]; [| by eexists _, _].
    destruct body as [| |jwks_uri]; try (by eexists _, _).
    world. rewrite Hu. rewrite andb_false_r. world. rewrite Hj.
    by eexists _, _. }
  step. by eexists _, _.
Qed.

(** X12.  A discovery document whose jwks_uri is not a URL disables the OIDC
    verifier for good.  The URI is stored before the key set is made, so the
    object is left with a URI and no key set; from then on every request
    with a Bearer token is refused with "Authentication failed", whatever
    the provider answers later and however good the token is. *)
Theorem unparsable_jwks_uri_disables_oidc (rt : Runtime) (config : OIDCConfig)
    (c : Request) (t uri : string) (status : nat) (w : World)
    (later : list (Runtime * Request)) (rt' : Runtime) (c' : Request)
    (next : M unit) :
  extractBearerToken (req_header c "Authorization") = Some t → t ≠ "" →
  oidc_jwks w = None → truthy (oidc_jwksUri w) = false →
  fetch rt (wellKnownUrl config) = FetchResponse true status (Json (Some uri)) →
  uri ≠ "" → url_parses rt uri = false →
  truthy (extractBearerToken (req_header c' "Authorization")) = true →
  let w1 := oidc_serve config w (rt, c) in
  ∃ w', OIDCAuth_middleware rt' config c' next
          (foldl (oidc_serve config) w1 later)
        = (Threw (AuthenticationError "Authentication failed"), w').
Proof.
  intros Ht Hne Hj Hu Hf Huri Hparse Ht' w1.
  assert (uri_without_key_set w1) as Hw1.
  { subst w1. unfold oidc_serve, OIDCAuth_middleware. cbn [fst snd].
    rewrite Ht, truthy_Some by done. cbn [negb from_option id].
    step_oidc. rewrite Hj, Hf. cbn [negb].
    world. rewrite Hu, truthy_Some by done. cbn [negb andb from_option id].
    rewrite Hparse. world. split; [done |]. by apply truthy_Some. }
  clearbody w1. revert w1 Hw1.
  induction later as [|[rt1 c1] later IH]; intros w1 Hw1; cbn [foldl].
  - destruct (oidc_stays_without_key_set rt' config c' next w1 Hw1)
      as (msg & w' & Hrun & Hmsg & _).
    rewrite (Hmsg Ht') in Hrun. by exists w'.
  - apply IH. unfold oidc_serve. cbn [fst snd].
    destruct (oidc_stays_without_key_set rt1 config c1 noop w1 Hw1)
      as (msg & w' & Hrun & _ & Hw'). by rewrite Hrun.
Qed.

Lemma unparsable_jwks_uri_disables_oidc_witness :
  let broken := mkRuntime
    (λ _, FetchResponse true 200 (Json (Some "idp.example/jwks")))
    (url_parses Scenario.rt) (jwtVerify Scenario.rt) in
  let c := Scenario.request [("authorization", "Bearer good.jwt")] [] in
  let w1 := oidc_serve Scenario.oidc_config Scenario.world0 (broken, c) in
  ∃ w', OIDCAuth_middleware Scenario.rt Scenario.oidc_config c noop
          (foldl (oidc_serve Scenario.oidc_config) w1 [(Scenario.rt, c)])
        = (Threw (AuthenticationError "Authentication failed"), w').
Proof.
  intros broken c w1.
  assert (extractBearerToken (req_header c "Authorization") = Some "good.jwt")
    as H1 by (vm_compute; reflexivity).
  assert (truthy (extractBearerToken (req_header c "Authorization")) = true)
    as H2 by (vm_compute; reflexivity).
  exact (unparsable_jwks_uri_disables_oidc broken Scenario.oidc_config c
           "good.jwt" "idp.example/jwks" 200 Scenario.world0
           [(Scenario.rt, c)] Scenario.rt c noop H1 ltac:(discriminate)
           eq_refl eq_refl eq_refl ltac:(discriminate) eq_refl H2).
Defined.

(** X13.  A fetch that gives nothing to use is not remembered.  The refused
    request leaves the OIDC object as it was, so the next Bearer request
    fetches again, and when the provider then answers with a jwks_uri that
    is a URL and the token verifies, that request is let through. *)
Theorem failed_discovery_is_retried (rt rt' : Runtime) (config : OIDCConfig)
    (c c' : Request) (t t' uri : string) (status : nat) (payload : JWTPayload)
    (w : World) :
  extractBearerToken (req_header c "Authorization") = Some t → t ≠ "" →
  oidc_jwks w = None → truthy (oidc_jwksUri w) = false →
  nothing_discovered (fetch rt (wellKnownUrl config)) = true →
  extractBearerToken (req_header c' "Authorization") = Some t' → t' ≠ "" →
  fetch rt' (wellKnownUrl config) = FetchResponse true status (Json (Some uri)) →
  uri ≠ "" → url_parses rt' uri = true →
  jwtVerify rt' t' uri (issuer config) (audience config) = Some payload →
  let r := OIDCAuth_middleware rt config c noop w in
  let r' := OIDCAuth_middleware rt' config c' noop r.2 in
  r.1 = Threw (AuthenticationError "Authentication failed") ∧
  oidc_jwks r.2 = None ∧ oidc_jwksUri r.2 = oidc_jwksUri w ∧
  r'.1 = Returned tt ∧
  outbound r'.2 = outbound w ++ [wellKnownUrl config; wellKnownUrl config].
Proof.
  intros Ht Hne Hj Hu Hf Ht' Hne' Hf' Huri Hparse Hv r r'.
  assert (oidc_jwks r.2 = None ∧ oidc_jwksUri r.2 = oidc_jwksUri w ∧
          outbound r.2 = outbound w ++ [wellKnownUrl config] ∧
          r.1 = Threw (AuthenticationError "Authentication failed"))
    as (Hj2 & Hu2 & Hout2 & Hthrew).
  { subst r r'. unfold OIDCAuth_middleware.
    rewrite Ht, truthy_Some by done. cbn [negb from_option id].
    step_oidc. rewrite Hj. unfold nothing_discovered in Hf.
    destruct (fetch rt (wellKnownUrl config)) as [|ok st body].
    { cbn [fst snd instanceof_AuthenticationError]. by world. }
    destruct ok; cbn [negb orb] in *;
      [| cbn [fst snd instanceof_AuthenticationError]; by world].
    destruct body as [| |jwks_uri];
      try (cbn [fst snd instanceof_AuthenticationError]; by world).
    apply negb_true_iff in Hf. rewrite Hf. cbn [andb]. world. rewrite Hj.
    cbn [fst snd instanceof_AuthenticationError]. by world. }
  split; [done |]. split; [done |]. split; [done |].
  subst r'. clearbody r. destruct r as [o w1]. cbn [fst snd] in *.
  unfold OIDCAuth_middleware.
  rewrite Ht', truthy_Some by done. cbn [negb from_option id].
  step_oidc. unfold verifyToken_verify. rewrite Hj2, Hf'. cbn [negb].
  world. rewrite Hu2, Hu, truthy_Some by done. cbn [negb andb from_option id].
  rewrite Hparse. world. rewrite Hv. step. cbv [c_set_auth modify]. world.
  cbn [fst snd]. world. split; [done |]. by rewrite Hout2, <- app_assoc.
Qed.

Lemma failed_discovery_is_retried_witness :
  let c := Scenario.request [("authorization", "Bearer good.jwt")] [] in
  let r := OIDCAuth_middleware Scenario.rt_down Scenario.oidc_config c noop
             Scenario.world0 in
  let r' := OIDCAuth_middleware Scenario.rt Scenario.oidc_config c noop r.2 in
  r.1 = Threw (AuthenticationError "Authentication failed") ∧
  r'.1 = Returned tt.
Proof.
  intros c r r'.
  assert (extractBearerToken (req_header c "Authorization") = Some "good.jwt")
    as H1 by (vm_compute; reflexivity).
  assert (fetch Scenario.rt (wellKnownUrl Scenario.oidc_config)
          = FetchResponse true 200 (Json (Some "https://idp.example/jwks")))
    as H2 by (vm_compute; reflexivity).
  assert (url_parses Scenario.rt "https://idp.example/jwks" = true) as H3
    by (vm_compute; reflexivity).
  assert (jwtVerify Scenario.rt "good.jwt" "https://idp.example/jwks"
            (issuer Scenario.oidc_config) (audience Scenario.oidc_config)
          = Some Scenario.payload_alice) as H4 by (vm_compute; reflexivity).
  pose proof (failed_discovery_is_retried Scenario.rt_down Scenario.rt
                Scenario.oidc_config c c "good.jwt" "good.jwt"
                "https://idp.example/jwks" 200 Scenario.payload_alice
                Scenario.world0 H1 ltac:(discriminate) eq_refl eq_refl eq_refl
                H1 ltac:(discriminate) H2 ltac:(discriminate) H3 H4) as H.
  cbv zeta in H. destruct H as (Ha & _ & _ & Hb & _). by split.
Defined.

(** ** More on the orchestrator *)




Lemma api_key_refuses_cleanly (kc : ApiKeyAuthConfig) :
  refuses_cleanly (createApiKeyAuth kc).
Proof.
  intros c w e w'. unfold createApiKeyAuth.
  repeat (case_if; cbn [negb]); step; intros [= <- <-]; by world.
Qed.

Lemma basic_refuses_cleanly (bc : BasicAuthConfig) :
  refuses_cleanly (createBasicAuth bc).
Proof.
  intros c w e w'.
  destruct (basic_outcome bc c noop w)
    as [(h & u & p & entry & _ & _ & _ & ->)|(msg & entry & ->)].
  - discriminate.
  - intros [= <- <-]. by world.
Qed.

Lemma oidc_refuses_cleanly (rt : Runtime) (config : OIDCConfig) :
  refuses_cleanly (OIDCAuth_middleware rt config).
Proof.
  intros c w e w'. unfold OIDCAuth_middleware.
  destruct (truthy (extractBearerToken _)); cbn [negb];
    [| step; intros [= <- <-]; by world].
  cbv [try_catch mbind M_bind].
  destruct (verifyToken rt config _ w) as [[payload|e1] w1] eqn:Hv;
    apply verifyToken_frame in Hv as (Ha & _ & Hd).
  - step. cbv [c_set_auth modify]. discriminate.
  - destruct (instanceof_AuthenticationError e1); step;
      intros [= <- <-]; by world.
Qed.

Lemma verifier_refuses_cleanly (rt : Runtime) (config : Config)
    (m : AuthMethod) (v : AuthMiddleware) :
  verifier rt config m = Some v → refuses_cleanly v.
Proof.
  destruct m; unfold verifier; cbn [mbind option_bind].
  - destruct (auth_apiKeys (auth config)) as [keys|]; cbn [mbind option_bind];
      [| discriminate].
    case_if; [| discriminate]. intros [= <-]. apply api_key_refuses_cleanly.
  - destruct (auth_oidc (auth config)) as [o|]; cbn [mbind option_bind];
      [| discriminate].
    case_if; [| discriminate]. intros [= <-]. apply oidc_refuses_cleanly.
  - destruct (auth_basicAuth (auth config)) as [b|]; cbn [mbind option_bind];
      [| discriminate].
    case_if; [| discriminate]. intros [= <-]. apply basic_refuses_cleanly.
Qed.

Lemma rejections_clean (ms : list AuthMiddleware) (c : Request)
    (es : list Thrown) (w w1 : World) :
  Forall refuses_cleanly ms →
  rejections ms c w = Some (es, w1) →
  ctx_auth w1 = ctx_auth w ∧ dispatched w1 = dispatched w.
Proof.
  intros Hms. revert es w. induction Hms as [|v ms Hv _ IH]; intros es w.
  - by intros [= _ <-].
  - cbn [rejections]. destruct (v c noop w) as [[[]|e] w'] eqn:Hrun; [done |].
    destruct (rejections ms c w') as [[es' w'']|] eqn:Hrest; [| done].
    intros [= _ <-]. destruct (Hv _ _ _ _ Hrun) as [Ha Hd].
    destruct (IH _ _ Hrest) as [Ha' Hd']. split; congruence.
Qed.

(** X15.  A request that the middleware of a configuration refuses has
    authenticated as nobody: when the route handler is one that returns, a
    thrown outcome means that no verifier recorded a context and that the
    handler was not run. *)
Theorem refused_request_reaches_nothing (rt : Runtime) (config : Config)
    (c : Request) (handler : M unit) (w w' : World) (e : Thrown) :
  (∀ w1, ∃ w2, handler w1 = (Returned tt, w2)) →
  composeAuthMiddleware config (map snd (enabled_verifiers rt config))
    c handler w = (Threw e, w') →
  ctx_auth w' = ctx_auth w ∧ dispatched w' = dispatched w.
Proof.
  intros Hhandler Hrun. unfold composeAuthMiddleware in Hrun.
  destruct (compose_loop_outcome config (map snd (enabled_verifiers rt config))
              [] c handler w Hhandler)
    as [(pre & v & post & es & w1 & w2 & _ & _ & _ & Heq)|(es & w1 & Hrej & Heq)];
    rewrite Heq in Hrun.
  - destruct (Hhandler w2) as [w3 Hw3]. by rewrite Hw3 in Hrun.
  - injection Hrun as _ <-. world. eapply rejections_clean; [| exact Hrej].
    apply Forall_forall. intros v Hv. apply list_elem_of_fmap in Hv as ([m v'] & -> & Hin).
    apply enabled_verifiers_in in Hin. by eapply verifier_refuses_cleanly.
Qed.

Lemma refused_request_reaches_nothing_witness :
  let config := Scenario.config ["api-key"; "basic"] in
  let c := Scenario.request [("x-api-key", "wrong")] [] in
  let r := composeAuthMiddleware config
             (map snd (enabled_verifiers Scenario.rt config))
             c Scenario.handler_ok Scenario.world0 in
  r.1 = Threw (all_failed_error config) ∧
  ctx_auth r.2 = None ∧ dispatched r.2 = 0.
Proof.
  intros config c r.
  assert (r.1 = Threw (all_failed_error config)) as H
    by (vm_compute; reflexivity).
  split; [exact H |].
  apply (refused_request_reaches_nothing Scenario.rt config c
           Scenario.handler_ok Scenario.world0 r.2 (all_failed_error config)).
  - intros w1. eexists. reflexivity.
  - rewrite <- H. apply surjective_pairing.
Defined.

(** ** Validation and set-up *)

Lemma push_if_nil (cond : bool) (msg : string) (errors : list string) :
  push_if cond msg errors = [] ↔ cond = false ∧ errors = [].
Proof.
  unfold push_if. destruct cond.
  - split; [| by intros [? _]]. by destruct errors.
  - split; [done | by intros [_ ->]].
Qed.

Lemma validateConfig_accepts (config : Config) :
  validateConfig config = Returned tt ↔ validation_errors config = [].
Proof.
  unfold validateConfig. destruct (validation_errors config); cbn; split; done.
Qed.

Lemma validation_errors_nil (config : Config) :
  validation_errors config = [] ↔
  match port config with
  | Some p => (1 ≤ p ≤ 65535)%Z
  | None => True
  end ∧
  (ui_type (uiProvider config) = "magic" → is_Some (ui_magic (uiProvider config))) ∧
  (ui_type (uiProvider config) = "v0" → is_Some (ui_v0 (uiProvider config))) ∧
  (enabled (auth config) = true →
   methods (auth config) ≠ [] ∧
   ∀ m, includes (method_name m) (methods (auth config)) = true →
        method_configured config m = true).
Proof.
  unfold validation_errors. cbv zeta.
  assert (∀ a b : bool, a && negb b = false ↔ (a = true → b = true)) as Himp.
  { intros [] []; naive_solver. }
  assert (match port config with
          | Some p => (p <? 1)%Z || (65535 <? p)%Z
          | None => false
          end = false ↔
          match port config with
          | Some p => (1 ≤ p ≤ 65535)%Z
          | None => True
          end) as Hport.
  { destruct (port config) as [p|]; [| done].
    rewrite orb_false_iff, !Z.ltb_ge. lia. }
  assert (∀ (k : string) (o : option string),
            String.eqb (ui_type (uiProvider config)) k
            && negb (bool_decide (is_Some o)) = false ↔
            (ui_type (uiProvider config) = k → is_Some o)) as Hui.
  { intros k o. rewrite Himp, String.eqb_eq, bool_decide_eq_true. done. }
  destruct (enabled (auth config)).
  - rewrite !push_if_nil, Hport, !Hui, !Himp, Nat.eqb_neq.
    split.
    + intros (Hb & Ho & Ha & Hm & (Hv0 & Hmagic & Hp & _)).
      repeat split; try done.
      * intros Hnil. apply Hm. by rewrite Hnil.
      * intros [] Hin; cbn [method_name method_configured] in *; auto.
    + intros (Hp & Hmagic & Hv0 & Hauth).
      destruct (Hauth eq_refl) as [Hm Hall].
      repeat split; try done.
      * intros Hin. apply (Hall basic Hin).
      * intros Hin. apply (Hall oidc Hin).
      * intros Hin. apply (Hall api_key Hin).
      * intros Hlen. apply Hm. by apply length_zero_iff_nil.
  - rewrite !push_if_nil, Hport, !Hui. split.
    + intros (Hv0 & Hmagic & Hp & _). repeat split; done.
    + intros (Hp & Hmagic & Hv0 & _). repeat split; done.
Qed.

(** X16.  validateConfig accepts a configuration exactly when the port is in
    range or no number at all, the selected UI provider has its key, and,
    with authentication enabled, at least one method is named and every
    named method among api-key, oidc and basic is configured.  A port that
    parseInt cannot read passes, and so does a method name that is none of
    the three. *)
Theorem validateConfig_accepts_exactly (config : Config) :
  validateConfig config = Returned tt ↔
  match port config with
  | Some p => (1 ≤ p ≤ 65535)%Z
  | None => True
  end ∧
  (ui_type (uiProvider config) = "magic" → is_Some (ui_magic (uiProvider config))) ∧
  (ui_type (uiProvider config) = "v0" → is_Some (ui_v0 (uiProvider config))) ∧
  (enabled (auth config) = true →
   methods (auth config) ≠ [] ∧
   ∀ m, includes (method_name m) (methods (auth config)) = true →
        method_configured config m = true).
Proof. rewrite validateConfig_accepts. apply validation_errors_nil. Qed.









(** ** Lists in the environment *)

Lemma trimStart_fixed (s : string) :
  match s with String a _ => is_space a = false | EmptyString => True end →
  trimStart s = s.
Proof. destruct s as [|a s]; [done |]. cbn. by intros ->. Qed.

Lemma trimStart_head (s : string) :
  match trimStart s with
  | String a _ => is_space a = false
  | EmptyString => True
  end.
Proof.
  induction s as [|a s IH]; [done |]. cbn [trimStart].
  destruct (is_space a) eqn:Ha; [done |]. exact Ha.
Qed.

Lemma trimEnd_head (s : string) :
  match s with String a _ => is_space a = false | EmptyString => True end →
  match trimEnd s with
  | String a _ => is_space a = false
  | EmptyString => True
  end.
Proof.
  destruct s as [|a s]; [done |]. cbn [trimEnd]. intros Ha.
  destruct (trimEnd s); [by rewrite Ha | done].
Qed.

Lemma trimEnd_idemp (s : string) : trimEnd (trimEnd s) = trimEnd s.
Proof.
  induction s as [|a s IH]; [done |]. cbn [trimEnd].
  destruct (trimEnd s) as [|b t] eqn:Ht.
  - destruct (is_space a) eqn:Ha; [done |]. cbn [trimEnd]. by rewrite Ha.
  - cbn [trimEnd] in *. by rewrite IH.
Qed.

Lemma trim_idemp (s : string) : trim (trim s) = trim s.
Proof.
  unfold trim. rewrite (trimStart_fixed (trimEnd (trimStart s))).
  - apply trimEnd_idemp.
  - apply trimEnd_head, trimStart_head.
Qed.

Lemma indexOf_trimStart (ch : ascii) (s : string) :
  indexOf ch s = None → indexOf ch (trimStart s) = None.
Proof.
  induction s as [|a s IH]; [done |]. cbn [trimStart indexOf].
  destruct (Ascii.eqb a ch) eqn:Ha; [done |].
  destruct (indexOf ch s) eqn:Hs; [done |]. intros _.
  destruct (is_space a); [by apply IH |]. cbn [indexOf]. by rewrite Ha, Hs.
Qed.

Lemma indexOf_trimEnd (ch : ascii) (s : string) :
  indexOf ch s = None → indexOf ch (trimEnd s) = None.
Proof.
  induction s as [|a s IH]; [done |]. cbn [trimEnd indexOf].
  destruct (Ascii.eqb a ch) eqn:Ha; [done |].
  destruct (indexOf ch s) eqn:Hs; [done |]. intros _.
  specialize (IH eq_refl).
  destruct (trimEnd s) as [|b t].
  - destruct (is_space a); [done |]. cbn [indexOf]. by rewrite Ha.
  - cbn [indexOf] in *. rewrite Ha. by destruct (Ascii.eqb b ch), (indexOf ch t).
Qed.

Lemma split_pieces (sep : ascii) (s : string) :
  split sep s ≠ [] ∧ Forall (λ piece, indexOf sep piece = None) (split sep s).
Proof.
  induction s as [|a s [IHne IH]]; cbn [split].
  - split; [done |]. by constructor.
  - destruct (Ascii.eqb a sep) eqn:Ha.
    + split; [done |]. by constructor.
    + destruct (split sep s) as [|piece pieces]; [done |].
      apply Forall_cons in IH as [Hp Hps]. split; [done |].
      constructor; [| done]. cbn [indexOf]. by rewrite Ha, Hp.
Qed.

Lemma split_append (sep : ascii) (x rest : string) :
  indexOf sep x = None →
  split sep (x +:+ String sep rest) = x :: split sep rest.
Proof.
  induction x as [|a x IH]; intros Hx.
  - change (split sep (String sep rest) = "" :: split sep rest).
    cbn [split]. by rewrite Ascii.eqb_refl.
  - change (split sep (String a (x +:+ String sep rest))
            = String a x :: split sep rest).
    cbn [split indexOf] in *. destruct (Ascii.eqb a sep); [done |].
    destruct (indexOf sep x); [done |]. by rewrite IH.
Qed.

Lemma split_whole (sep : ascii) (x : string) :
  indexOf sep x = None → split sep x = [x].
Proof.
  induction x as [|a x IH]; [done |]. cbn [split indexOf].
  destruct (Ascii.eqb a sep); [done |].
  destruct (indexOf sep x); [done |]. intros _. by rewrite IH.
Qed.

Lemma split_join (sep : ascii) (xs : list string) :
  xs ≠ [] → Forall (λ x, indexOf sep x = None) xs →
  split sep (join (String sep "") xs) = xs.
Proof.
  intros Hne Hxs. induction Hxs as [|x xs Hx Hxs IH]; [done |].
  destruct xs as [|y ys].
  - cbn [join]. by apply split_whole.
  - change (join (String sep "") (x :: y :: ys))
      with (x +:+ String sep (join (String sep "") (y :: ys))).
    rewrite split_append by done. by rewrite IH.
Qed.

(** An entry [parseList] can give: not empty, without a comma, and with
    no white space at either end. *)
Lemma parseList_entries (value : option string) :
  Forall (λ x, x ≠ "" ∧ indexOf "," x = None ∧ trim x = x) (parseList value).
Proof.
  unfold parseList. destruct (truthy value); cbn [negb]; [| by constructor].
  apply Forall_forall. intros x Hx.
  apply list_elem_of_In, filter_In in Hx as [Hin Hne].
  apply list_elem_of_In, list_elem_of_fmap in Hin as (piece & -> & Hpiece).
  split; [intros Hnil; by rewrite Hnil in Hne |].
  split; [| apply trim_idemp].
  destruct (split_pieces "," (default "" value)) as [_ Hall].
  rewrite Forall_forall in Hall. unfold trim.
  by apply indexOf_trimEnd, indexOf_trimStart, Hall.
Qed.

(** X20.  Every entry of a list read by parseList is a non-empty string
    without a comma and without white space at either end; empty pieces and
    pieces of white space are dropped. *)
Theorem parseList_gives_clean_entries (value : option string) (x : string) :
  x ∈ parseList value →
  x ≠ "" ∧ indexOf "," x = None ∧ trim x = x.
Proof.
  intros Hx. pose proof (parseList_entries value) as H.
  rewrite Forall_forall in H. by apply H.
Qed.

Lemma parseList_gives_clean_entries_witness :
  parseList (Some " k1 , ,k2,") = ["k1"; "k2"] ∧
  ("k2" ≠ "" ∧ indexOf "," "k2" = None ∧ trim "k2" = "k2").
Proof.
  assert (parseList (Some " k1 , ,k2,") = ["k1"; "k2"]) as H
    by (vm_compute; reflexivity).
  split; [exact H |].
  apply (parseList_gives_clean_entries (Some " k1 , ,k2,") "k2").
  rewrite H. set_solver.
Defined.

Lemma filter_clean (xs : list string) :
  Forall (λ x, x ≠ "" ∧ indexOf "," x = None ∧ trim x = x) xs →
  List.filter (λ s, truthy (Some s)) (map trim xs) = xs.
Proof.
  induction 1 as [|x xs (Hne & _ & Htrim) _ IH]; [done |].
  cbn [map List.filter]. rewrite Htrim, truthy_Some by done. by rewrite IH.
Qed.

(** X21.  parseList reads back what join wrote: a list of entries that are
    non-empty, without a comma and without white space at either end is
    what parseList gives for those entries joined by commas.  With the
    property before, these lists are exactly the values of parseList. *)
Theorem parseList_reads_back_joined (xs : list string) :
  Forall (λ x, x ≠ "" ∧ indexOf "," x = None ∧ trim x = x) xs →
  parseList (Some (join "," xs)) = xs.
Proof.
  intros Hxs. unfold parseList.
  destruct xs as [|x xs]; [done |].
  assert (join "," (x :: xs) ≠ "") as Hne.
  { apply Forall_cons in Hxs as [(Hx & _) _].
    destruct x as [|a x]; [done |]. by destruct xs. }
  rewrite truthy_Some by done. cbn [negb from_option id].
  rewrite (split_join "," (x :: xs)); [by apply filter_clean | done |].
  eapply Forall_impl; [exact Hxs |]. by intros y (_ & Hy & _).
Qed.

Lemma parseList_reads_back_joined_witness :
  parseList (Some (join "," ["api-key"; "basic"])) = ["api-key"; "basic"].
Proof.
  apply (parseList_reads_back_joined ["api-key"; "basic"]).
  repeat constructor; try discriminate.
Defined.

(** ** From the environment to the middleware *)

Lemma validateConfig_outcome (config : Config) :
  validateConfig config = Returned tt ∨
  ∃ msg, validateConfig config = Threw (Error msg).
Proof.
  unfold validateConfig. destruct (Nat.ltb 0 _); [right; by eexists | by left].
Qed.

(** X22.  The default set-up does not start without keys.  When AUTH_ENABLED
    is not false, AUTH_METHODS is unset or empty, so that api-key is the one
    method, and AUTH_API_KEYS gives no key, validateConfig throws on the
    loaded configuration. *)
Theorem no_keys_no_start (p : Process) :
  env p "AUTH_ENABLED" ≠ Some "false" →
  truthy (env p "AUTH_METHODS") = false →
  parseList (env p "AUTH_API_KEYS") = [] →
  ∃ msg, validateConfig (loadConfig p) = Threw (Error msg).
Proof.
  intros Hen Hm Hkeys.
  destruct (validateConfig_outcome (loadConfig p)) as [Hok|Hthrew]; [| done].
  exfalso. apply validateConfig_accepts, validation_errors_nil in Hok
    as (_ & _ & _ & Hauth).
  assert (or_else (env p "AUTH_METHODS") "api-key" = "api-key") as Hdefault.
  { apply truthy_false in Hm as [-> | ->]; reflexivity. }
  unfold loadConfig in Hauth. cbn [auth enabled methods] in Hauth.
  rewrite Hdefault in Hauth.
  destruct Hauth as [_ Hall]; [by rewrite bool_decide_eq_false_2 |].
  specialize (Hall api_key eq_refl).
  cbn [method_configured auth auth_apiKeys nonempty_keys] in Hall.
  by rewrite Hkeys in Hall.
Qed.

Lemma no_keys_no_start_witness :
  let p := mkProcess ["node"; "index.js"]
             (λ name, if String.eqb name "AUTH_API_KEYS" then Some " , "
                      else None)
             (λ _, None) in
  ∃ msg, validateConfig (loadConfig p) = Threw (Error msg).
Proof.
  intros p. apply (no_keys_no_start p).
  - discriminate.
  - reflexivity.
  - vm_compute. reflexivity.
Defined.

(** X23.  The API keys the server goes by are the entries parseList reads
    from AUTH_API_KEYS: a key that the API key verifier of the loaded
    configuration accepts is one of them, so it is not empty, holds no
    comma, and has no white space at either end. *)
Theorem accepted_api_key_is_a_listed_entry (rt : Runtime) (p : Process)
    (v : AuthMiddleware) (c : Request) (w : World) :
  verifier rt (loadConfig p) api_key = Some v →
  (v c noop w).1 = Returned tt →
  ∃ k, (req_header c API_KEY_HEADER = Some k ∨
        (truthy (req_header c API_KEY_HEADER) = false ∧
         req_query c API_KEY_QUERY = Some k)) ∧
       k ∈ parseList (env p "AUTH_API_KEYS") ∧
       k ≠ "" ∧ indexOf "," k = None ∧ trim k = k ∧
       ctx_auth (v c noop w).2
       = Some (mkAuthContext api_key (Some (api_key_principal k)) None).
Proof.
  unfold verifier, loadConfig. cbn [auth auth_apiKeys methods mbind option_bind].
  case_if; [| done]. intros [= <-] Hr.
  apply api_key_returns in Hr as (k & Hk & Hne & Hin & Hrun).
  cbn [headerName queryParamName apiKeys or_else] in *.
  exists k. split; [done |]. split; [done |].
  pose proof (parseList_entries (env p "AUTH_API_KEYS")) as Hall.
  rewrite Forall_forall in Hall. destruct (Hall k Hin) as (_ & Hcomma & Htrim).
  repeat split; try done. by rewrite Hrun.
Qed.

Lemma accepted_api_key_is_a_listed_entry_witness :
  let p := mkProcess ["node"; "index.js"]
             (λ name, if String.eqb name "AUTH_API_KEYS" then Some " k1 , k2"
                      else None)
             (λ _, None) in
  let c := Scenario.request [("x-api-key", "k2")] [] in
  ∃ k, (req_header c API_KEY_HEADER = Some k ∨
        (truthy (req_header c API_KEY_HEADER) = false ∧
         req_query c API_KEY_QUERY = Some k)) ∧
       k ∈ parseList (env p "AUTH_API_KEYS") ∧
       k ≠ "" ∧ indexOf "," k = None ∧ trim k = k ∧
       ctx_auth (createApiKeyAuth (mkApiKeyAuthConfig ["k1"; "k2"] None None)
                   c noop Scenario.world0).2
       = Some (mkAuthContext api_key (Some (api_key_principal k)) None).
Proof.
  intros p c.
  apply (accepted_api_key_is_a_listed_entry Scenario.rt p
           (createApiKeyAuth (mkApiKeyAuthConfig ["k1"; "k2"] None None))
           c Scenario.world0).
  - reflexivity.
  - vm_compute. reflexivity.
Defined.




(** ** The API key on the command line *)

Lemma prefix_parts (prefix s : string) :
  String.prefix prefix s = true →
  s = prefix +:+ substring_from (String.length prefix) s.
Proof.
  intros H. apply String.prefix_correct in H.
  pose proof (substring_parts (String.length prefix) s) as Hs.
  by rewrite H in Hs.
Qed.

Lemma key_run_parts (s key rest : string) :
  key_run s = (key, rest) → s = key +:+ rest.
Proof.
  revert key rest. induction s as [|a s IH]; intros key rest; cbn [key_run].
  - by intros [= <- <-].
  - destruct (is_key_char a); [| by intros [= <- <-]].
    destruct (key_run s) as [key' rest']. intros [= <- <-].
    change (String a s = String a (key' +:+ rest')). by rewrite (IH key' rest').
Qed.

Lemma dot_plus_end_Some (s v : string) :
  dot_plus_end s = Some v → v = s ∧ s ≠ "" ∧ has_line_terminator s = false.
Proof.
  unfold dot_plus_end. destruct s as [|a s]; [done |].
  destruct (has_line_terminator (String a s)); [done |]. by intros [= <-].
Qed.

Lemma dot_plus_end_plain (s : string) :
  s ≠ "" → has_line_terminator s = false → dot_plus_end s = Some s.
Proof.
  unfold dot_plus_end. destruct s as [|a s]; [done |]. by intros _ ->.
Qed.

Lemma match_key_value_shape (prefix : string) (seps : list ascii)
    (arg key value : string) :
  match_key_value prefix seps arg = Some (key, value) →
  ∃ a, a ∈ seps ∧ arg = prefix +:+ key +:+ String a value ∧
       value ≠ "" ∧ has_line_terminator value = false.
Proof.
  unfold match_key_value.
  destruct (String.prefix prefix arg) eqn:Hp; [| done].
  apply prefix_parts in Hp.
  destruct (key_run _) as [[|k key'] [|a rest]] eqn:Hrun; try done.
  apply key_run_parts in Hrun.
  destruct (bool_decide (a ∈ seps)) eqn:Ha; [| done].
  apply bool_decide_eq_true in Ha.
  destruct (dot_plus_end rest) as [v|] eqn:Hv; [| done].
  apply dot_plus_end_Some in Hv as (-> & Hne & Hline).
  cbn. intros [= <- <-]. exists a. rewrite <- Hrun. done.
Qed.

Ltac in_spellings :=
  cbv [String.append];
  repeat first [ by (apply elem_of_cons; left) | apply elem_of_cons; right ].

Ltac split_seps Ha :=
  repeat first [ apply elem_of_cons in Ha as [->|Ha]
               | by apply elem_of_nil in Ha ].

Lemma try_patterns_cases (patterns : list (string → option (string * string)))
    (arg : string) (apiKey : option string) :
  try_patterns patterns arg apiKey = apiKey ∨
  ∃ pattern value,
    pattern ∈ patterns ∧ pattern arg = Some ("API_KEY", value) ∧
    try_patterns patterns arg apiKey = Some (unquote value).
Proof.
  induction patterns as [|pattern patterns IH]; cbn [try_patterns]; [by left |].
  destruct (pattern arg) as [[key value]|] eqn:Hm.
  - destruct (String.eqb_spec key "API_KEY") as [->|_].
    + right. exists pattern, value. split; [by left | done].
    + destruct IH as [IH|(q & v & Hq & Hv & IH)]; [by left |].
      right. exists q, v. split; [by right | done].
  - destruct IH as [IH|(q & v & Hq & Hv & IH)]; [by left |].
    right. exists q, v. split; [by right | done].
Qed.

Lemma try_patterns_shape (arg : string) (apiKey : option string) :
  try_patterns keyValuePatterns arg apiKey = apiKey ∨
  ∃ value, arg ∈ api_key_spellings value ∧
           try_patterns keyValuePatterns arg apiKey = Some (unquote value).
Proof.
  destruct (try_patterns_cases keyValuePatterns arg apiKey)
    as [H|(pattern & value & Hin & Hm & H)]; [by left |].
  right. exists value. split; [| done]. clear H.
  unfold keyValuePatterns in Hin. unfold api_key_spellings.
  split_seps Hin;
    apply match_key_value_shape in Hm as (a & Ha & -> & _ & _);
    split_seps Ha; in_spellings.
Qed.

Lemma remove_all_gone (ch : ascii) (s : string) :
  indexOf ch (remove_all ch s) = None.
Proof.
  induction s as [|a s IH]; [done |]. cbn [remove_all].
  destruct (Ascii.eqb a ch) eqn:Ha; [done |]. cbn [indexOf]. by rewrite Ha, IH.
Qed.

Lemma remove_all_keeps (ch other : ascii) (s : string) :
  indexOf other s = None → indexOf other (remove_all ch s) = None.
Proof.
  induction s as [|a s IH]; [done |]. cbn [remove_all indexOf].
  destruct (Ascii.eqb a other) eqn:Ha; [done |].
  destruct (indexOf other s); [done |]. intros _.
  destruct (Ascii.eqb a ch); [by apply IH |]. cbn [indexOf].
  by rewrite Ha, IH.
Qed.

Lemma unquote_clean (value : string) :
  indexOf (ascii_of_nat 34) (unquote value) = None ∧
  indexOf "'" (unquote value) = None.
Proof.
  unfold unquote. split; [| apply remove_all_gone].
  apply remove_all_keeps, remove_all_gone.
Qed.

(** X25.  An API key read from the command line comes from an argument that
    spells it in one of the five ways, API_KEY=v, --API_KEY=v, /API_KEY:v,
    -API_KEY v or -API_KEY=v, with a value v that is not empty and on one
    line; the key is v without its quotes, so it holds no quote of either
    kind.  Arguments with another key, or a key in lower case, give
    nothing. *)
Theorem cli_api_key_comes_from_an_argument (p : Process) (k : string) :
  parseArguments p = Some k →
  (∃ arg value, arg ∈ argv p ∧ arg ∈ api_key_spellings value ∧
                k = unquote value) ∧
  indexOf (ascii_of_nat 34) k = None ∧ indexOf "'" k = None.
Proof.
  unfold parseArguments. rewrite <- fold_left_rev_right.
  assert (∀ args k,
            fold_right (λ arg apiKey, try_patterns keyValuePatterns arg apiKey)
                       None args = Some k →
            ∃ arg value, arg ∈ args ∧ arg ∈ api_key_spellings value ∧
                         k = unquote value) as H.
  { induction args as [|arg args IH]; intros k'; cbn [fold_right]; [done |].
    destruct (try_patterns_shape arg
                (fold_right (λ arg apiKey,
                               try_patterns keyValuePatterns arg apiKey)
                            None args)) as [->|(value & Hin & ->)].
    - intros Hk. destruct (IH k' Hk) as (arg' & value & Harg & Hrest).
      exists arg', value. split; [by right | done].
    - intros [= <-]. exists arg, value. split; [by left | done]. }
  intros Hk. apply H in Hk as (arg & value & Harg & Hsp & ->).
  split; [| apply unquote_clean].
  exists arg, value. split; [| done].
  apply list_elem_of_In. apply in_rev. by apply list_elem_of_In.
Qed.

Lemma cli_api_key_comes_from_an_argument_witness :
  let p := mkProcess ["node"; "index.js"; "--API_KEY='abc'"; "api_key=x"]
             (λ _, None) (λ _, None) in
  (∃ arg value, arg ∈ argv p ∧ arg ∈ api_key_spellings value ∧
                "abc" = unquote value) ∧
  indexOf (ascii_of_nat 34) "abc" = None ∧ indexOf "'" "abc" = None.
Proof.
  intros p. apply (cli_api_key_comes_from_an_argument p "abc").
  vm_compute. reflexivity.
Defined.

Lemma try_patterns_spelling (arg value : string) (apiKey : option string) :
  arg ∈ api_key_spellings value →
  value ≠ "" → has_line_terminator value = false →
  try_patterns keyValuePatterns arg apiKey = Some (unquote value).
Proof.
  intros Harg Hne Hline. pose proof (dot_plus_end_plain value Hne Hline) as Hv.
  unfold api_key_spellings in Harg.
  split_seps Harg; cbv - [dot_plus_end unquote];
    match goal with
    | |- context [dot_plus_end ?x] =>
        change x with (String.substring 0 (String.length value) value)
    end;
    rewrite substring_all, Hv; reflexivity.
Qed.

(** X26.  The last argument that spells the API key decides.  When the
    command line ends with one of the five spellings of a value that is not
    empty and on one line, parseArguments gives that value without its
    quotes, whatever came before it. *)
Theorem cli_api_key_last_spelling_wins (p : Process) (before : list string)
    (arg value : string) :
  argv p = before ++ [arg] →
  arg ∈ api_key_spellings value →
  value ≠ "" → has_line_terminator value = false →
  parseArguments p = Some (unquote value).
Proof.
  intros Hargv Harg Hne Hline. unfold parseArguments.
  rewrite Hargv, fold_left_app. cbn [fold_left].
  by apply try_patterns_spelling.
Qed.

Lemma cli_api_key_last_spelling_wins_witness :
  parseArguments (mkProcess ["node"; "API_KEY=old"; "-API_KEY new"]
                            (λ _, None) (λ _, None))
  = Some (unquote "new").
Proof.
  apply (cli_api_key_last_spelling_wins _ ["node"; "API_KEY=old"]
           "-API_KEY new" "new").
  - reflexivity.
  - unfold api_key_spellings. in_spellings.
  - discriminate.
  - reflexivity.
Defined.

(** ** Calls in flight together, with a provider that answers *)

Section interleaving.
Variables (rt : Runtime) (config : OIDCConfig) (uri : string) (status : nat).
Hypothesis Hfetch :
  fetch rt (wellKnownUrl config) = FetchResponse true status (Json (Some uri)).
Hypothesis Huri : uri ≠ "".
Hypothesis Hparse : url_parses rt uri = true.

Lemma verifyToken_verify_verified (token : string) (w : World) :
  ∃ w', verifyToken_verify rt config token uri w
          = (verified rt config uri token, w') ∧
        oidc_jwks w' = oidc_jwks w ∧ oidc_jwksUri w' = oidc_jwksUri w.
Proof.
  unfold verifyToken_verify, verified.
  destruct (jwtVerify rt token uri _ _); step; by eexists.
Qed.

Lemma step_discovering (l : EventLoop.Loop) (e : EventLoop.Event) :
  discovering config uri l →
  discovering config uri (EventLoop.step rt config l e) ∧
  ∃ new, EventLoop.settled (EventLoop.step rt config l e)
           = EventLoop.settled l ++ new ∧
         Forall (λ tr, tr.2 = verified rt config uri tr.1) new.
Proof using Hfetch Huri Hparse.
  intros [Hstate Hwait]. destruct e as [token|i].
  - destruct Hstate as [[Hj Hu]|[Hj Hu]].
    + rewrite (EventLoopFacts.arrive_without_key_set rt config token l Hj).
      split.
      * split; [left; cbn [EventLoop.world]; by world |].
        cbn [EventLoop.waiting]. apply Forall_app. split; [done |].
        by constructor.
      * exists []. cbn [EventLoop.settled]. by rewrite app_nil_r.
    + unfold EventLoop.step, EventLoop.verifyToken_begin. step. rewrite Hj.
      destruct (verifyToken_verify_verified token (EventLoop.world l))
        as (w' & Hrun & Hj' & Hu'). rewrite Hrun.
      split.
      * split; [right; cbn [EventLoop.world]; by rewrite Hj', Hu' | done].
      * exists [(token, verified rt config uri token)]. split; [done |].
        by constructor.
  - unfold EventLoop.step.
    destruct (EventLoop.waiting l !! i) as [call|] eqn:Hcall.
    2:{ split; [done |]. exists []. by rewrite app_nil_r. }
    assert (EventLoop.w_url call = wellKnownUrl config) as Hurl.
    { rewrite Forall_forall in Hwait. apply Hwait.
      by eapply list_elem_of_lookup_2. }
    rewrite Hurl, Hfetch.
    assert (∃ w', EventLoop.verifyToken_resume rt config (EventLoop.w_token call)
                    (FetchResponse true status (Json (Some uri)))
                    (EventLoop.world l)
                  = (verified rt config uri (EventLoop.w_token call), w') ∧
                  oidc_jwks w' = Some uri ∧ truthy (oidc_jwksUri w') = true)
      as (w' & Hrun & Hj' & Hu').
    { unfold EventLoop.verifyToken_resume. step_oidc. cbn [negb].
      rewrite (truthy_Some uri Huri). cbn [andb from_option id].
      destruct Hstate as [[Hj Hu]|[Hj Hu]]; rewrite Hu; cbn [negb].
      - rewrite Hparse. world.
        destruct (verifyToken_verify_verified (EventLoop.w_token call)
                    (add_log (mkLog info "OIDC JWKS URI discovered"
                                    [("jwksUri", MStr uri)])
                       (set_jwks (Some uri)
                          (set_jwksUri (Some uri) (EventLoop.world l)))))
          as (w' & Hrun & Hj' & Hu').
        exists w'. rewrite Hrun. split; [done |]. rewrite Hj', Hu'. world.
        split; [done |]. by apply truthy_Some.
      - world. rewrite Hj.
        destruct (verifyToken_verify_verified (EventLoop.w_token call)
                    (EventLoop.world l)) as (w' & Hrun & Hj' & Hu').
        exists w'. rewrite Hrun. split; [done |]. by rewrite Hj', Hu'. }
    rewrite Hrun. split.
    + split; [right; by cbn [EventLoop.world] |].
      cbn [EventLoop.waiting]. by apply Forall_delete.
    + eexists [_]. split; [done |]. by constructor.
Qed.

Lemma run_discovering (events : list EventLoop.Event) (l : EventLoop.Loop) :
  discovering config uri l →
  ∃ new, EventLoop.settled (EventLoop.run rt config events l)
           = EventLoop.settled l ++ new ∧
         Forall (λ tr, tr.2 = verified rt config uri tr.1) new.
Proof using Hfetch Huri Hparse.
  revert l. induction events as [|e events IH]; intros l Hl.
  - exists []. by rewrite app_nil_r.
  - destruct (step_discovering l e Hl) as (Hl' & new & Hnew & Hall).
    destruct (IH _ Hl') as (new' & Hnew' & Hall').
    exists (new ++ new'). unfold EventLoop.run in *. cbn [fold_left].
    rewrite Hnew', Hnew, app_assoc. split; [done |]. by apply Forall_app.
Qed.
End interleaving.

(** X27.  Concurrent discoveries do no harm to the verdicts.  When the
    provider answers each fetch with the same jwks_uri, a URL, then however
    the arrivals of calls of verifyToken and the settlements of their
    fetches are interleaved, every call that settles has the outcome that
    jwtVerify gives for its own token and the key set of that URI: the
    payload, or "Invalid or expired token". *)
Theorem interleaved_calls_get_their_own_verdict (rt : Runtime)
    (config : OIDCConfig) (uri : string) (status : nat)
    (events : list EventLoop.Event) (l : EventLoop.Loop) :
  fetch rt (wellKnownUrl config) = FetchResponse true status (Json (Some uri)) →
  uri ≠ "" → url_parses rt uri = true →
  oidc_jwks (EventLoop.world l) = None →
  truthy (oidc_jwksUri (EventLoop.world l)) = false →
  Forall (λ call, EventLoop.w_url call = wellKnownUrl config)
         (EventLoop.waiting l) →
  ∃ new, EventLoop.settled (EventLoop.run rt config events l)
           = EventLoop.settled l ++ new ∧
         Forall (λ tr, tr.2 = verified rt config uri tr.1) new.
Proof.
  intros Hfetch Huri Hparse Hj Hu Hwait.
  apply (run_discovering rt config uri status Hfetch Huri Hparse).
  split; [by left | done].
Qed.

Lemma interleaved_calls_get_their_own_verdict_witness :
  let l := EventLoop.mkLoop Scenario.world0 [] [] in
  let events := [EventLoop.Arrive "good.jwt"; EventLoop.Arrive "bad.jwt";
                 EventLoop.Settle 1; EventLoop.Arrive "good.jwt";
                 EventLoop.Settle 0] in
  ∃ new, EventLoop.settled (EventLoop.run Scenario.rt Scenario.oidc_config
                              events l)
           = EventLoop.settled l ++ new ∧
         Forall (λ tr, tr.2 = verified Scenario.rt Scenario.oidc_config
                                "https://idp.example/jwks" tr.1) new.
Proof.
  intros l events.
  assert (fetch Scenario.rt (wellKnownUrl Scenario.oidc_config)
          = FetchResponse true 200 (Json (Some "https://idp.example/jwks")))
    as H1 by (vm_compute; reflexivity).
  assert (url_parses Scenario.rt "https://idp.example/jwks" = true) as H2
    by (vm_compute; reflexivity).
  apply (interleaved_calls_get_their_own_verdict Scenario.rt
           Scenario.oidc_config "https://idp.example/jwks" 200 events l H1
           ltac:(discriminate) H2 eq_refl eq_refl).
  constructor.
Defined.

(** ** What a refusal leaves behind *)

Lemma rejections_app (pre post : list AuthMiddleware) (c : Request)
    (es : list Thrown) (w w' : World) :
  rejections (pre ++ post) c w = Some (es, w') →
  ∃ es1 w1 es2,
    rejections pre c w = Some (es1, w1) ∧
    rejections post c w1 = Some (es2, w') ∧ es = es1 ++ es2.
Proof.
  revert es w. induction pre as [|v pre IH]; intros es w.
  - intros H. by exists [], w, es.
  - cbn [app rejections].
    destruct (v c noop w) as [[[]|e] w0]; [done |].
    destruct (rejections (pre ++ post) c w0) as [[es' w'']|] eqn:Hrest; [| done].
    intros [= <- <-].
    destruct (IH _ _ Hrest) as (es1 & w1 & es2 & -> & Hpost & ->).
    eexists _, w1, es2. split; [reflexivity |]. split; [done |].
    by destruct (instanceof_Error e).
Qed.

Lemma verifier_throws_auth (rt : Runtime) (config : Config) (m : AuthMethod)
    (v : AuthMiddleware) (c : Request) (w w' : World) (e : Thrown) :
  verifier rt config m = Some v →
  v c noop w = (Threw e, w') →
  instanceof_AuthenticationError e = true.
Proof.
  destruct m; unfold verifier; cbn [mbind option_bind].
  - destruct (auth_apiKeys (auth config)) as [keys|]; cbn [mbind option_bind];
      [| discriminate].
    case_if; [| discriminate]. intros [= <-].
    unfold createApiKeyAuth.
    repeat (case_if; cbn [negb]); step; by intros [= <- _].
  - destruct (auth_oidc (auth config)) as [o|]; cbn [mbind option_bind];
      [| discriminate].
    case_if; [| discriminate]. intros [= <-]. apply oidc_throws_auth.
  - destruct (auth_basicAuth (auth config)) as [b|]; cbn [mbind option_bind];
      [| discriminate].
    case_if; [| discriminate]. intros [= <-].
    destruct (basic_outcome (mkBasicAuthConfig (users b) None) c noop w)
      as [(h & u & p & entry & _ & _ & _ & ->)|(msg & entry & ->)].
    + discriminate.
    + by intros [= <- _].
Qed.

Lemma rejections_recorded (vs : list (AuthMethod * AuthMiddleware))
    (rt : Runtime) (config : Config) (c : Request) (es : list Thrown)
    (w w1 : World) :
  Forall (λ mv, verifier rt config mv.1 = Some mv.2) vs →
  rejections (map snd vs) c w = Some (es, w1) →
  length es = length vs ∧
  Forall (λ e, instanceof_AuthenticationError e = true) es.
Proof.
  intros Hvs. revert es w. induction Hvs as [|[m v] vs Hv _ IH]; intros es w.
  - by intros [= <- _].
  - cbn [map snd rejections].
    destruct (v c noop w) as [[[]|e] w0] eqn:Hrun; [done |].
    destruct (rejections (map snd vs) c w0) as [[es' w'']|] eqn:Hrest; [| done].
    intros [= <- <-]. destruct (IH _ _ Hrest) as [Hlen Hall].
    pose proof (verifier_throws_auth rt config m v c w w0 e Hv Hrun) as He.
    destruct e; try discriminate. cbn [instanceof_Error length].
    split; [by rewrite Hlen | by constructor].
Qed.

(** X28.  Every verifier that refuses is recorded.  When all the verifiers of
    a configuration refuse a request, the orchestrator has collected one
    error from each of them, in their order, every one an
    AuthenticationError, and it throws its aggregated error after logging
    their messages, without running the handler. *)
Theorem every_refusal_is_recorded (rt : Runtime) (config : Config)
    (c : Request) (handler : M unit) (es : list Thrown) (w w1 : World) :
  rejections (map snd (enabled_verifiers rt config)) c w = Some (es, w1) →
  length es = length (enabled_verifiers rt config) ∧
  Forall (λ e, instanceof_AuthenticationError e = true) es ∧
  composeAuthMiddleware config (map snd (enabled_verifiers rt config))
    c handler w
  = (Threw (all_failed_error config),
     add_log (all_failed_entry config c (map error_message es)) w1).
Proof.
  intros Hrej.
  destruct (rejections_recorded (enabled_verifiers rt config) rt config c es
              w w1) as [Hlen Hall]; [| done |].
  { apply Forall_forall. intros [m v] Hin. by apply enabled_verifiers_in. }
  split; [done |]. split; [done |]. unfold composeAuthMiddleware.
  rewrite <- (app_nil_r (map snd (enabled_verifiers rt config))).
  rewrite (compose_loop_rejections config _ [] [] es c handler w w1 Hrej).
  by rewrite compose_loop_exhausted.
Qed.

Lemma every_refusal_is_recorded_witness :
  let config := Scenario.config ["api-key"; "oidc"; "basic"] in
  let c := Scenario.request [("authorization", "Basic YWRtaW46d3Jvbmc=")] [] in
  ∃ es w1,
    rejections (map snd (enabled_verifiers Scenario.rt config)) c
      Scenario.world0 = Some (es, w1) ∧
    length es = 3 ∧
    map error_message es
    = ["API key is required. Provide it via header or query parameter.";
       "Bearer token required"; "Invalid username or password"].
Proof.
  intros config c.
  destruct (rejections (map snd (enabled_verifiers Scenario.rt config)) c
              Scenario.world0) as [[es w1]|] eqn:Hrej.
  - exists es, w1. split; [reflexivity |].
    destruct (every_refusal_is_recorded Scenario.rt config c Scenario.handler_ok
                es Scenario.world0 w1 Hrej) as (Hlen & _ & _).
    split; [exact Hlen |].
    assert (Some (map error_message es, w1).1
            = Some ["API key is required. Provide it via header or query parameter.";
                    "Bearer token required"; "Invalid username or password"])
      as H; [| by injection H].
    replace (map error_message es) with
      (map error_message (default ([], Scenario.world0)
         (rejections (map snd (enabled_verifiers Scenario.rt config)) c
                     Scenario.world0)).1) by (by rewrite Hrej).
    vm_compute. reflexivity.
  - exfalso. revert Hrej. vm_compute. discriminate.
Defined.

Lemma basic_is_last (rt : Runtime) (config : Config) (vb : AuthMiddleware) :
  verifier rt config basic = Some vb →
  ∃ pre, map snd (enabled_verifiers rt config) = pre ++ [vb].
Proof.
  intros Hb. unfold enabled_verifiers, verifier_order. cbn [omap list_omap].
  rewrite Hb.
  destruct (verifier rt config api_key) as [va|],
    (verifier rt config oidc) as [vo|];
    cbn [fmap option_fmap option_map map snd].
  - by exists [va; vo].
  - by exists [va].
  - by exists [vo].
  - by exists [].
Qed.

(** X29.  With Basic among the verifiers of a configuration, a request that
    the middleware refuses, before a handler that returns, leaves with the
    header WWW-Authenticate set to the Basic challenge; its realm is Magic
    MCP Server whatever realm the configuration names, since
    createAuthMiddleware passes the users only. *)
Theorem refusal_carries_basic_challenge (rt : Runtime) (config : Config)
    (vb : AuthMiddleware) (c : Request) (handler : M unit) (w w' : World)
    (e : Thrown) :
  verifier rt config basic = Some vb →
  (∀ w1, ∃ w2, handler w1 = (Returned tt, w2)) →
  composeAuthMiddleware config (map snd (enabled_verifiers rt config))
    c handler w = (Threw e, w') →
  ctx_headers w' !! "WWW-Authenticate"
  = Some (basic_challenge "Magic MCP Server").
Proof.
  intros Hb Hhandler Hrun. unfold composeAuthMiddleware in Hrun.
  destruct (compose_loop_outcome config (map snd (enabled_verifiers rt config))
              [] c handler w Hhandler)
    as [(pre & v & post & es & w1 & w2 & _ & _ & _ & Heq)|(es & w1 & Hrej & Heq)];
    rewrite Heq in Hrun.
  { destruct (Hhandler w2) as [w3 Hw3]. by rewrite Hw3 in Hrun. }
  injection Hrun as _ <-. world.
  destruct (basic_is_last rt config vb Hb) as [pre Hpre].
  rewrite Hpre in Hrej.
  apply rejections_app in Hrej as (es1 & w0 & es2 & _ & Hlast & _).
  cbn [rejections] in Hlast.
  destruct (vb c noop w0) as [[[]|e1] w2] eqn:Hvb; [done |].
  injection Hlast as _ <-.
  unfold verifier in Hb. cbn [mbind option_bind] in Hb.
  destruct (auth_basicAuth (auth config)) as [b|]; [| done].
  cbn [mbind option_bind] in Hb. revert Hb. case_if; [| done]. intros [= <-].
  destruct (basic_outcome (mkBasicAuthConfig (users b) None) c noop w0)
    as [(h & u & p & entry & _ & _ & _ & Hok)|(msg & entry & Hno)].
  - by rewrite Hok in Hvb.
  - rewrite Hno in Hvb. injection Hvb as _ <-. world.
    apply lookup_insert_eq.
Qed.

Lemma refusal_carries_basic_challenge_witness :
  let config := Scenario.config ["api-key"; "basic"] in
  let c := Scenario.request [("x-api-key", "wrong")] [] in
  let r := composeAuthMiddleware config
             (map snd (enabled_verifiers Scenario.rt config))
             c Scenario.handler_ok Scenario.world0 in
  r.1 = Threw (all_failed_error config) ∧
  ctx_headers r.2 !! "WWW-Authenticate"
  = Some (basic_challenge "Magic MCP Server").
Proof.
  intros config c r.
  assert (r.1 = Threw (all_failed_error config)) as H
    by (vm_compute; reflexivity).
  split; [exact H |].
  apply (refusal_carries_basic_challenge Scenario.rt config
           (createBasicAuth (mkBasicAuthConfig
              (users (Scenario.basic_store "admin" "secret")) None))
           c Scenario.handler_ok Scenario.world0 r.2 (all_failed_error config)).
  - reflexivity.
  - intros w1. eexists. reflexivity.
  - rewrite <- H. apply surjective_pairing.
Defined.
